(** * xmlstore: a shallow embedding of [xmlstore/xmlstore.py]

    The development follows the source file top to bottom: the schema DOM,
    the value DOM, [Node], [TypedStoreInterface], [TypedStore] and
    [SchemaInfo].  Python exceptions are values of [exn]; a method that
    mutates the store is a function of the state monad [M], in which the
    state survives a raised exception, as it does in Python. *)

From Stdlib Require Import String Ascii List ZArith Lia Bool Arith DecimalString Sorted.
From stdpp Require Import base option list gmap strings.
Import ListNotations.
Local Open Scope string_scope.
Local Open Scope list_scope.

Set Implicit Arguments.
Unset Strict Implicit.

(** ** Python results *)

Inductive exn : Type :=
| AssertionError (msg : string)
| AttributeError
| IndexError
| ValueError (msg : string)
| TypeError
| NameError
| RecursionError
| PyException (msg : string).

Inductive result (A : Type) : Type :=
| Ok (a : A)
| Raise (e : exn).
Arguments Ok {A} a.
Arguments Raise {A} e.

Definition rbind {A B} (r : result A) (k : A -> result B) : result B :=
  match r with Ok a => k a | Raise e => Raise e end.

Notation "'let?' x ':=' r 'in' k" := (rbind r (fun x => k))
  (at level 10, x pattern, r at level 100, k at level 200).

(** What a Python function hands back where the source mixes [None] and
    booleans ([Node.setValue], [DataType.save]). *)
Inductive pyval : Type :=
| PyNone
| PyBool (b : bool).

Definition truthy (v : pyval) : bool :=
  match v with PyNone => false | PyBool b => b end.

(** ** Strings, the Python way *)

Definition eqs (a b : string) : bool := if string_dec a b then true else false.

Lemma eqs_true a b : eqs a b = true <-> a = b.
Proof. unfold eqs. destruct (string_dec a b); split; congruence. Qed.

Lemma eqs_false a b : eqs a b = false <-> a <> b.
Proof. unfold eqs. destruct (string_dec a b); split; congruence. Qed.

Lemma eqs_refl a : eqs a a = true.
Proof. now apply eqs_true. Qed.

Lemma eqs_sym a b : eqs a b = eqs b a.
Proof. unfold eqs. destruct (string_dec a b), (string_dec b a); congruence. Qed.

Definition eqc (a b : ascii) : bool := if ascii_dec a b then true else false.

(** [s.split(sep)] for a one-character separator: never the empty list. *)
Fixpoint split (sep : ascii) (s : string) : list string :=
  match s with
  | EmptyString => [EmptyString]
  | String c rest =>
      if eqc c sep then EmptyString :: split sep rest
      else match split sep rest with
           | [] => [String c EmptyString]
           | w :: ws => String c w :: ws
           end
  end.

(** [sep.join(l)] *)
Fixpoint join (sep : string) (l : list string) : string :=
  match l with
  | [] => EmptyString
  | [a] => a
  | a :: rest => a ++ sep ++ join sep rest
  end.

Fixpoint contains (c : ascii) (s : string) : bool :=
  match s with
  | EmptyString => false
  | String d rest => eqc d c || contains c rest
  end.

Fixpoint lastchar (s : string) : option ascii :=
  match s with
  | EmptyString => None
  | String c EmptyString => Some c
  | String _ rest => lastchar rest
  end.

Definition firstchar (s : string) : option ascii :=
  match s with EmptyString => None | String c _ => Some c end.

Definition endswith (s : string) (c : ascii) : bool :=
  match lastchar s with Some d => eqc d c | None => false end.

Definition startswith (s : string) (c : ascii) : bool :=
  match firstchar s with Some d => eqc d c | None => false end.

(** [s.rfind(c)], for a character the caller knows to occur. *)
Fixpoint rfind (c : ascii) (s : string) : option nat :=
  match s with
  | EmptyString => None
  | String d rest =>
      match rfind c rest with
      | Some i => Some (S i)
      | None => if eqc d c then Some 0 else None
      end
  end.

(** [s[a:b]] for [0 <= a] and [0 <= b]. *)
Definition slice (a b : nat) (s : string) : string := substring a (b - a) s.

Definition is_digit (c : ascii) : bool :=
  let n := nat_of_ascii c in Nat.leb 48 n && Nat.leb n 57.

Fixpoint all_digits (s : string) : bool :=
  match s with
  | EmptyString => true
  | String c rest => is_digit c && all_digits rest
  end.

(** [s.isdigit()] on ASCII text. *)
Definition isdigit (s : string) : bool :=
  match s with EmptyString => false | _ => all_digits s end.

Fixpoint digits_value (acc : nat) (s : string) : nat :=
  match s with
  | EmptyString => acc
  | String c rest => digits_value (10 * acc + (nat_of_ascii c - 48)) rest
  end.

(** Python's white space among the ASCII characters: tab to carriage
    return, the four separators and the space. *)
Definition is_space (c : ascii) : bool :=
  let n := nat_of_ascii c in
  (Nat.leb 9 n && Nat.leb n 13) || (Nat.leb 28 n && Nat.leb n 32).

Fixpoint lstrip (s : string) : string :=
  match s with
  | EmptyString => EmptyString
  | String c rest => if is_space c then lstrip rest else s
  end.

Fixpoint rstrip (s : string) : string :=
  match s with
  | EmptyString => EmptyString
  | String c rest =>
      match rstrip rest with
      | EmptyString => if is_space c then EmptyString else String c EmptyString
      | r => String c r
      end
  end.

(** The digits of a decimal literal, with single underscores between
    digits; [after] tells whether the character before was a digit. *)
Fixpoint literal_value (acc : nat) (after : bool) (s : string) : option nat :=
  match s with
  | EmptyString => if after then Some acc else None
  | String c rest =>
      if is_digit c then literal_value (10 * acc + (nat_of_ascii c - 48)) true rest
      else if eqc c "_" && after then literal_value acc false rest
      else None
  end.

(** [int(s)] of Python 3 on ASCII text: white space around the literal is
    dropped, a sign may come first, and the digits may be grouped by single
    underscores; anything else is a [ValueError]. *)
Definition py_int (s : string) : result Z :=
  let s := rstrip (lstrip s) in
  let '(negative, digits) :=
    match s with
    | String "-" rest => (true, rest)
    | String "+" rest => (false, rest)
    | _ => (false, s)
    end in
  match literal_value 0 false digits with
  | Some n => Ok (if negative then Z.opp (Z.of_nat n) else Z.of_nat n)
  | None => Raise (ValueError "invalid literal for int() with base 10")
  end.

(** ['%i' % n] *)
Definition str_of_Z (n : Z) : string := NilZero.string_of_int (Z.to_int n).
Definition str_of_nat (n : nat) : string := str_of_Z (Z.of_nat n).

(** The double quote of the messages. *)
Definition dq : string := String (ascii_of_nat 34) "".

(** [repr(s)] of Python 3 on ASCII text: single quotes, unless the text has
    one and no double quote; the quote in use and the backslash are escaped,
    and so are the characters that do not print. *)
Definition hex_digit (n : nat) : ascii :=
  ascii_of_nat (if Nat.ltb n 10 then 48 + n else 87 + n).

Definition backslash : ascii := ascii_of_nat 92.

Fixpoint repr_chars (quote : ascii) (s : string) : string :=
  match s with
  | EmptyString => EmptyString
  | String c rest =>
      let n := nat_of_ascii c in
      (if eqc c quote || eqc c backslash then String backslash (String c "")
       else if Nat.eqb n 9 then String backslash "t"
       else if Nat.eqb n 10 then String backslash "n"
       else if Nat.eqb n 13 then String backslash "r"
       else if Nat.ltb n 32 || Nat.eqb n 127 then
         String backslash
           (String "x" (String (hex_digit (n / 16)) (String (hex_digit (n mod 16)) "")))
       else String c "")
      ++ repr_chars quote rest
  end.

Definition py_repr (s : string) : string :=
  let quote := if contains "'" s && negb (contains (ascii_of_nat 34) s)
               then ascii_of_nat 34 else "'"%char in
  String quote (repr_chars quote s ++ String quote "").

(** [str(t)] for a tuple of strings: the one-element tuple keeps its
    comma. *)
Definition str_of_tuple (t : list string) : string :=
  match t with
  | [a] => "(" ++ py_repr a ++ ",)"
  | _ => "(" ++ join ", " (map py_repr t) ++ ")"
  end.

(** ** The schema DOM

    A schema element as [xml.dom.minidom] presents it.  [childNodes] lists
    element children only: every loop of the source skips the other node
    kinds with [nodeType==ELEMENT_NODE]. *)

#[local] Unset Elimination Schemes.
Inductive Xml : Type :=
| Element (localName : string) (attributes : list (string * string))
          (childNodes : list Xml).
#[local] Set Elimination Schemes.

(** Induction over a schema element with the property known of every
    child. *)
Section XmlInduction.
Variable P : Xml -> Prop.
Hypothesis step : forall n a chs, Forall P chs -> P (Element n a chs).

Fixpoint Xml_ind (x : Xml) : P x :=
  match x with
  | Element n a chs =>
      step n a
        ((fix all (l : list Xml) : Forall P l :=
            match l with
            | [] => @List.Forall_nil Xml P
            | c :: rest => @List.Forall_cons Xml P c rest (Xml_ind c) (all rest)
            end) chs)
  end.
End XmlInduction.

Definition localName (x : Xml) : string := let 'Element n _ _ := x in n.
Definition attributes (x : Xml) : list (string * string) := let 'Element _ a _ := x in a.
Definition childNodes (x : Xml) : list Xml := let 'Element _ _ c := x in c.

Fixpoint assoc {A} (k : string) (l : list (string * A)) : option A :=
  match l with
  | [] => None
  | (k', v) :: rest => if eqs k' k then Some v else assoc k rest
  end.

Definition hasAttribute (x : Xml) (name : string) : bool :=
  match assoc name (attributes x) with Some _ => true | None => false end.

(** [getAttribute] answers the empty string for a missing attribute. *)
Definition getAttribute (x : Xml) (name : string) : string :=
  match assoc name (attributes x) with Some v => v | None => "" end.

Definition isElementNamed (tag : string) (x : Xml) : bool := eqs (localName x) tag.

(** ** The value DOM

    The value document is mutable and nodes of the store keep references
    into it, so it is an arena: an element is named by its index, creating
    an element appends to the arena, and removing a child unlinks it. *)

Abbreviation DomId := nat.

Inductive NodeType : Type := ELEMENT_NODE | DOCUMENT_NODE.

Record DomElement : Type := mkDomElement {
  nodeType : NodeType;
  tagName : string;
  domAttributes : list (string * string);
  domText : string;
  domChildren : list DomId;
  parentNode : option DomId
}.

Abbreviation Dom := (list DomElement).

Definition dom_getAttribute (d : Dom) (i : DomId) (name : string) : string :=
  match d !! i with
  | Some e => match assoc name (domAttributes e) with Some v => v | None => "" end
  | None => ""
  end.

Definition dom_childNodes (d : Dom) (i : DomId) : list DomId :=
  match d !! i with Some e => domChildren e | None => [] end.

Definition dom_localName (d : Dom) (i : DomId) : string :=
  match d !! i with Some e => tagName e | None => "" end.

(** [doc.createElementNS(ns, name)]: a fresh, unattached element. *)
Definition createElementNS (d : Dom) (name : string) : Dom * DomId :=
  (d ++ [mkDomElement ELEMENT_NODE name [] "" [] None], length d).

Definition dom_update (d : Dom) (i : DomId) (f : DomElement -> DomElement) : Dom :=
  match d !! i with Some e => <[i := f e]> d | None => d end.

(** [parent.appendChild(child)] for a child not yet attached. *)
Definition appendChild (d : Dom) (parent child : DomId) : Dom :=
  let d1 := dom_update d parent
              (fun e => mkDomElement (nodeType e) (tagName e) (domAttributes e) (domText e)
                                     (domChildren e ++ [child]) (parentNode e)) in
  dom_update d1 child
    (fun e => mkDomElement (nodeType e) (tagName e) (domAttributes e) (domText e)
                           (domChildren e) (Some parent)).

Fixpoint remove_first (x : DomId) (l : list DomId) : list DomId :=
  match l with
  | [] => []
  | y :: rest => if Nat.eqb x y then rest else y :: remove_first x rest
  end.

Definition memb (x : nat) (l : list nat) : bool := existsb (Nat.eqb x) l.

(** [parent.removeChild(child)]; minidom raises [NotFoundErr] for a node that
    is not a child. *)
Definition removeChild (d : Dom) (parent child : DomId) : result Dom :=
  if memb child (dom_childNodes d parent) then
    let d1 := dom_update d parent
                (fun e => mkDomElement (nodeType e) (tagName e) (domAttributes e) (domText e)
                                       (remove_first child (domChildren e)) (parentNode e)) in
    Ok (dom_update d1 child
          (fun e => mkDomElement (nodeType e) (tagName e) (domAttributes e) (domText e)
                                 (domChildren e) None))
  else Raise (PyException "NotFoundErr").

(** The document a value element belongs to: the top of its [parentNode]
    chain.  A chain longer than the arena would revisit an element, which no
    DOM does. *)
Fixpoint dom_top (d : Dom) (fuel : nat) (i : DomId) : option DomId :=
  match d !! i with
  | None => None
  | Some e =>
      match parentNode e with
      | None => Some i
      | Some up => match fuel with 0 => None | S fuel => dom_top d fuel up end
      end
  end.

Definition isDocument (d : Dom) (i : DomId) : bool :=
  match d !! i with
  | Some e => match nodeType e with DOCUMENT_NODE => true | ELEMENT_NODE => false end
  | None => false
  end.

(** ** Node

    The tree of [Node] objects.  A node is referred to by the list of child
    indices that leads to it from the root ([NodeRef]); [node.parent] is the
    reference without its last index.  [futureindex], which only [addChild]
    and [getOwnIndex] use, is left out. *)

Inductive Controller : Type := OwningStore.

#[local] Unset Elimination Schemes.
Inductive Node : Type := mkNode {
  controller : option Controller;
  templatenode : Xml;
  valueroot : option DomId;
  valuenode : option DomId;
  location : list string;
  children : list Node;
  visible : bool;
  grouponly : list string
}.
#[local] Set Elimination Schemes.

(** Induction over a node with the property known of every child. *)
Section NodeInduction.
Variable P : Node -> Prop.
Hypothesis step : forall n, Forall P (children n) -> P n.

Fixpoint Node_ind (n : Node) : P n :=
  step
    (match n return Forall P (children n) with
     | mkNode _ _ _ _ _ chs _ _ =>
         (fix all (l : list Node) : Forall P l :=
            match l with
            | [] => @List.Forall_nil Node P
            | c :: rest => @List.Forall_cons Node P c rest (Node_ind c) (all rest)
            end) chs
     end).
End NodeInduction.

Abbreviation NodeRef := (list nat).

Fixpoint node_at (t : Node) (p : NodeRef) : option Node :=
  match p with
  | [] => Some t
  | i :: rest =>
      match children t !! i with
      | Some c => node_at c rest
      | None => None
      end
  end.

(** [node.parent]: [None] at the root. *)
Definition parent_ref (p : NodeRef) : option NodeRef :=
  match p with [] => None | _ => Some (removelast p) end.

Definition isValid (n : Node) : bool :=
  match controller n with Some _ => true | None => false end.

(** [getId()], which is [location[-1]]: an [IndexError] on the empty tuple,
    the location of the root. *)
Definition getId (n : Node) : result string :=
  match location n with
  | [] => Raise IndexError
  | _ :: _ => Ok (List.last (location n) "")
  end.

Definition canHaveValue (n : Node) : bool := hasAttribute (templatenode n) "type".

Definition canHaveChildren (n : Node) : bool :=
  match children n with
  | _ :: _ => true
  | [] => existsb (isElementNamed "element") (childNodes (templatenode n))
  end.

Definition canHaveClones (n : Node) : bool :=
  let m := getAttribute (templatenode n) "maxOccurs" in
  negb (eqs m "" || eqs m "1").

Definition isReadOnly (n : Node) : bool := hasAttribute (templatenode n) "readonly".

(** [isHidden]: the node or one of its ancestors is not visible. *)
Fixpoint isHidden_from (t : Node) (p : NodeRef) : bool :=
  negb (visible t) ||
  match p with
  | [] => false
  | i :: rest =>
      match children t !! i with
      | Some c => isHidden_from c rest
      | None => false
      end
  end.

(** ** The [datatypes] module

    [xmlstore.py] imports the value classes from [datatypes]; what it uses
    of them is gathered here: one operation per call the source makes.
    [context] dictionaries, which only carry session caches to these
    calls, and the reference counts of [util.referencedobject] are left to
    the value classes. *)

Unset Implicit Arguments.
Record datatypes : Type := {
  Value : Type;
  DataType : Type;
  (** [datatypes.get(name)] *)
  dt_get : string -> option DataType;
  (** [cls.load(valuenode, context, templatenode)] *)
  dt_load : DataType -> Dom -> DomId -> Xml -> result (option Value);
  (** [value.save(valuenode, context)] and what it returns *)
  dt_save : Value -> Dom -> DomId -> Dom * pyval;
  (** [a != b], [a == b], [a < b], [a > b] *)
  dt_ne : Value -> Value -> bool;
  dt_eq : Value -> Value -> bool;
  dt_lt : Value -> Value -> bool;
  dt_gt : Value -> Value -> bool;
  (** [isinstance(value, cls)] and [cls(value)] *)
  dt_isinstance : Value -> DataType -> bool;
  dt_construct : DataType -> Value -> result Value;
  (** [value.fromXmlString(text, {}, templatenode)] *)
  dt_fromXmlString : Value -> string -> Xml -> result Value;
  (** [isinstance(value, datatypes.DataTypeSimple)] *)
  dt_isSimple : Value -> bool;
  (** [isinstance(cls, datatypes.DataTypeSimple)], asked of a class *)
  dt_classIsSimple : option DataType -> bool;
  dt_toPrettyString : Value -> string;
  dt_hasExpensiveValidate : Value -> bool;
  (** [value.validate(templatenode, callback)] *)
  dt_validate : Value -> Xml -> bool
}.
Set Implicit Arguments.

(** ** The [util] module

    The two DOM searches [xmlstore.py] takes from [util]. *)

Record util : Type := {
  (** [util.findDescendantNode(root, names)] *)
  findDescendantNode : Xml -> list string -> option Xml;
  (** [util.findDescendantNodes(root, names)] *)
  findDescendantNodes : Xml -> list string -> list Xml
}.

Section Store.

Context (dt : datatypes) (ut : util).

Abbreviation Value := (Value dt).
Abbreviation DataType := (DataType dt).

(** ** TypedStoreInterface *)

(** What a connected event handler is called with.  A handler is code of
    the consumer: it is taken to observe the store, not to change it, and
    its answer matters for [beforeChange] only. *)
Inductive HandlerArgs : Type :=
| VisibilityArgs (nodes : list NodeRef) (shownew showhide : bool)
| BeforeChangeArgs (node : NodeRef) (newvalue : option Value)
| ChangeArgs (node : NodeRef) (feature : string)
| StoreArgs.

Definition Handler := HandlerArgs -> bool.

Record TypedStoreInterface : Type := mkInterface {
  showhidden : bool;
  omitgroupers : bool;
  interfacetype : string;
  blockNotifyOfHiddenNodes : bool;
  processDefaultChange : Z;
  eventhandlers : gmap string Handler;
  upcomingvizchange : option NodeRef
}.

(** [TypedStoreInterface.__init__] *)
Definition TypedStoreInterface_init (showhidden omitgroupers : bool)
    (processDefaultChange : Z) (interfacetype : string) : TypedStoreInterface :=
  mkInterface showhidden omitgroupers interfacetype (negb showhidden)
              processDefaultChange ∅ None.

Definition strmem (s : string) (l : list string) : bool := existsb (eqs s) l.

Definition isGrouper (self : TypedStoreInterface) (node : Node) : bool :=
  omitgroupers self &&
  (strmem "True" (grouponly node) || strmem (interfacetype self) (grouponly node)).

Definition assert_valid (node : Node) : result unit :=
  if isValid node then Ok tt
  else Raise (AssertionError "Supplied node is invalid (has already been destroyed).").

Fixpoint getChildCount (self : TypedStoreInterface) (node : Node) : result nat :=
  let? _ := assert_valid node in
  (fix loop (chs : list Node) (childcount : nat) : result nat :=
     match chs with
     | [] => Ok childcount
     | child :: rest =>
         if visible child || showhidden self then
           if isGrouper self child then
             let? c := getChildCount self child in loop rest (childcount + c)
           else loop rest (childcount + 1)
         else loop rest childcount
     end) (children node) 0.

(** [node] is the subtree found at reference [p]; the children come back as
    references. *)
Fixpoint getChildren (self : TypedStoreInterface) (node : Node) (p : NodeRef)
    : result (list NodeRef) :=
  let? _ := assert_valid node in
  (fix loop (chs : list Node) (i : nat) (res : list NodeRef) : result (list NodeRef) :=
     match chs with
     | [] => Ok res
     | child :: rest =>
         if visible child || showhidden self then
           if isGrouper self child then
             let? sub := getChildren self child (p ++ [i]) in loop rest (S i) (res ++ sub)
           else loop rest (S i) (res ++ [p ++ [i]])
         else loop rest (S i) res
     end) (children node) 0 [].

(** ** Node.__init__ *)

(** The dictionary [valuechildren]: element children of the value root by
    name, in document order. *)
Definition ValueChildren := list (string * list DomId).

Fixpoint setdefault_append (k : string) (v : DomId) (d : ValueChildren) : ValueChildren :=
  match d with
  | [] => [(k, [v])]
  | (k', l) :: rest =>
      if eqs k' k then (k', l ++ [v]) :: rest else (k', l) :: setdefault_append k v rest
  end.

Fixpoint dict_pop {A} (k : string) (d : list (string * A)) : option A * list (string * A) :=
  match d with
  | [] => (None, [])
  | (k', v) :: rest =>
      if eqs k' k then (Some v, rest)
      else let '(r, rest') := dict_pop k rest in (r, (k', v) :: rest')
  end.

Definition build_valuechildren (d : Dom) (valueroot : option DomId) : ValueChildren :=
  match valueroot with
  | None => []
  | Some vr =>
      fold_left (fun acc ch => setdefault_append (dom_localName d ch) ch acc)
                (dom_childNodes d vr) []
  end.

Inductive MaxOccurs : Type :=
| Unbounded
| Bounded (n : Z).

(** Lines 639-646: the two attributes, their defaults and the assertions. *)
Definition read_occurs (templatechild : Xml) : result (Z * MaxOccurs) :=
  let minoccurs := getAttribute templatechild "minOccurs" in
  let maxoccurs := getAttribute templatechild "maxOccurs" in
  let? minoccurs := (if eqs minoccurs "" then Ok 1%Z else py_int minoccurs) in
  let? maxoccurs := (if eqs maxoccurs "" then Ok (Bounded 1)
                     else if eqs maxoccurs "unbounded" then Ok Unbounded
                     else let? m := py_int maxoccurs in Ok (Bounded m)) in
  let max_is_1 := match maxoccurs with Bounded m => Z.eqb m 1 | Unbounded => false end in
  if negb (max_is_1 || Z.eqb minoccurs 0) then
    Raise (AssertionError "for maxOccurs > 1, minOccurs must currently equal 0")
  else if negb (match maxoccurs with Unbounded => true | Bounded m => Z.geb m minoccurs end) then
    Raise (AssertionError "maxOccurs must be greater than or equal to minOccurs")
  else Ok (minoccurs, maxoccurs).

(** The state [Node.__init__] works on: the value document and what has
    been printed. *)
Definition InitState : Type := Dom * list string.

Fixpoint removeChildren_dom (d : Dom) (parent : DomId) (l : list DomId) : result Dom * Dom :=
  match l with
  | [] => (Ok d, d)
  | vch :: rest =>
      match removeChild d parent vch with
      | Ok d' => removeChildren_dom d' parent rest
      | Raise e => (Raise e, d)
      end
  end.

Definition too_many_message (childloc : list string) (n : nat) (maxoccurs : Z) : string :=
  "Node " ++ dq ++ join "," childloc ++ dq ++ ": number of children (" ++ str_of_nat n
  ++ ") is greater than the imposed maximum (" ++ str_of_Z maxoccurs
  ++ "). Redundant child nodes will be deleted.".

(** Lines 647-651: the entries beyond [maxOccurs] are unlinked from the value
    document, then the list is filled up to [minOccurs] with [None].  The list
    itself keeps the unlinked entries. *)
Definition enforce_occurs (valueroot : option DomId) (childloc : list string)
    (curvaluechildren : list DomId) (minoccurs : Z) (maxoccurs : MaxOccurs)
    (st : InitState) : result (list (option DomId)) * InitState :=
  let '(d, out) := st in
  let n := length curvaluechildren in
  let '(r, st1) :=
    match maxoccurs with
    | Bounded m =>
        if Z.ltb m (Z.of_nat n) then
          let out' := out ++ [too_many_message childloc n m] in
          match valueroot with
          | Some vr =>
              let '(r, d') := removeChildren_dom d vr (drop (Z.to_nat m) curvaluechildren) in
              (rbind r (fun _ => Ok tt), (d', out'))
          | None => (Raise AttributeError, (d, out'))
          end
        else (Ok tt, st)
    | Unbounded => (Ok tt, st)
    end in
  match r with
  | Raise e => (Raise e, st1)
  | Ok _ =>
      (Ok (map Some curvaluechildren ++ replicate (Z.to_nat minoccurs - n) None), st1)
  end.

Definition split_semicolon (s : string) : list string := split ";" s.

(** [TypedStore.getDataType] *)
Definition getDataType (customdatatypes : list (string * DataType)) (name : string)
    : result DataType :=
  match assoc name customdatatypes with
  | Some c => Ok c
  | None =>
      match dt_get dt name with
      | Some c => Ok c
      | None => Raise (AssertionError "Unknown data type requested.")
      end
  end.

(** [getValueType(returnclass=True)] on a schema element *)
Definition valueTypeClass (customdatatypes : list (string * DataType)) (templatenode : Xml)
    : result (option DataType) :=
  let valuetype := getAttribute templatenode "type" in
  if eqs valuetype "" then Ok None
  else let? c := getDataType customdatatypes valuetype in Ok (Some c).

Definition unexpected_message (childid : string) (location : list string) : string :=
  "WARNING! Value " ++ dq ++ childid ++ dq ++ " below " ++ dq ++ str_of_tuple location
  ++ dq ++ " was unexpected and will be ignored.".

(** Lines 665-671: value entries the schema does not know. *)
Fixpoint drop_unexpected (cls : option DataType) (valueroot : option DomId)
    (location : list string) (items : ValueChildren) (st : InitState)
    : result unit * InitState :=
  match items with
  | [] => (Ok tt, st)
  | (childid, childnodes) :: rest =>
      if negb (dt_classIsSimple dt cls) then (Ok tt, st)
      else
        let '(d, out) := st in
        let out' := out ++ [unexpected_message childid location] in
        match valueroot with
        | None => (Raise AttributeError, (d, out'))
        | Some vr =>
            match removeChildren_dom d vr childnodes with
            | (Ok _, d') => drop_unexpected cls valueroot location rest (d', out')
            | (Raise e, d') => (Raise e, (d', out'))
            end
        end
  end.

(** Lines 654-655: one node per entry of the list. *)
Fixpoint createChildren (create : option DomId -> InitState -> result Node * InitState)
    (curvaluechildren : list (option DomId)) (children : list Node) (st : InitState)
    : result (list Node) * InitState :=
  match curvaluechildren with
  | [] => (Ok children, st)
  | valuechild :: rest =>
      match create valuechild st with
      | (Ok child, st) => createChildren create rest (children ++ [child]) st
      | (Raise e, st) => (Raise e, st)
      end
  end.

(** Lines 629-655: the loop over the children of the schema element;
    [create] is the constructor of [Node]. *)
Fixpoint eachTemplateChild
    (create : Xml -> option DomId -> list string -> InitState -> result Node * InitState)
    (valueroot : option DomId) (location : list string) (templatechildren : list Xml)
    (valuechildren : ValueChildren) (canhavechildren : bool) (children : list Node)
    (st : InitState) : result (ValueChildren * bool * list Node) * InitState :=
  match templatechildren with
  | [] => (Ok (valuechildren, canhavechildren, children), st)
  | templatechild :: rest =>
      if isElementNamed "element" templatechild then
        let childid := getAttribute templatechild "name" in
        let childloc := location ++ [childid] in
        let '(popped, valuechildren) := dict_pop childid valuechildren in
        let curvaluechildren := default [] popped in
        match read_occurs templatechild with
        | Raise e => (Raise e, st)
        | Ok (minoccurs, maxoccurs) =>
            match enforce_occurs valueroot childloc curvaluechildren
                                 minoccurs maxoccurs st with
            | (Raise e, st) => (Raise e, st)
            | (Ok curvaluechildren, st) =>
                match createChildren (fun valuechild => create templatechild valuechild childloc)
                                     curvaluechildren children st with
                | (Raise e, st) => (Raise e, st)
                | (Ok children, st) =>
                    eachTemplateChild create valueroot location rest valuechildren
                                      true children st
                end
            end
        end
      else eachTemplateChild create valueroot location rest valuechildren
                             canhavechildren children st
  end.

Fixpoint Node_init (customdatatypes : list (string * DataType)) (templatenode : Xml)
    (valuenode : option DomId) (location : list string) (st : InitState)
    {struct templatenode} : result Node * InitState :=
  if negb (hasAttribute templatenode "name") then
    (Raise (AssertionError ("Schema node lacks " ++ dq ++ "name" ++ dq ++ " attribute.")), st)
  else
  let valueroot := valuenode in
  let visible := negb (eqs (getAttribute templatenode "hidden") "True") in
  let grouponly := split_semicolon (getAttribute templatenode "grouponly") in
  let valuechildren := build_valuechildren (fst st) valueroot in
  let '(r, st) :=
    eachTemplateChild (Node_init customdatatypes) valueroot location
                      (childNodes templatenode) valuechildren false [] st in
  match r with
  | Raise e => (Raise e, st)
  | Ok (valuechildren, canhavechildren, children) =>
      let r :=
        if canhavechildren && hasAttribute templatenode "type" then
          match location with
          | [] => Raise IndexError
          | _ =>
              let '(popped, valuechildren) := dict_pop (List.last location "") valuechildren in
              match popped with
              | None => Ok (None, valuechildren)
              | Some [] => Raise IndexError
              | Some [v] => Ok (Some v, valuechildren)
              | Some _ => Raise (AssertionError "Value node can at most occur 1 time.")
              end
          end
        else Ok (valuenode, valuechildren) in
      match r with
      | Raise e => (Raise e, st)
      | Ok (valuenode, valuechildren) =>
          let r :=
            match valuechildren with
            | [] => (Ok tt, st)
            | _ =>
                match valueTypeClass customdatatypes templatenode with
                | Raise e => (Raise e, st)
                | Ok cls => drop_unexpected cls valueroot location valuechildren st
                end
            end in
          match r with
          | (Raise e, st) => (Raise e, st)
          | (Ok _, st) =>
              (Ok (mkNode (Some OwningStore) templatenode valueroot valuenode location
                          children visible grouponly), st)
          end
      end
  end.

(** ** Paths: [Node.__getitem__] and [Node.getLocation] *)

Definition getSecondaryId (d : Dom) (n : Node) : result string :=
  match valueroot n with
  | None => Raise (AssertionError
              "The value node has not been set; this node cannot be optional.")
  | Some vr => Ok (dom_getAttribute d vr "id")
  end.

(** What stands between the square brackets of a path component. *)
Inductive SecId : Type :=
| SecInt (n : nat)
| SecStr (s : string).

(** Lines 1134-1142. *)
Definition parse_component (childname : string) : string * option SecId :=
  if endswith childname "]" && contains "[" childname then
    match rfind "[" childname with
    | Some istart =>
        let secid := slice (istart + 1) (String.length childname - 1) childname in
        let childname := slice 0 istart childname in
        let secid :=
          if startswith secid "'" && endswith secid "'" then
            SecStr (slice 1 (String.length secid - 1) secid)
          else if isdigit secid then SecInt (digits_value 0 secid)
          else SecStr secid in
        (childname, Some secid)
    | None => (childname, None)
    end
  else (childname, None).

(** Lines 1150-1156: the index of the child that matches, if any. *)
Fixpoint find_child (d : Dom) (chs : list Node) (childname : string)
    (secid : option SecId) (i ich : nat) : result (option nat) :=
  match chs with
  | [] => Ok None
  | chnode :: rest =>
      let? name := getId chnode in
      if eqs name childname then
        let? hit :=
          match secid with
          | None => Ok true
          | Some (SecInt n) => Ok (Nat.eqb n ich)
          | Some (SecStr s) => let? id := getSecondaryId d chnode in Ok (eqs s id)
          end in
        if hit then Ok (Some i) else find_child d rest childname secid (S i) (S ich)
      else find_child d rest childname secid (S i) ich
  end.

(** [getLocation(location)] with [createoptional=False], as [__getitem__]
    calls it.  [self] is the node the method is called on, [node] the loop
    variable, which is [None] once the walk has left the tree through the
    root. *)
Fixpoint getLocation_loop (root : Node) (d : Dom) (self : NodeRef)
    (node : option NodeRef) (location : list string) : result (option NodeRef) :=
  match location with
  | [] => Ok node
  | childname :: rest =>
      let '(childname, secid) := parse_component childname in
      if eqs childname ".." then
        match parent_ref self with
        | None => Raise (AssertionError
                    "Cannot go up one level because we are at the root.")
        | Some _ =>
            match node with
            | None => Raise AttributeError
            | Some p => getLocation_loop root d self (parent_ref p) rest
            end
        end
      else if negb (eqs childname "") && negb (eqs childname ".") then
        match node with
        | None => Raise AttributeError
        | Some p =>
            match node_at root p with
            | None => Raise AttributeError
            | Some nd =>
                match find_child d (children nd) childname secid 0 0 with
                | Raise e => Raise e
                | Ok (Some i) => getLocation_loop root d self (Some (p ++ [i])) rest
                | Ok None => Ok None
                end
            end
        end
      else getLocation_loop root d self node rest
  end.

Definition getLocation (root : Node) (d : Dom) (self : NodeRef) (location : list string)
    : result (option NodeRef) :=
  getLocation_loop root d self (Some self) location.

(** [node[path]] *)
Definition Node_getitem (root : Node) (d : Dom) (self : NodeRef) (path : string)
    : result (option NodeRef) :=
  getLocation root d self (split "/" path).

(** [getLocationMultiple]: the leading empty terms are dropped one at a
    time, then every child of the first name is searched for the rest. *)
Fixpoint getLocationMultiple (node : Node) (p : NodeRef) (location : list string)
    : result (list NodeRef) :=
  match location with
  | [] => Ok [p]
  | target :: path =>
      if eqs target "" then getLocationMultiple node p path
      else
        (fix each_child (chs : list Node) (i : nat) (res : list NodeRef)
             : result (list NodeRef) :=
           match chs with
           | [] => Ok res
           | child :: rest =>
               let? name := getId child in
               if eqs name target then
                 let? found := getLocationMultiple child (p ++ [i]) path in
                 each_child rest (S i) (res ++ found)
               else each_child rest (S i) res
           end) (children node) 0 []
  end.

(** [getChildByNumber(childname, index)] with [create=False] *)
Fixpoint getChildByNumber_loop (chs : list Node) (childname : string)
    (index i curindex : nat) : result (option nat) :=
  match chs with
  | [] => Ok None
  | child :: rest =>
      let? name := getId child in
      if eqs name childname then
        if Nat.eqb curindex index then Ok (Some i)
        else getChildByNumber_loop rest childname index (S i) (S curindex)
      else getChildByNumber_loop rest childname index (S i) curindex
  end.

Definition getChildByNumber (node : Node) (p : NodeRef) (childname : string) (index : nat)
    : result (option NodeRef) :=
  let? r := getChildByNumber_loop (children node) childname index 0 0 in
  match r with
  | Some i => Ok (Some (p ++ [i]))
  | None => Ok None
  end.

(** [getChildById(childname, id)] with [create=False] *)
Fixpoint getChildById_loop (d : Dom) (chs : list Node) (childname id : string) (i : nat)
    : result (option nat) :=
  match chs with
  | [] => Ok None
  | child :: rest =>
      let? name := getId child in
      if eqs name childname then
        let? sid := getSecondaryId d child in
        if eqs sid id then Ok (Some i)
        else getChildById_loop d rest childname id (S i)
      else getChildById_loop d rest childname id (S i)
  end.

Definition getChildById (d : Dom) (node : Node) (p : NodeRef) (childname id : string)
    : result (option NodeRef) :=
  let? r := getChildById_loop d (children node) childname id 0 in
  Ok (match r with Some i => Some (p ++ [i]) | None => None end).

(** ** TypedStore

    The fields the modelled methods read or write.  [trace] is not a field
    of the source: it records, in order, every call made to a connected
    event handler and every line printed. *)

Inductive LogEntry : Type :=
| Called (interface : nat) (event : string) (args : HandlerArgs)
| Printed (msg : string).

#[local] Unset Elimination Schemes.
Inductive TypedStore : Type := mkTypedStore {
  schema : Xml;
  customdatatypes : list (string * DataType);
  interfaces : list TypedStoreInterface;
  blockedinterfaces : list nat;
  otherstores : list (string * TypedStore);
  defaultstore : option TypedStore;
  root : Node;
  xmldocument : Dom;
  changed : bool;
  validnodes : list NodeRef;
  trace : list LogEntry
}.
#[local] Set Elimination Schemes.

Definition with_root (st : TypedStore) (r : Node) : TypedStore :=
  mkTypedStore (schema st) (customdatatypes st) (interfaces st) (blockedinterfaces st)
    (otherstores st) (defaultstore st) r (xmldocument st) (changed st)
    (validnodes st) (trace st).

Definition with_xmldocument (st : TypedStore) (d : Dom) : TypedStore :=
  mkTypedStore (schema st) (customdatatypes st) (interfaces st) (blockedinterfaces st)
    (otherstores st) (defaultstore st) (root st) d (changed st)
    (validnodes st) (trace st).

Definition with_interfaces (st : TypedStore) (l : list TypedStoreInterface) : TypedStore :=
  mkTypedStore (schema st) (customdatatypes st) l (blockedinterfaces st)
    (otherstores st) (defaultstore st) (root st) (xmldocument st) (changed st)
    (validnodes st) (trace st).

Definition with_changed (st : TypedStore) (b : bool) : TypedStore :=
  mkTypedStore (schema st) (customdatatypes st) (interfaces st) (blockedinterfaces st)
    (otherstores st) (defaultstore st) (root st) (xmldocument st) b
    (validnodes st) (trace st).

Definition with_validnodes (st : TypedStore) (v : list NodeRef) : TypedStore :=
  mkTypedStore (schema st) (customdatatypes st) (interfaces st) (blockedinterfaces st)
    (otherstores st) (defaultstore st) (root st) (xmldocument st) (changed st)
    v (trace st).

Definition with_trace (st : TypedStore) (t : list LogEntry) : TypedStore :=
  mkTypedStore (schema st) (customdatatypes st) (interfaces st) (blockedinterfaces st)
    (otherstores st) (defaultstore st) (root st) (xmldocument st) (changed st)
    (validnodes st) t.

(** [getValueType(returnclass=True)] *)
Definition getValueTypeClass (st : TypedStore) (n : Node) : result (option DataType) :=
  valueTypeClass (customdatatypes st) (templatenode n).

(** The node found at a reference; a reference that leads nowhere stands
    for [None], and using it is an [AttributeError]. *)
Definition deref (st : TypedStore) (p : NodeRef) : result Node :=
  match node_at (root st) p with
  | Some n => Ok n
  | None => Raise AttributeError
  end.

Definition isHidden (st : TypedStore) (p : NodeRef) : bool := isHidden_from (root st) p.

(** [TypedStore.mapForeignNode], first loop: from the foreign node up to its
    root, one index per name of its location. *)
Fixpoint mapForeignNode_up (foreign : TypedStore) (names : list string)
    (currentnode : option NodeRef) (indices : list SecId)
    : result (list SecId * option NodeRef) :=
  match names with
  | [] => Ok (indices, currentnode)
  | name :: rest =>
      match currentnode with
      | None => Raise AttributeError
      | Some p =>
          let? nd := deref foreign p in
          let? index :=
            (if negb (canHaveClones nd) then Ok (SecInt 0)
             else
               let? index := getSecondaryId (xmldocument foreign) nd in
               if eqs index "" then
                 match parent_ref p with
                 | None => Raise AttributeError
                 | Some pp =>
                     let? par := deref foreign pp in
                     let? siblings := getLocationMultiple par pp [name] in
                     match list_find (fun sib => bool_decide (sib = p)) siblings with
                     | Some (i, _) => Ok (SecInt i)
                     | None => Raise (AssertionError
                                 "Cannot find foreign node in list of its own siblings.")
                     end
                 end
               else Ok (SecStr index)) in
          mapForeignNode_up foreign rest (parent_ref p) (index :: indices)
      end
  end.

(** Second loop: down from the own root along the names and indices. *)
Fixpoint mapForeignNode_down (self : TypedStore) (steps : list (string * SecId))
    (currentnode : NodeRef) : result (option NodeRef) :=
  match steps with
  | [] => Ok (Some currentnode)
  | (name, index) :: rest =>
      let? nd := deref self currentnode in
      let? next :=
        match index with
        | SecInt i => getChildByNumber nd currentnode name i
        | SecStr id => getChildById (xmldocument self) nd currentnode name id
        end in
      match next with
      | None => Ok None
      | Some c => mapForeignNode_down self rest c
      end
  end.

Definition mapForeignNode (self foreign : TypedStore) (foreignnode : NodeRef)
    : result (option NodeRef) :=
  let? fnd := deref foreign foreignnode in
  let? (indices, top) := mapForeignNode_up foreign (rev (location fnd))
                                            (Some foreignnode) [] in
  match top with
  | None => Raise AttributeError
  | Some top =>
      match parent_ref top with
      | Some _ => Raise (AssertionError "Location does not describe complete path to root.")
      | None => mapForeignNode_down self (zip (location fnd) indices) []
      end
  end.

(** [Node.getValue] together with [Node.getDefaultValue]: the default is
    looked up in the default store, which may have a default store of its
    own. *)
Fixpoint getValue (st : TypedStore) (p : NodeRef) (usedefault : bool) {struct st}
    : result (option Value) :=
  let? n := deref st p in
  let? value :=
    match valuenode n with
    | None => Ok None
    | Some vn =>
        let? valuetype := getValueTypeClass st n in
        match valuetype with
        | None => Raise AttributeError
        | Some cls =>
            match dt_load dt cls (xmldocument st) vn (templatenode n) with
            | Ok v => Ok v
            | Raise (ValueError e) => Raise (ValueError (join "/" (location n) ++ ": " ++ e))
            | Raise e => Raise e
            end
        end
    end in
  match value with
  | Some v => Ok (Some v)
  | None =>
      if usedefault then
        match st with
        | mkTypedStore _ _ _ _ _ None _ _ _ _ _ => Ok None
        | mkTypedStore _ _ _ _ _ (Some defaults) _ _ _ _ _ =>
            let? defaultnode := mapForeignNode defaults st p in
            match defaultnode with
            | None => Ok None
            | Some dn => getValue defaults dn true
            end
        end
      else Ok None
  end.

(** ** Conditions *)

(** Lines 1916-1920: the node a condition refers to, resolved by the store
    [self] for a node [ownernode] of the store [owner], and the store it
    lives in.  A relative path starts at the owner's parent and stays in the
    owner's tree; an absolute one starts at the root of [self]. *)
Definition conditionTarget (self : TypedStore) (nodeCondition : Xml)
    (owner : TypedStore) (ownernode : NodeRef) : result (TypedStore * NodeRef) :=
  let valuepath := getAttribute nodeCondition "variable" in
  match firstchar valuepath with
  | None => Raise IndexError
  | Some c =>
      let? (home, refnode) :=
        (if negb (eqc c "/") then
           match parent_ref ownernode with
           | Some par => Ok (owner, par)
           | None => Raise TypeError
           end
         else Ok (self, [])) in
      let? node := Node_getitem (root home) (xmldocument home) refnode valuepath in
      match node with
      | None => Raise (AssertionError "Cannot locate dependency for node.")
      | Some node => Ok (home, node)
      end
  end.

Definition condition_lacks (attr : string) : string :=
  "condition lacks " ++ dq ++ attr ++ dq ++ " attribute in XML schema file.".

(** Lines 1911-1941: an [eq] or [ne] condition. *)
Definition checkComparison (self : TypedStore) (nodeCondition : Xml) (condtype : string)
    (owner : TypedStore) (ownernode : NodeRef) : result bool :=
  if negb (hasAttribute nodeCondition "variable") then
    Raise (AssertionError (condition_lacks "variable"))
  else if negb (hasAttribute nodeCondition "value") then
    Raise (AssertionError (condition_lacks "value"))
  else
    let? (home, node) := conditionTarget self nodeCondition owner ownernode in
    let? curvalue := getValue home node true in
    match curvalue with
    | None => Ok true
    | Some curvalue =>
        if negb (dt_isSimple dt curvalue) then
          Raise (AssertionError
            "Data type of target node of condition must be DataTypeSimple.")
        else
          let? target := deref home node in
          let? refvalue := dt_fromXmlString dt curvalue
                             (getAttribute nodeCondition "value")
                             (templatenode target) in
          if eqs condtype "eq" then Ok (dt_eq dt curvalue refvalue)
          else Ok (dt_ne dt curvalue refvalue)
    end.

(** The store that evaluates a condition: the store asked, or the one its
    [source] attribute names; [None] when that name is not registered, in
    which case the condition holds. *)
Definition conditionStore (self : TypedStore) (nodeCondition : Xml)
    (ownstorename : option string) : option TypedStore :=
  let src := getAttribute nodeCondition "source" in
  if negb (eqs src "") && negb (bool_decide (ownstorename = Some src)) then
    assoc src (otherstores self)
  else Some self.

Fixpoint checkCondition (self : TypedStore) (nodeCondition : Xml) (owner : TypedStore)
    (ownernode : NodeRef) (ownstorename : option string) {struct nodeCondition}
    : result bool :=
  if negb (hasAttribute nodeCondition "type") then
    Raise (AssertionError (condition_lacks "type"))
  else
    match conditionStore self nodeCondition ownstorename with
    | None => Ok true
    | Some self =>
        let condtype := getAttribute nodeCondition "type" in
        if eqs condtype "eq" || eqs condtype "ne" then
          checkComparison self nodeCondition condtype owner ownernode
        else if eqs condtype "and" || eqs condtype "or" then
          (fix each_child (chs : list Xml) : result bool :=
             match chs with
             | [] => Ok (eqs condtype "and")
             | ch :: rest =>
                 if isElementNamed "condition" ch then
                   let? met := checkCondition self ch owner ownernode None in
                   if met then (if eqs condtype "or" then Ok true else each_child rest)
                   else (if eqs condtype "and" then Ok false else each_child rest)
                 else each_child rest
             end) (childNodes nodeCondition)
        else Raise (PyException "unknown condition type in XML schema file.")
    end.

(** ** The store monad

    A method that changes the store maps the store before the call to the
    outcome and the store after it; what was changed before an exception
    stays changed. *)

Definition M (A : Type) : Type := TypedStore -> result A * TypedStore.

Definition ret {A} (a : A) : M A := fun st => (Ok a, st).
Definition raise {A} (e : exn) : M A := fun st => (Raise e, st).
Definition bind {A B} (m : M A) (k : A -> M B) : M B :=
  fun st =>
    match m st with
    | (Ok a, st') => k a st'
    | (Raise e, st') => (Raise e, st')
    end.
Definition lift {A} (f : TypedStore -> result A) : M A := fun st => (f st, st).
Definition gets {A} (f : TypedStore -> A) : M A := fun st => (Ok (f st), st).
Definition modify (f : TypedStore -> TypedStore) : M unit := fun st => (Ok tt, f st).

Notation "'let*' x ':=' m 'in' k" := (bind m (fun x => k))
  (at level 10, x pattern, m at level 100, k at level 200).

Fixpoint for_each {A} (l : list A) (body : A -> M unit) : M unit :=
  match l with
  | [] => ret tt
  | a :: rest => let* _ := body a in for_each rest body
  end.

(** *** Changing a node in place *)

Definition with_children (n : Node) (chs : list Node) : Node :=
  mkNode (controller n) (templatenode n) (valueroot n) (valuenode n) (location n)
         chs (visible n) (grouponly n).

Definition with_visible (b : bool) (n : Node) : Node :=
  mkNode (controller n) (templatenode n) (valueroot n) (valuenode n) (location n)
         (children n) b (grouponly n).

Definition with_valueroot (v : option DomId) (n : Node) : Node :=
  mkNode (controller n) (templatenode n) v (valuenode n) (location n)
         (children n) (visible n) (grouponly n).

Definition with_valuenode (v : option DomId) (n : Node) : Node :=
  mkNode (controller n) (templatenode n) (valueroot n) v (location n)
         (children n) (visible n) (grouponly n).

Fixpoint update_at (f : Node -> Node) (p : NodeRef) (t : Node) : Node :=
  match p with
  | [] => f t
  | i :: rest =>
      match children t !! i with
      | Some c => with_children t (<[i := update_at f rest c]> (children t))
      | None => t
      end
  end.

Definition update_node (p : NodeRef) (f : Node -> Node) : M unit :=
  modify (fun st => with_root st (update_at f p (root st))).

Definition the_node (p : NodeRef) : M Node := lift (fun st => deref st p).

(** *** Events: the interface side *)

Definition call_handler (i : nat) (event : string) (h : Handler) (args : HandlerArgs)
    : M bool :=
  fun st => (Ok (h args), with_trace st (trace st ++ [Called i event args])).

Definition with_upcomingvizchange (self : TypedStoreInterface) (v : option NodeRef)
    : TypedStoreInterface :=
  mkInterface (showhidden self) (omitgroupers self) (interfacetype self)
              (blockNotifyOfHiddenNodes self) (processDefaultChange self)
              (eventhandlers self) v.

Definition the_interface (i : nat) : M TypedStoreInterface :=
  lift (fun st => match interfaces st !! i with
                  | Some self => Ok self
                  | None => Raise IndexError
                  end).

Definition set_upcomingvizchange (i : nat) (v : option NodeRef) : M unit :=
  modify (fun st =>
            match interfaces st !! i with
            | Some self =>
                with_interfaces st (<[i := with_upcomingvizchange self v]> (interfaces st))
            | None => st
            end).

(** The references of the ancestors, nearest first. *)
Fixpoint prefixes (p : NodeRef) : list NodeRef :=
  match p with
  | [] => []
  | i :: rest => [] :: map (cons i) (prefixes rest)
  end.

Definition ancestors (p : NodeRef) : list NodeRef := rev (prefixes p).

(** [getParent]: the nearest ancestor that is not a grouper.  Above the root
    there is [None], of which [isGrouper] can only be asked when
    [omitgroupers] is off. *)
Fixpoint getParent_walk (self : TypedStoreInterface) (t : Node) (up : list NodeRef)
    : result (option NodeRef) :=
  match up with
  | [] => if omitgroupers self then Raise AttributeError else Ok None
  | par :: rest =>
      match node_at t par with
      | None => Raise AttributeError
      | Some nd => if isGrouper self nd then getParent_walk self t rest else Ok (Some par)
      end
  end.

Definition getParent (self : TypedStoreInterface) (st : TypedStore) (node : NodeRef)
    : result (option NodeRef) :=
  let? nd := deref st node in
  let? _ := assert_valid nd in
  getParent_walk self (root st) (ancestors node).

(** Lines 549-557 and 565-573: what the two visibility events share once
    [upcomingvizchange] is dealt with. *)
Definition notifyVisibility (i : nat) (event : string) (self : TypedStoreInterface)
    (node : NodeRef) (shownew showhide : bool) : M unit :=
  match eventhandlers self !! event with
  | None => ret tt
  | Some handler =>
      let* parenthidden :=
        (if blockNotifyOfHiddenNodes self then
           let* par := lift (fun st => getParent self st node) in
           match par with
           | None => raise AttributeError
           | Some par => gets (fun st => isHidden st par)
           end
         else ret false) in
      if parenthidden then ret tt
      else
        let* hidden := gets (fun st => isHidden st node) in
        if blockNotifyOfHiddenNodes self && negb showhide && hidden then ret tt
        else
          let* nd := the_node node in
          if isGrouper self nd then
            let* children := lift (fun _ => getChildren self nd node) in
            match children with
            | [] => ret tt
            | _ => let* _ := call_handler i event handler
                               (VisibilityArgs children shownew showhide) in ret tt
            end
          else
            let* _ := call_handler i event handler
                        (VisibilityArgs [node] shownew showhide) in ret tt
  end.

Definition Interface_beforeVisibilityChange (i : nat) (node : NodeRef)
    (shownew showhide : bool) : M unit :=
  let* self := the_interface i in
  let* nd := the_node node in
  let* _ := lift (fun _ => assert_valid nd) in
  let* _ := set_upcomingvizchange i (Some node) in
  notifyVisibility i "beforeVisibilityChange" self node shownew showhide.

Definition Interface_afterVisibilityChange (i : nat) (node : NodeRef)
    (shownew showhide : bool) : M unit :=
  let* self := the_interface i in
  let* nd := the_node node in
  let* _ := lift (fun _ => assert_valid nd) in
  if negb (bool_decide (upcomingvizchange self = Some node)) then
    raise (AssertionError
      "The node supplied to afterVisibilityChange was not the last one supplied to beforeVisibilityChange.")
  else
    let* _ := set_upcomingvizchange i None in
    notifyVisibility i "afterVisibilityChange" self node shownew showhide.

Definition Interface_onBeforeChange (i : nat) (node : NodeRef) (newvalue : option Value)
    : M bool :=
  let* self := the_interface i in
  let* nd := the_node node in
  let* _ := lift (fun _ => assert_valid nd) in
  match eventhandlers self !! "beforeChange" with
  | None => ret true
  | Some handler =>
      let* hidden := gets (fun st => isHidden st node) in
      if hidden && blockNotifyOfHiddenNodes self then ret true
      else call_handler i "beforeChange" handler (BeforeChangeArgs node newvalue)
  end.

Definition Interface_onChange (i : nat) (node : NodeRef) (feature : string) : M unit :=
  let* self := the_interface i in
  let* nd := the_node node in
  let* _ := lift (fun _ => assert_valid nd) in
  match eventhandlers self !! "afterChange" with
  | None => ret tt
  | Some handler =>
      let* hidden := gets (fun st => isHidden st node) in
      if hidden && blockNotifyOfHiddenNodes self then ret tt
      else let* _ := call_handler i "afterChange" handler (ChangeArgs node feature) in ret tt
  end.

(** *** Events: the store side *)

(** [for i in self.interfaces: if i not in self.blockedinterfaces: ...] *)
Definition each_interface (body : nat -> M unit) : M unit :=
  let* n := gets (fun st => length (interfaces st)) in
  for_each (seq 0 n)
    (fun i =>
       let* blocked := gets (fun st => memb i (blockedinterfaces st)) in
       if blocked then ret tt else body i).

Definition beforeVisibilityChange (node : NodeRef) (visible showhide : bool) : M unit :=
  each_interface (fun i => Interface_beforeVisibilityChange i node visible showhide).

Definition afterVisibilityChange (node : NodeRef) (visible showhide : bool) : M unit :=
  each_interface (fun i => Interface_afterVisibilityChange i node visible showhide).

Fixpoint onBeforeChange_loop (indices : list nat) (node : NodeRef) (newvalue : option Value)
    : M bool :=
  match indices with
  | [] => ret true
  | i :: rest =>
      let* blocked := gets (fun st => memb i (blockedinterfaces st)) in
      if blocked then onBeforeChange_loop rest node newvalue
      else
        let* allowed := Interface_onBeforeChange i node newvalue in
        if allowed then onBeforeChange_loop rest node newvalue else ret false
  end.

Definition onBeforeChange (node : NodeRef) (newvalue : option Value) : M bool :=
  let* n := gets (fun st => length (interfaces st)) in
  onBeforeChange_loop (seq 0 n) node newvalue.

(** [Node.updateVisibility(recursive=False, notify)], as
    [updateDependantNodes] calls it. *)
Definition updateVisibility (self : NodeRef) (notify : bool) : M unit :=
  let* nd := the_node self in
  match findDescendantNode ut (templatenode nd) ["condition"] with
  | None => ret tt
  | Some cond =>
      let* shownew := lift (fun st => checkCondition st cond st self None) in
      if negb (Bool.eqb shownew (visible nd)) then
        let* _ := (if notify then beforeVisibilityChange self shownew true else ret tt) in
        let* _ := update_node self (with_visible shownew) in
        if notify then afterVisibilityChange self shownew true else ret tt
      else ret tt
  end.

(** *** updateDependantNodes and onChange *)

(** Lines 2467-2484: the list [depnodes] is built, hidden nodes put at the
    front and visible ones at the back; every entry is kept together with
    the visibility that placed it.  A dependency of another kind is
    reported through [onChange] at once. *)
Fixpoint collectDependants (onChange : NodeRef -> string -> M unit) (node : NodeRef)
    (ds : list Xml) (depnodes : list (NodeRef * bool)) : M (list (NodeRef * bool)) :=
  match ds with
  | [] => ret depnodes
  | d :: rest =>
      let varpath := getAttribute d "path" in
      match firstchar varpath with
      | None => raise IndexError
      | Some c =>
          let* refnode :=
            (if negb (eqc c "/") then
               match parent_ref node with
               | Some par => ret par
               | None => raise TypeError
               end
             else ret []) in
          let* varnode := lift (fun st => Node_getitem (root st) (xmldocument st)
                                                        refnode varpath) in
          match varnode with
          | None => raise (AssertionError "Unable to locate node.")
          | Some varnode =>
              let deptype := getAttribute d "type" in
              if eqs deptype "visibility" then
                let* vn := the_node varnode in
                if visible vn then
                  collectDependants onChange node rest (depnodes ++ [(varnode, true)])
                else
                  collectDependants onChange node rest ((varnode, false) :: depnodes)
              else
                let* _ := onChange varnode deptype in
                collectDependants onChange node rest depnodes
          end
      end
  end.

Definition updateDependantNodes_with (onChange : NodeRef -> string -> M unit)
    (node : NodeRef) : M unit :=
  let* nd := the_node node in
  match findDescendantNode ut (templatenode nd) ["dependentvariables"] with
  | None => ret tt
  | Some deps =>
      let* depnodes := collectDependants onChange node
                         (findDescendantNodes ut deps ["dependentvariable"]) [] in
      for_each (map fst depnodes) (fun varnode => updateVisibility varnode true)
  end.

(** [TypedStore.onChange] calls [updateDependantNodes], which calls
    [onChange] for every dependency that is not one of visibility; [fuel]
    bounds the depth of these calls, as the interpreter's recursion limit
    does. *)
Fixpoint onChange (fuel : nat) (node : NodeRef) (feature : string) : M unit :=
  match fuel with
  | 0 => raise RecursionError
  | S fuel =>
      let* _ := modify (fun st => with_changed st true) in
      let* _ := each_interface (fun i => Interface_onChange i node feature) in
      updateDependantNodes_with (onChange fuel) node
  end.


(** *** Values: createValueNode, clearValue, setValue *)

(** Lines 940-945: up from the node to the first ancestor that has a value
    root. *)
Fixpoint first_valueroot (t : Node) (chain : list NodeRef) (parents : list NodeRef)
    : result (DomId * list NodeRef) :=
  match chain with
  | [] => Raise AttributeError
  | r :: up =>
      match node_at t r with
      | None => Raise AttributeError
      | Some nd =>
          match valueroot nd with
          | Some vr => Ok (vr, parents)
          | None => first_valueroot t up (r :: parents)
          end
      end
  end.

(** Lines 953-956. *)
Fixpoint create_valueroots (parents : list NodeRef) (valueroot : DomId) : M DomId :=
  match parents with
  | [] => ret valueroot
  | par :: rest =>
      let* nd := the_node par in
      let* name := lift (fun _ => getId nd) in
      fun st =>
        let '(d, fresh) := createElementNS (xmldocument st) name in
        let d := appendChild d valueroot fresh in
        let st := with_xmldocument st d in
        let st := with_root st (update_at (with_valueroot (Some fresh)) par (root st)) in
        create_valueroots rest fresh st
  end.

(** [createValueNode()] with [rootonly=False], as [setValue] calls it. *)
Definition createValueNode (self : NodeRef) : M unit :=
  let* nd := the_node self in
  match valuenode nd with
  | Some _ => ret tt
  | None =>
      if negb (canHaveValue nd) then
        raise (AssertionError
          "Asked to create value node, but this node cannot have a value.")
      else
        let* (found, parents) :=
          lift (fun st => first_valueroot (root st) (self :: ancestors self) []) in
        let* top := gets (fun st => dom_top (xmldocument st)
                                            (length (xmldocument st)) found) in
        let* isdoc := gets (fun st => match top with
                                      | Some doc => isDocument (xmldocument st) doc
                                      | None => false
                                      end) in
        if negb isdoc then raise NameError
        else
          let* _ := create_valueroots parents found in
          let* nd := the_node self in
          match valueroot nd with
          | None => raise AttributeError
          | Some ownroot =>
              if canHaveValue nd && canHaveChildren nd then
                let* name := lift (fun _ => getId nd) in
                fun st =>
                  let '(d, fresh) := createElementNS (xmldocument st) name in
                  let d := appendChild d ownroot fresh in
                  let st := with_xmldocument st d in
                  (Ok tt, with_root st (update_at (with_valuenode (Some fresh)) self
                                                  (root st)))
              else update_node self (with_valuenode (Some ownroot))
          end
  end.

(** [clearValue(recursive=False, skipreadonly, deleteclones)], as [setValue]
    calls it. *)
Definition clearValue (fuel : nat) (self : NodeRef) (skipreadonly : bool) : M bool :=
  let* nd := the_node self in
  match valuenode nd with
  | None => ret true
  | Some vn =>
      if (skipreadonly && isReadOnly nd) || bool_decide (parent_ref self = None) then
        ret false
      else if canHaveClones nd then ret false
      else
        let* allowed := onBeforeChange self None in
        if allowed then
          let* up := gets (fun st => match xmldocument st !! vn with
                                      | Some e => parentNode e
                                      | None => None
                                      end) in
          match up with
          | None => raise AttributeError
          | Some up =>
              let* d := lift (fun st => removeChild (xmldocument st) up vn) in
              let* _ := modify (fun st => with_xmldocument st d) in
              let* _ := (if bool_decide (valueroot nd = valuenode nd)
                         then update_node self (with_valueroot None) else ret tt) in
              let* _ := update_node self (with_valuenode None) in
              let* _ := onChange fuel self "value" in
              ret true
          end
        else ret false
  end.

(** [curval != value] where [curval] may be [None]: a value is not [None]. *)
Definition differs (curval : option Value) (value : Value) : bool :=
  match curval with
  | None => true
  | Some c => dt_ne dt c value
  end.

Definition setValue (fuel : nat) (self : NodeRef) (value : option Value) : M pyval :=
  match value with
  | None => let* _ := clearValue fuel self false in ret PyNone
  | Some value =>
      let* curval := lift (fun st => getValue st self false) in
      if differs curval value then
        let* allowed := onBeforeChange self (Some value) in
        if allowed then
          let* nd := the_node self in
          let* valuetype := lift (fun st => getValueTypeClass st nd) in
          match valuetype with
          | None => raise TypeError
          | Some cls =>
              let* value := (if dt_isinstance dt value cls then ret value
                             else lift (fun _ => dt_construct dt cls value)) in
              let* _ := (match valuenode nd with
                         | None => createValueNode self
                         | Some _ => ret tt
                         end) in
              let* nd := the_node self in
              match valuenode nd with
              | None => raise AttributeError
              | Some vn =>
                  let* changed :=
                    (fun st => let '(d, r) := dt_save dt value (xmldocument st) vn in
                               (Ok r, with_xmldocument st d)) in
                  let* _ := onChange fuel self "value" in
                  ret changed
              end
          end
        else ret (PyBool false)
      else ret (PyBool false)
  end.

(** ** Validation *)

(** [getText(detail)] with [minimumdetail=0] and [capitalize=False] *)
Definition getText (st : TypedStore) (nd : Node) (detail : nat) : result string :=
  let? ret :=
    (if canHaveClones nd then
       let? id := getSecondaryId (xmldocument st) nd in
       Ok (if eqs id "" then None else Some id)
     else Ok None) in
  match ret with
  | Some r => Ok r
  | None =>
      if Nat.eqb detail 2 && hasAttribute (templatenode nd) "description" then
        Ok (getAttribute (templatenode nd) "description")
      else if Nat.leb 1 detail && hasAttribute (templatenode nd) "label" then
        Ok (getAttribute (templatenode nd) "label")
      else getId nd
  end.

(** [getDescendants]: the node and all below it, in document order. *)
Fixpoint getDescendants (node : Node) (p : NodeRef) : list NodeRef :=
  p :: (fix each (chs : list Node) (i : nat) : list NodeRef :=
          match chs with
          | [] => []
          | ch :: rest => getDescendants ch (p ++ [i]) ++ each rest (S i)
          end) (children node) 0.

(** The dictionary [validity]. *)
Definition Validity := list (NodeRef * bool).

Fixpoint validity_set (node : NodeRef) (b : bool) (v : Validity) : Validity :=
  match v with
  | [] => [(node, b)]
  | (k, x) :: rest =>
      if bool_decide (k = node) then (k, b) :: rest else (k, x) :: validity_set node b rest
  end.

(** [dict([(node,True) for node in nodes])]: one entry for a node, however
    often it is listed. *)
Definition validity_init (nodes : list NodeRef) : Validity :=
  fold_left (fun v node => validity_set node true v) nodes [].

Definition Report : Type := list string * Validity.

Definition invalid (node : NodeRef) (msg : string) (r : Report) : Report :=
  (fst r ++ [msg], validity_set node false (snd r)).

(** [performTest] runs a rule of the schema's [validation] element by
    handing Python text of the schema to [eval] and [exec]; it is taken as
    given: the rule, the nodes under validation, [usedefault], [repair], the
    nodes valid before, and the errors and validity so far. *)
Variable performTest :
  Xml -> list NodeRef -> bool -> Z -> list NodeRef -> Report -> M Report.

Record Subsets : Type := mkSubsets {
  customnodes : list NodeRef;
  selectnodes : list NodeRef;
  emptynodes : list NodeRef;
  lboundnodes : list NodeRef;
  uboundnodes : list NodeRef
}.

(** Lines 2018-2032. *)
Fixpoint buildSubsets (st : TypedStore) (usedefault : bool) (nodes : list NodeRef)
    (acc : Subsets) : result Subsets :=
  match nodes with
  | [] => Ok acc
  | node :: rest =>
      let? nd := deref st node in
      if negb (canHaveValue nd) then buildSubsets st usedefault rest acc
      else
        let? value := getValue st node usedefault in
        let t := templatenode nd in
        let acc :=
          mkSubsets
            (match value with
             | Some v => if dt_hasExpensiveValidate dt v then customnodes acc ++ [node]
                         else customnodes acc
             | None => customnodes acc
             end)
            (if hasAttribute t "hasoptions" then selectnodes acc ++ [node]
             else selectnodes acc)
            (match value with None => emptynodes acc ++ [node] | Some _ => emptynodes acc end)
            (if hasAttribute t "minInclusive" then lboundnodes acc ++ [node]
             else lboundnodes acc)
            (if hasAttribute t "maxInclusive" then uboundnodes acc ++ [node]
             else uboundnodes acc) in
        buildSubsets st usedefault rest acc
  end.

Definition repairs (st : TypedStore) (repair : Z) (node : NodeRef) : bool :=
  Z.eqb repair 2 || (Z.eqb repair 1 && isHidden st node).

(** Lines 2035-2038. *)
Definition checkEmpty (node : NodeRef) (r : Report) : M Report :=
  let* hidden := gets (fun st => isHidden st node) in
  if hidden then ret r
  else
    let* nd := the_node node in
    let* text := lift (fun st => getText st nd 1) in
    ret (invalid node ("variable " ++ dq ++ text ++ dq ++ " has not been set.") r).

(** Lines 2043-2049. *)
Definition checkCustom (usedefault : bool) (node : NodeRef) (r : Report) : M Report :=
  let* nd := the_node node in
  let* _ := lift (fun st => getText st nd 1) in
  let* value := lift (fun st => getValue st node usedefault) in
  match value with
  | None => raise AttributeError
  | Some value =>
      if negb (dt_validate dt value (templatenode nd)) then
        let* text := lift (fun st => getText st nd 1) in
        ret (invalid node ("variable " ++ dq ++ text ++ dq ++ " is set to an invalid value.") r)
      else ret r
  end.

(** Lines 2058-2064: 0 for no option, 1 for a disabled one, 2 for a usable
    one, with the option that matched. *)
Fixpoint findOption (value : Value) (t : Xml) (options : list Xml)
    : result (nat * option Xml) :=
  match options with
  | [] => Ok (0, None)
  | ch :: rest =>
      if isElementNamed "option" ch then
        let? chvalue := dt_fromXmlString dt value (getAttribute ch "value") t in
        if dt_eq dt value chvalue then
          Ok (if negb (eqs (getAttribute ch "disabled") "True") then 2 else 1, Some ch)
        else findOption value t rest
      else findOption value t rest
  end.

(** [Node.getDefaultValue] *)
Definition getDefaultValue (st : TypedStore) (p : NodeRef) : result (option Value) :=
  match defaultstore st with
  | None => Ok None
  | Some defaults =>
      let? defaultnode := mapForeignNode defaults st p in
      match defaultnode with
      | None => Ok None
      | Some dn => getValue defaults dn true
      end
  end.

(** Lines 2053-2074. *)
Definition checkSelect (fuel : nat) (usedefault : bool) (repair : Z) (node : NodeRef)
    (r : Report) : M Report :=
  let* nd := the_node node in
  let* value := lift (fun st => getValue st node usedefault) in
  let* (opt, ch) :=
    (match value with
     | None => ret (0, None)
     | Some value =>
         match findDescendantNode ut (templatenode nd) ["options"] with
         | None => raise (AssertionError
                     ("Schema node is of type " ++ dq ++ "select" ++ dq ++ ", but lacks the "
                      ++ dq ++ "options" ++ dq ++ " child node."))
         | Some optionsroot =>
             lift (fun _ => findOption value (templatenode nd) (childNodes optionsroot))
         end
     end) in
  if Nat.eqb opt 2 then ret r
  else
    let* fix_it := gets (fun st => repairs st repair node) in
    if fix_it then
      let* defvalue := lift (fun st => getDefaultValue st node) in
      let* _ := setValue fuel node defvalue in
      ret r
    else
      let* text := lift (fun st => getText st nd 1) in
      match value with
      | None => raise AttributeError
      | Some value =>
          if Nat.eqb opt 1 then
            ret (invalid node
                   ("variable " ++ dq ++ text ++ dq ++ " is set to option " ++ dq
                    ++ match ch with Some ch => getAttribute ch "label" | None => "" end
                    ++ dq ++ " (" ++ dt_toPrettyString dt value
                    ++ "), which is currently disabled (perhaps not yet implemented).") r)
          else
            ret (invalid node
                   ("variable " ++ dq ++ text ++ dq ++ " is set to non-existent option "
                    ++ dt_toPrettyString dt value ++ ".") r)
      end.

(** Lines 2077-2087 and 2088-2098: one bound of one node.  [upper] selects
    [maxInclusive] and [>]. *)
Definition checkBound (fuel : nat) (upper : bool) (usedefault : bool) (repair : Z)
    (node : NodeRef) (r : Report) : M Report :=
  let* nd := the_node node in
  let* value := lift (fun st => getValue st node usedefault) in
  match value with
  | None => ret r
  | Some value =>
      let attr := if upper then "maxInclusive" else "minInclusive" in
      let* bound := lift (fun _ => dt_fromXmlString dt value
                                     (getAttribute (templatenode nd) attr)
                                     (templatenode nd)) in
      if (if upper then dt_gt dt value bound else dt_lt dt value bound) then
        let* fix_it := gets (fun st => repairs st repair node) in
        if fix_it then
          let* _ := setValue fuel node (Some bound) in ret r
        else
          let* text := lift (fun st => getText st nd 1) in
          ret (invalid node
                 ("variable " ++ dq ++ text ++ dq ++ " is set to " ++ dt_toPrettyString dt value
                  ++ (if upper then ", which lies above the maximum of "
                      else ", which lies below the minimum of ")
                  ++ dt_toPrettyString dt bound ++ ".") r)
      else ret r
  end.

Fixpoint fold_report (l : list NodeRef) (check : NodeRef -> Report -> M Report)
    (r : Report) : M Report :=
  match l with
  | [] => ret r
  | node :: rest => let* r := check node r in fold_report rest check r
  end.

Fixpoint fold_tests (tests : list Xml) (run : Xml -> Report -> M Report) (r : Report)
    : M Report :=
  match tests with
  | [] => ret r
  | testnode :: rest =>
      if isElementNamed "test" testnode then
        let* r := run testnode r in fold_tests rest run r
      else fold_tests rest run r
  end.

(** Lines 2181-2186: the rules of the first [validation] element. *)
Definition applyRules (nodes : list NodeRef) (usedefault : bool) (repair : Z)
    (oldvalids : list NodeRef) (r : Report) : M Report :=
  let* templateroot := gets schema in
  match List.find (isElementNamed "validation") (childNodes templateroot) with
  | None => ret r
  | Some validationnode =>
      fold_tests (childNodes validationnode)
                 (fun testnode => performTest testnode nodes usedefault repair oldvalids) r
  end.

Definition _validate (fuel : nat) (nodes : list NodeRef) (usedefault : bool)
    (repair : Z) (usehistory : bool) : M Report :=
  let r : Report := ([], validity_init nodes) in
  let* oldvalids := gets (fun st => if usehistory then validnodes st else []) in
  let* sets := lift (fun st => buildSubsets st usedefault nodes
                                            (mkSubsets [] [] [] [] [])) in
  let* r := fold_report (emptynodes sets) checkEmpty r in
  let* visiblecustomnodes :=
    gets (fun st => List.filter (fun node => negb (isHidden st node)) (customnodes sets)) in
  let* r := fold_report visiblecustomnodes (checkCustom usedefault) r in
  let* r := fold_report (selectnodes sets) (checkSelect fuel usedefault repair) r in
  let* r := fold_report (lboundnodes sets) (checkBound fuel false usedefault repair) r in
  let* r := fold_report (uboundnodes sets) (checkBound fuel true usedefault repair) r in
  applyRules nodes usedefault repair oldvalids r.

(** [updateValidationHistory] on the set [validnodes]. *)
Fixpoint updateValidationHistory (validity : Validity) (valid : list NodeRef)
    : list NodeRef :=
  match validity with
  | [] => valid
  | (node, ok) :: rest =>
      let without := List.filter (fun n => negb (bool_decide (n = node))) valid in
      updateValidationHistory rest
        (if ok then (if bool_decide (node ∈ valid) then valid else valid ++ [node])
         else without)
  end.

Definition validate (fuel : nat) (nodes : option (list NodeRef)) (usedefault : bool)
    (repair : Z) (usehistory : bool) : M (list string) :=
  let* nodes := (match nodes with
                 | Some l => ret l
                 | None => gets (fun st => getDescendants (root st) [])
                 end) in
  let* (errors, validity) := _validate fuel nodes usedefault repair usehistory in
  let* _ := (if usehistory
             then modify (fun st => with_validnodes st
                                      (updateValidationHistory validity (validnodes st)))
             else ret tt) in
  ret errors.

End Store.

(** ** SchemaInfo: the registry of converters *)

Section SchemaInfo.

(** A converter class, and what an instance of it does to a store. *)
Variable ConvertorClass : Type.
Variable StoreData : Type.
Variable convertWith : ConvertorClass -> StoreData -> StoreData.

(** [convertorsfrom]: source version, then target version, then the class;
    both dictionaries in the order of insertion. *)
Definition Registry := list (string * list (string * ConvertorClass)).

(** What [getConverter] returns: an instance of a registered class, or a
    chain; [directonly] lookups fill the chain, so an entry may be [None]. *)
Inductive Convertor : Type :=
| Instance (cls : ConvertorClass)
| ConvertorChain (chain : list (option Convertor)).

Fixpoint dict_set {A} (k : string) (v : A) (d : list (string * A)) : list (string * A) :=
  match d with
  | [] => [(k, v)]
  | (k', x) :: rest => if eqs k' k then (k', v) :: rest else (k', x) :: dict_set k v rest
  end.

(** [addConverter(convertorclass)]; [fixedsourceid] and [fixedtargetid] are
    the two attributes of the class, [None] where the class leaves them
    unset.  When an assertion fails the registry is as it was: the entry that
    [setdefault] would add for the source is there already when the class is
    a second one for its two versions. *)
Definition addConverter (reg : Registry) (fixedsourceid fixedtargetid : option string)
    (convertorclass : ConvertorClass) : result Registry :=
  match fixedsourceid with
  | None => Raise (AssertionError
              "Error! Specified convertor class lacks a source identifier.")
  | Some sourceid =>
      match fixedtargetid with
      | None => Raise (AssertionError
                  "Error! Specified convertor class lacks a target identifier.")
      | Some targetid =>
          let source2target := default [] (assoc sourceid reg) in
          match assoc targetid source2target with
          | Some _ => Raise (AssertionError
                "A class for converting between these versions was already specified previously.")
          | None =>
              Ok (dict_set sourceid (dict_set targetid convertorclass source2target) reg)
          end
      end
  end.

(** [self.getConverters().get(sourceid,{}).keys()] *)
Definition nextVersions (reg : Registry) (sourceid : string) : list string :=
  match assoc sourceid reg with
  | Some source2target => map fst source2target
  | None => []
  end.

(** The direct route of [getConverter], which is all of it under
    [directonly=True]. *)
Definition getDirectConverter (reg : Registry) (sourceid targetid : string)
    : option Convertor :=
  match assoc sourceid reg with
  | Some source2target =>
      match assoc targetid source2target with
      | Some cls => Some (Instance cls)
      | None => None
      end
  | None => None
  end.

(** [findIndirectConversion]; [None] when [fuel] nested calls do not
    suffice. *)
Fixpoint findIndirectConversion_fuel (fuel : nat) (reg : Registry)
    (sourceid targetid : string) (disallowed : list string)
    : option (list (list string)) :=
  match fuel with
  | 0 => None
  | S fuel =>
      let curdisallowed := disallowed ++ [sourceid] in
      (fix each_next (next : list string) (routes : list (list string))
           : option (list (list string)) :=
         match next with
         | [] => Some routes
         | curnext :: rest =>
             if strmem curnext curdisallowed then each_next rest routes
             else if eqs curnext targetid then
               each_next rest (routes ++ [[sourceid; curnext]])
             else
               match findIndirectConversion_fuel fuel reg curnext targetid curdisallowed with
               | None => None
               | Some childroutes =>
                   each_next rest (routes ++ map (cons sourceid) childroutes)
               end
         end) (nextVersions reg sourceid) []
  end.

(** Every version that is the target of some registered converter. *)
Definition targetVersions (reg : Registry) : list string :=
  concat (map (fun entry => map fst (snd entry)) reg).

(** A call nests no deeper than there are target versions, each being
    disallowed once entered. *)
Definition findIndirectConversion (reg : Registry) (sourceid targetid : string)
    : option (list (list string)) :=
  findIndirectConversion_fuel (S (length (targetVersions reg))) reg sourceid targetid [].

(** [routes.sort(key=len)]: a stable sort. *)
Fixpoint insert_by_len (r : list string) (sorted : list (list string))
    : list (list string) :=
  match sorted with
  | [] => [r]
  | r' :: rest =>
      if Nat.ltb (length r) (length r') then r :: r' :: rest
      else r' :: insert_by_len r rest
  end.

Definition sort_by_len (routes : list (list string)) : list (list string) :=
  fold_right insert_by_len [] (rev routes).

(** Lines 2592-2595. *)
Fixpoint buildChain (reg : Registry) (route : list string) : list (option Convertor) :=
  match route with
  | a :: ((b :: _) as rest) => getDirectConverter reg a b :: buildChain reg rest
  | _ => []
  end.

Definition getConverter (reg : Registry) (sourceid targetid : string) (directonly : bool)
    : option Convertor :=
  match getDirectConverter reg sourceid targetid with
  | Some c => Some c
  | None =>
      if directonly then None
      else
        match findIndirectConversion reg sourceid targetid with
        | None => None
        | Some indirectroutes =>
            match sort_by_len indirectroutes with
            | [] => None
            | route :: _ => Some (ConvertorChain (buildChain reg route))
            end
        end
  end.

Definition hasConverter (reg : Registry) (sourceid targetid : string) : bool :=
  match getConverter reg sourceid targetid false with Some _ => true | None => false end.

(** Modelled from the spec: [versioning.ConvertorChain.convert], which is
    not among the sources.  The chain "applies each direct converter in
    sequence, each step's output becoming the next step's input"; a chain
    with a missing step converts nothing. *)
Fixpoint convert (c : Convertor) (data : StoreData) : option StoreData :=
  match c with
  | Instance cls => Some (convertWith cls data)
  | ConvertorChain chain =>
      (fix each_step (steps : list (option Convertor)) (data : StoreData)
           : option StoreData :=
         match steps with
         | [] => Some data
         | None :: _ => None
         | Some step :: rest =>
             match convert step data with
             | Some data => each_step rest data
             | None => None
             end
         end) chain data
  end.

End SchemaInfo.

(** ** TypedStoreInterface: children by index *)

Section InterfaceIndex.

Context (dt : datatypes).

(** What [getChildByIndex] returns: the child, the index left over
    ([returnindex=True]), or [None]. *)
Inductive IndexResult : Type :=
| FoundChild (child : NodeRef)
| Remaining (index : Z)
| NoChild.

(** [getChildByIndex(node, index, returnindex)]; [p] is the reference of
    [node]. *)
Fixpoint getChildByIndex (self : TypedStoreInterface dt) (node : Node) (p : NodeRef)
    (index : Z) (returnindex : bool) : result IndexResult :=
  let? _ := assert_valid node in
  (fix loop (chs : list Node) (i : nat) (index : Z) : result IndexResult :=
     match chs with
     | [] => Ok (if returnindex then Remaining index else NoChild)
     | child :: rest =>
         if visible child || showhidden self then
           if isGrouper self child then
             let? r := getChildByIndex self child (p ++ [i]) index true in
             match r with
             | Remaining index => loop rest (S i) index
             | found => Ok found
             end
           else if Z.eqb index 0 then Ok (FoundChild (p ++ [i]))
           else loop rest (S i) (index - 1)%Z
         else loop rest (S i) index
     end) (children node) 0 index.

(** [getOwnIndex(node)] for a node whose [futureindex] is [None], as it is
    outside [addChild]; [rp] is the reference of the node, last index
    first.  The root has no parent to look into. *)
Fixpoint getOwnIndex_up (self : TypedStoreInterface dt) (root : Node) (rp : list nat)
    : result nat :=
  match node_at root (rev rp) with
  | None => Raise AttributeError
  | Some node =>
      let? _ := assert_valid node in
      match rp with
      | [] => Raise AttributeError
      | own :: rpar =>
          match node_at root (rev rpar) with
          | None => Raise AttributeError
          | Some par =>
              let? ind := (if isGrouper self par then getOwnIndex_up self root rpar
                           else Ok 0) in
              (fix loop (sibs : list Node) (isib ind : nat) : result nat :=
                 match sibs with
                 | [] => Raise (AssertionError
                           "Could not find node in children of supposed parent, but future index was also not set.")
                 | sib :: rest =>
                     if Nat.eqb isib own then Ok ind
                     else if visible sib || showhidden self then
                       if isGrouper self sib then
                         let? c := getChildCount self sib in loop rest (S isib) (ind + c)
                       else loop rest (S isib) (ind + 1)
                     else loop rest (S isib) ind
                 end) (children par) 0 ind
          end
      end
  end.

Definition getOwnIndex (self : TypedStoreInterface dt) (root : Node) (node : NodeRef)
    : result nat :=
  getOwnIndex_up self root (rev node).

End InterfaceIndex.

(** ** Node: the empty nodes *)

Section EmptyNodes.

Context (dt : datatypes).

(** [getEmptyNodes(usedefault)]: the children are asked without
    [usedefault].  [node] is the subtree found at [p] in the store. *)
Fixpoint getEmptyNodes (st : TypedStore dt) (node : Node) (p : NodeRef) (usedefault : bool)
    : result (list NodeRef) :=
  let? res :=
    (if canHaveValue node then
       let? value := getValue st p usedefault in
       Ok (match value with None => [p] | Some _ => [] end)
     else Ok []) in
  (fix each (chs : list Node) (i : nat) (res : list NodeRef) : result (list NodeRef) :=
     match chs with
     | [] => Ok res
     | ch :: rest =>
         let? sub := getEmptyNodes st ch (p ++ [i]) false in
         each rest (S i) (res ++ sub)
     end) (children node) 0 res.

(** [hasValue] *)
Definition hasValue (st : TypedStore dt) (p : NodeRef) : result bool :=
  let? nd := deref st p in
  match valuenode nd with
  | None => Ok false
  | Some _ =>
      let? value := getValue st p false in
      Ok (match value with None => false | Some _ => true end)
  end.

End EmptyNodes.

(** ** Instances used by the examples *)

(** The searches of [util] over the schema DOM: [findDescendantNode]
    follows the names through first matching children,
    [findDescendantNodes] lists all children of the last name below the
    node the other names lead to. *)
Fixpoint find_by_names (x : Xml) (names : list string) : option Xml :=
  match names with
  | [] => Some x
  | name :: rest =>
      if eqs name "" then find_by_names x rest
      else match List.find (isElementNamed name) (childNodes x) with
           | Some ch => find_by_names ch rest
           | None => None
           end
  end.

Definition find_all_by_names (x : Xml) (names : list string) : list Xml :=
  match rev names with
  | [] => []
  | name :: parentloc =>
      match find_by_names x (rev parentloc) with
      | Some par => List.filter (isElementNamed name) (childNodes par)
      | None => []
      end
  end.

Definition dom_util : util :=
  {| findDescendantNode := find_by_names; findDescendantNodes := find_all_by_names |}.

(** Modelled from the spec: the integer value class of [datatypes], which
    is not among the sources.  Of a value class the spec fixes the contract
    "parse-from-string, compare, pretty-print": an integer is stored as the
    decimal text of its value node, and saving "writes" that text and
    reports that a change occurred. *)
Definition int_load (d : Dom) (i : DomId) : result (option Z) :=
  match d !! i with
  | None => Raise AttributeError
  | Some e => let? v := py_int (domText e) in Ok (Some v)
  end.

Definition int_save (v : Z) (d : Dom) (i : DomId) : Dom * pyval :=
  (dom_update d i
     (fun e => mkDomElement (nodeType e) (tagName e) (domAttributes e) (str_of_Z v)
                            (domChildren e) (parentNode e)),
   PyBool true).

Definition int_datatypes : datatypes :=
  {| Value := Z;
     DataType := unit;
     dt_get := fun name => if eqs name "int" then Some tt else None;
     dt_load := fun _ d i _ => int_load d i;
     dt_save := int_save;
     dt_ne := fun a b => negb (Z.eqb a b);
     dt_eq := Z.eqb;
     dt_lt := Z.ltb;
     dt_gt := Z.gtb;
     dt_isinstance := fun _ _ => true;
     dt_construct := fun _ v => Ok v;
     dt_fromXmlString := fun _ text _ => py_int text;
     dt_isSimple := fun _ => true;
     dt_classIsSimple := fun _ => false;
     dt_toPrettyString := str_of_Z;
     dt_hasExpensiveValidate := fun _ => false;
     dt_validate := fun _ _ => true |}.

(** No rule of a [validation] element is run in the examples. *)
Definition no_rules (dt : datatypes) :
    Xml -> list NodeRef -> bool -> Z -> list NodeRef -> Report -> M dt Report :=
  fun _ _ _ _ _ r => ret r.

(** ** A store for the examples

    Four elements below the root: [mode], on which the visibility of
    [extra] and [count] depends; [count], bounded by 0 and 10 and stored as
    50; and a group of [item]s, at most two, of which the document holds
    three. *)

Definition ex_dependentvariables : Xml :=
  Element "dependentvariables" []
    [ Element "dependentvariable" [("path", "/count"); ("type", "visibility")] [];
      Element "dependentvariable" [("path", "/extra"); ("type", "visibility")] [] ].

Definition ex_group : Xml :=
  Element "element" [("name", "group")]
    [ Element "element"
        [("name", "item"); ("type", "int"); ("minOccurs", "0"); ("maxOccurs", "2")] [] ].

Definition ex_schema : Xml :=
  Element "element" [("name", "scenario"); ("version", "1")]
    [ Element "element" [("name", "mode"); ("type", "int")] [ex_dependentvariables];
      Element "element" [("name", "extra"); ("type", "int")]
        [ Element "condition" [("type", "eq"); ("variable", "/mode"); ("value", "1")] [] ];
      Element "element"
        [("name", "count"); ("type", "int"); ("minInclusive", "0"); ("maxInclusive", "10")]
        [ Element "condition" [("type", "ne"); ("variable", "/mode"); ("value", "1")] [] ];
      ex_group ].

Definition el (tag text : string) (chs : list DomId) (par : DomId) : DomElement :=
  mkDomElement ELEMENT_NODE tag [] text chs (Some par).

Definition ex_dom : Dom :=
  [ mkDomElement DOCUMENT_NODE "#document" [] "" [1] None;
    el "scenario" "" [2; 3; 4] 0; el "mode" "0" [] 1; el "count" "50" [] 1;
    el "group" "" [5; 6; 7] 1; el "item" "1" [] 4; el "item" "2" [] 4; el "item" "3" [] 4 ].

Definition ex_init : result Node * InitState :=
  Node_init (dt:=int_datatypes) [] ex_schema (Some 1) [] (ex_dom, []).

Definition ex_root0 : Node :=
  Eval vm_compute in
    match fst ex_init with
    | Ok n => n
    | Raise _ => mkNode None ex_schema None None [] [] true []
    end.

Definition ex_document : Dom := Eval vm_compute in fst (snd ex_init).

(** What the construction printed: the group holds an [item] too many. *)
Definition ex_messages : list string := Eval vm_compute in snd (snd ex_init).

(** The node [extra] is hidden, as its condition on [mode] has it. *)
Definition ex_root : Node := Eval vm_compute in update_at (with_visible false) [1] ex_root0.

(** An interface that sees all and has a handler for the events of change;
    [allow] is its answer to [beforeChange]. *)
Definition ex_interface (allow : bool) : TypedStoreInterface int_datatypes :=
  mkInterface true false "gui" false 0
    (<["afterChange" := fun _ => true]> {["beforeChange" := fun _ => allow]}) None.

Definition ex_store (allow : bool) : TypedStore int_datatypes :=
  mkTypedStore ex_schema [] [ex_interface allow] [] [] None ex_root ex_document
               false [] [].

Definition ex_node (p : NodeRef) : Node :=
  match node_at ex_root p with
  | Some n => n
  | None => ex_root
  end.

(** A condition on [extra], which has no value and no default. *)
Definition ex_condition : Xml :=
  Element "condition" [("type", "eq"); ("variable", "/extra"); ("value", "1")] [].

(** Versions [1.0] to [1.1] to [1.2] and back to [1.0], and a longer way
    from [1.0] to [1.2] over [0.9]; a class is named by a number, and
    converting appends it. *)
Definition ex_registrations : list (string * string * nat) :=
  [("1.0", "1.1", 1); ("1.1", "1.2", 2); ("1.2", "1.0", 3); ("1.0", "0.9", 4);
   ("0.9", "1.1", 5)].

Definition ex_registry : Registry nat :=
  fold_left (fun reg '(s, t, cls) => match addConverter reg (Some s) (Some t) cls with
                                     | Ok reg => reg
                                     | Raise _ => reg
                                     end)
            ex_registrations [].

Definition ex_convertWith (cls : nat) (data : list nat) : list nat := data ++ [cls].

(** A form without values: [a], a box that only groups [b] and the hidden
    [h], and [d], a choice among options. *)
Definition ex_form_schema : Xml :=
  Element "element" [("name", "form")]
    [ Element "element" [("name", "a"); ("type", "int")] [];
      Element "element" [("name", "box"); ("grouponly", "True")]
        [ Element "element" [("name", "b"); ("type", "int")] [];
          Element "element" [("name", "h"); ("type", "int"); ("hidden", "True")] [] ];
      Element "element" [("name", "d"); ("type", "int"); ("hasoptions", "True")]
        [ Element "options" []
            [ Element "option" [("value", "1"); ("label", "one")] [];
              Element "option" [("value", "2"); ("label", "two")] [] ] ] ].

Definition ex_form_dom : Dom :=
  [ mkDomElement DOCUMENT_NODE "#document" [] "" [1] None; el "form" "" [] 0 ].

Definition ex_form : Node :=
  Eval vm_compute in
    match fst (Node_init (dt:=int_datatypes) [] ex_form_schema (Some 1) [] (ex_form_dom, [])) with
    | Ok n => n
    | Raise _ => mkNode None ex_form_schema None None [] [] true []
    end.

(** An interface that leaves out the hidden nodes and the groupers. *)
Definition ex_flat : TypedStoreInterface int_datatypes :=
  TypedStoreInterface_init int_datatypes false true 0 "gui".

Definition ex_form_store : TypedStore int_datatypes :=
  mkTypedStore ex_form_schema [] [ex_interface true] [] [] None ex_form ex_form_dom
               false [] [].

(** A condition that holds when [mode] is 0 and [count] is 1 and a third
    condition, which lacks its type, holds. *)
Definition ex_both : Xml :=
  Element "condition" [("type", "and")]
    [ Element "condition" [("type", "eq"); ("variable", "/mode"); ("value", "0")] [];
      Element "condition" [("type", "eq"); ("variable", "/count"); ("value", "1")] [];
      Element "condition" [("variable", "/count"); ("value", "1")] [] ].

(** Modelled from the spec: the integer value class of [datatypes] once
    more, now with the values that are no instances of it.  A value is a
    plain integer as a caller hands it to [setValue] ([Raw]), or an instance
    of the class ([Int]); the class makes an instance of a plain integer,
    compares by the number, and stores and loads as [int_datatypes] does. *)
Inductive RawValue : Type :=
| Raw (z : Z)
| Int (z : Z).

Definition raw_number (v : RawValue) : Z :=
  match v with Raw z => z | Int z => z end.

Definition raw_load (d : Dom) (i : DomId) : result (option RawValue) :=
  let? v := int_load d i in Ok (option_map Int v).

Definition raw_datatypes : datatypes :=
  {| Value := RawValue;
     DataType := unit;
     dt_get := fun name => if eqs name "int" then Some tt else None;
     dt_load := fun _ d i _ => raw_load d i;
     dt_save := fun v => int_save (raw_number v);
     dt_ne := fun a b => negb (Z.eqb (raw_number a) (raw_number b));
     dt_eq := fun a b => Z.eqb (raw_number a) (raw_number b);
     dt_lt := fun a b => Z.ltb (raw_number a) (raw_number b);
     dt_gt := fun a b => Z.gtb (raw_number a) (raw_number b);
     dt_isinstance := fun v _ => match v with Int _ => true | Raw _ => false end;
     dt_construct := fun _ v => Ok (Int (raw_number v));
     dt_fromXmlString := fun _ text _ => let? z := py_int text in Ok (Int z);
     dt_isSimple := fun _ => true;
     dt_classIsSimple := fun _ => false;
     dt_toPrettyString := fun v => str_of_Z (raw_number v);
     dt_hasExpensiveValidate := fun _ => false;
     dt_validate := fun _ _ => true |}.

(** The example store with these values, and an interface that allows every
    change. *)
Definition ex_raw_store : TypedStore raw_datatypes :=
  mkTypedStore ex_schema []
    [mkInterface true false "gui" false 0
       (<["afterChange" := fun _ => true]> {["beforeChange" := fun _ => true]}) None]
    [] [] None ex_root ex_document false [] [].

(** * The vocabulary of the properties *)

Definition rmap {A B} (f : A -> B) (r : result A) : result B :=
  match r with Ok a => Ok (f a) | Raise e => Raise e end.

Section Trees.

(** No node of the tree has been destroyed. *)
Fixpoint tree_valid (n : Node) : bool :=
  isValid n &&
  (fix all (l : list Node) : bool :=
     match l with
     | [] => true
     | c :: rest => tree_valid c && all rest
     end) (children n).

End Trees.

Section Routes.

Variable ConvertorClass : Type.

Abbreviation Registry := (Registry ConvertorClass).

(** The class registered for a direct conversion. *)
Definition registered (reg : Registry) (a b : string) : option ConvertorClass :=
  match assoc a reg with
  | Some source2target => assoc b source2target
  | None => None
  end.

Definition edge (reg : Registry) (a b : string) : Prop := In b (nextVersions reg a).

Fixpoint chained (reg : Registry) (r : list string) : Prop :=
  match r with
  | a :: ((b :: _) as rest) => edge reg a b /\ chained reg rest
  | _ => True
  end.

(** A simple path: at least one hop from [s] to [t] along registered
    converters, no version met twice. *)
Definition simple_path (reg : Registry) (s t : string) (r : list string) : Prop :=
  head r = Some s /\ List.last r s = t /\ 2 <= length r /\ chained reg r /\ List.NoDup r.

(** The classes registered along a route. *)
Fixpoint classesAlong (reg : Registry) (r : list string) : option (list ConvertorClass) :=
  match r with
  | a :: ((b :: _) as rest) =>
      match registered reg a b, classesAlong reg rest with
      | Some cls, Some l => Some (cls :: l)
      | _, _ => None
      end
  | _ => Some []
  end.

(** What one call of [findIndirectConversion] is to return: the routes from
    [s] that stay clear of [dis] and of themselves. *)
Inductive Route (reg : Registry) (t : string) : list string -> string -> list string -> Prop :=
| Route_last dis s n :
    edge reg s n -> strmem n (dis ++ [s]) = false -> n = t ->
    Route reg t dis s [s; n]
| Route_step dis s n r :
    edge reg s n -> strmem n (dis ++ [s]) = false -> n <> t ->
    Route reg t (dis ++ [s]) n r ->
    Route reg t dis s (s :: r).

Definition remaining (reg : Registry) (dis : list string) : nat :=
  length (List.filter (fun v => negb (strmem v dis)) (targetVersions reg)).

Definition avoiding (reg : Registry) (t : string) (dis : list string) (s : string)
    (r : list string) : Prop :=
  head r = Some s /\ List.last r s = t /\ 2 <= length r /\ chained reg r /\ List.NoDup r /\
  (forall v, In v (tail r) -> ~ In v dis).

Definition shortest_first (l : list (list string)) : Prop :=
  match l with
  | [] => True
  | r :: rest => forall x, In x rest -> length r <= length x
  end.

End Routes.

Section Locations.

(** The name a node goes by: the last name of its location. *)
Definition ownName (n : Node) : string := List.last (location n) "".

(** Every child carries the location of its parent extended by one name, as
    [Node.__init__] and [addChild] build it. *)
Fixpoint wf_locations (n : Node) : Prop :=
  (fix all (l : list Node) : Prop :=
     match l with
     | [] => True
     | c :: rest =>
         location c = location n ++ [ownName c] /\ wf_locations c /\ all rest
     end) (children n).

(** A name that [getLocation] reads as the name of a child: not empty, not
    [.] or [..], without [/] and without a bracketed suffix. *)
Definition plain (name : string) : bool :=
  negb (eqs name "") && negb (eqs name ".") && negb (eqs name "..")
  && negb (contains "/" name) && negb (endswith name "]" && contains "[" name).

(** No earlier sibling has the name of the child with index [i]. *)
Fixpoint nameless_before (chs : list Node) (i : nat) (name : string) : bool :=
  match i, chs with
  | S i, c :: rest => negb (eqs (ownName c) name) && nameless_before rest i name
  | _, _ => true
  end.

(** Along the reference, every node is the first of its name among its
    siblings. *)
Fixpoint first_of_name (t : Node) (p : NodeRef) : bool :=
  match p with
  | [] => true
  | i :: rest =>
      match children t !! i with
      | Some c => nameless_before (children t) i (ownName c) && first_of_name c rest
      | None => false
      end
  end.

(** The names of the nodes a reference passes through. *)
Fixpoint names_along (t : Node) (p : NodeRef) : list string :=
  match p with
  | [] => []
  | i :: rest =>
      match children t !! i with
      | Some c => ownName c :: names_along c rest
      | None => []
      end
  end.

End Locations.

Section Construction.

Context (dt : datatypes).

(** The value entries of a name below a value root: "the matching value
    entries". *)
Definition entriesNamed (d : Dom) (valueroot : option DomId) (name : string) : list DomId :=
  match valueroot with
  | Some vr => List.filter (fun ch => eqs (dom_localName d ch) name) (dom_childNodes d vr)
  | None => []
  end.

(** The children of the schema element that are elements themselves. *)
Definition templateChildren (t : Xml) : list Xml :=
  List.filter (isElementNamed "element") (childNodes t).

Definition dict_lookup (d : ValueChildren) (k : string) : list DomId :=
  default [] (assoc k d).

Definition shrinks (st st' : InitState) : Prop :=
  (forall q, incl (dom_childNodes (fst st') q) (dom_childNodes (fst st) q)) /\
  (forall q, List.NoDup (dom_childNodes (fst st) q) ->
             List.NoDup (dom_childNodes (fst st') q)) /\
  (exists more, snd st' = snd st ++ more).

(** What holds of a freshly built node. *)
Definition built (tc : Xml) (loc : list string) (valuechild : option DomId) (n : Node)
    : Prop :=
  valueroot n = valuechild /\ templatenode n = tc /\ location n = loc.

Definition creates
    (create : Xml -> option DomId -> list string -> InitState -> result Node * InitState)
    (tc : Xml) : Prop :=
  forall vc loc st r st', create tc vc loc st = (r, st') ->
    shrinks st st' /\ forall n, r = Ok n -> built tc loc vc n.

(** The schema children with their matching value entries: the entries of
    a name go to the first schema child of that name. *)
Fixpoint matching (lookup : string -> list DomId) (tcs : list Xml)
    : list (Xml * list DomId) :=
  match tcs with
  | [] => []
  | tc :: rest =>
      if isElementNamed "element" tc then
        (tc, lookup (getAttribute tc "name"))
        :: matching (fun k => if eqs (getAttribute tc "name") k then [] else lookup k) rest
      else matching lookup rest
  end.

(** What is to hold of one schema child [tc] with matching entries
    [cur], of the nodes [g] built for it, in the state [final] the
    construction ends in. *)
Definition group_ok (vroot : option DomId) (loc : list string) (final : InitState)
    (entry : Xml * list DomId) (g : list Node) : Prop :=
  let '(tc, cur) := entry in
  exists mn mx,
    read_occurs tc = Ok (mn, mx) /\
    List.Forall (fun n => templatenode n = tc) g /\
    map valueroot g = map Some cur ++ replicate (Z.to_nat mn - length cur) None /\
    ((Z.of_nat (length cur) < mn)%Z -> Z.of_nat (length g) = mn) /\
    forall m, mx = Bounded m -> (m < Z.of_nat (length cur))%Z ->
      In (too_many_message (loc ++ [getAttribute tc "name"]) (length cur) m) (snd final) /\
      forall vr v, vroot = Some vr -> In v (drop (Z.to_nat m) cur) ->
                   ~ In v (dom_childNodes (fst final) vr).

Definition children_distinct (vroot : option DomId) (st : InitState) : Prop :=
  match vroot with
  | Some vr => List.NoDup (dom_childNodes (fst st) vr)
  | None => True
  end.

End Construction.

Section Stores.

Context (dt : datatypes) (ut : util).

Abbreviation TypedStore := (TypedStore dt).
Abbreviation M := (M dt).

(** Every run of [m] relates the store before to the store after, whatever
    the outcome. *)
Definition preserves {A} (R : TypedStore -> TypedStore -> Prop) (m : M A) : Prop :=
  forall st r st', m st = (r, st') -> R st st'.

Definition is_beforeChange (e : LogEntry dt) : Prop :=
  exists i args, e = Called i "beforeChange" args.

Definition only_asked (st st' : TypedStore) : Prop :=
  exists more, st' = with_trace st (trace st ++ more) /\ List.Forall is_beforeChange more.

(** The node tree with every visibility forgotten. *)
Fixpoint forget_visible (n : Node) : Node :=
  mkNode (controller n) (templatenode n) (valueroot n) (valuenode n) (location n)
         (map forget_visible (children n)) true (grouponly n).

Definition same_values (st st' : TypedStore) : Prop :=
  xmldocument st' = xmldocument st /\ customdatatypes st' = customdatatypes st /\
  forget_visible (root st') = forget_visible (root st).

Definition same_schema (st st' : TypedStore) : Prop :=
  schema st' = schema st /\ customdatatypes st' = customdatatypes st /\
  validnodes st' = validnodes st.

(** The fields of a node that the updates in place never touch together
    with its children. *)
Definition scalars (n : Node) : Xml * option DomId * option DomId :=
  (templatenode n, valueroot n, valuenode n).

(** What [createValueNode] keeps of the node it is called on: its schema
    element, and that its references into the value document are live. *)
Definition kept (self : NodeRef) (t : Xml) (st : TypedStore) : Prop :=
  exists x, node_at (root st) self = Some x /\ templatenode x = t /\
    forall i, valueroot x = Some i \/ valuenode x = Some i -> i < length (xmldocument st).


Definition hidden_then_visible (l : list (NodeRef * bool)) : Prop :=
  exists h v, l = h ++ v /\ List.Forall (fun e => snd e = false) h /\
              List.Forall (fun e => snd e = true) v.

Definition above_maximum_message (text : string) (v hi : Value dt) : string :=
  "variable " ++ dq ++ text ++ dq ++ " is set to " ++ dt_toPrettyString dt v
  ++ ", which lies above the maximum of " ++ dt_toPrettyString dt hi ++ ".".

(** A node bounded above: a typed node without options whose bounds are
    the texts [0] and [10], read by its type as [lo] and [hi], and whose
    value [v] is not below [lo] but above [hi]. *)
Record bounded_above (st : TypedStore) (node : NodeRef) (nd : Node)
    (usedefault : bool) (v lo hi : Value dt) : Prop := {
  ba_node : node_at (root st) node = Some nd;
  ba_typed : canHaveValue nd = true;
  ba_no_options : hasAttribute (templatenode nd) "hasoptions" = false;
  ba_min : getAttribute (templatenode nd) "minInclusive" = "0";
  ba_max : getAttribute (templatenode nd) "maxInclusive" = "10";
  ba_value : getValue st node usedefault = Ok (Some v);
  ba_cheap : dt_hasExpensiveValidate dt v = false;
  ba_lo : dt_fromXmlString dt v "0" (templatenode nd) = Ok lo;
  ba_hi : dt_fromXmlString dt v "10" (templatenode nd) = Ok hi;
  ba_not_below : dt_lt dt v lo = false;
  ba_above : dt_gt dt v hi = true;
  ba_no_rules :
    List.find (isElementNamed "validation") (childNodes (schema st)) = None
}.

End Stores.

Arguments only_asked {dt} st st'.
Arguments same_values {dt} st st'.
Arguments same_schema {dt} st st'.
Arguments is_beforeChange {dt} e.

Section Listing.

Context (dt : datatypes).

(** The child [c] is shown by the interface, and [rest] leads from it to
    what the interface lists for it: the child itself, or what it lists for
    the children of a grouper. *)
Fixpoint listed (self : TypedStoreInterface dt) (node : Node) (r : NodeRef) : bool :=
  match r with
  | [] => false
  | i :: rest =>
      match children node !! i with
      | None => false
      | Some c =>
          (visible c || showhidden self) &&
          (if isGrouper self c then listed self c rest else bool_decide (rest = []))
      end
  end.

End Listing.

Section Picking.

Context (dt : datatypes).

(** The entry of a list at a Python index that is not taken from the end:
    none below zero. *)
Definition at_index {A} (l : list A) (index : Z) : option A :=
  if (index <? 0)%Z then None else l !! Z.to_nat index.

(** What [getChildByIndex] is to return when [l] is what the interface
    lists. *)
Definition pick (l : list NodeRef) (index : Z) (returnindex : bool) : IndexResult :=
  match at_index l index with
  | Some q => FoundChild q
  | None => if returnindex then Remaining (index - Z.of_nat (length l)) else NoChild
  end.

(** The loops of [getChildren] and [getChildByIndex], named. *)
Definition listLoop (self : TypedStoreInterface dt) (p : NodeRef) :=
  fix loop (chs : list Node) (i : nat) (res : list NodeRef) : result (list NodeRef) :=
    match chs with
    | [] => Ok res
    | child :: rest =>
        if visible child || showhidden self then
          if isGrouper self child then
            let? sub := getChildren self child (p ++ [i]) in loop rest (S i) (res ++ sub)
          else loop rest (S i) (res ++ [p ++ [i]])
        else loop rest (S i) res
    end.

Definition indexLoop (self : TypedStoreInterface dt) (p : NodeRef) (returnindex : bool) :=
  fix loop (chs : list Node) (i : nat) (index : Z) : result IndexResult :=
    match chs with
    | [] => Ok (if returnindex then Remaining index else NoChild)
    | child :: rest =>
        if visible child || showhidden self then
          if isGrouper self child then
            let? r := getChildByIndex self child (p ++ [i]) index true in
            match r with
            | Remaining index => loop rest (S i) index
            | found => Ok found
            end
          else if Z.eqb index 0 then Ok (FoundChild (p ++ [i]))
          else loop rest (S i) (index - 1)%Z
        else loop rest (S i) index
    end.

(** The loop of [getOwnIndex] over the siblings, named. *)
Definition ownLoop (self : TypedStoreInterface dt) (own : nat) :=
  fix loop (sibs : list Node) (isib ind : nat) : result nat :=
    match sibs with
    | [] => Raise (AssertionError
              "Could not find node in children of supposed parent, but future index was also not set.")
    | sib :: rest =>
        if Nat.eqb isib own then Ok ind
        else if visible sib || showhidden self then
          if isGrouper self sib then
            let? c := getChildCount self sib in loop rest (S isib) (ind + c)
          else loop rest (S isib) (ind + 1)
        else loop rest (S isib) ind
    end.

End Picking.

Section TreeVocabulary.

Context (dt : datatypes).

(** The loop of [getDescendants] and of [getEmptyNodes], named. *)
Definition descendantsLoop (p : NodeRef) :=
  fix each (chs : list Node) (i : nat) : list NodeRef :=
    match chs with
    | [] => []
    | ch :: rest => getDescendants ch (p ++ [i]) ++ each rest (S i)
    end.

Definition emptyLoop (st : TypedStore dt) (p : NodeRef) :=
  fix each (chs : list Node) (i : nat) (res : list NodeRef) : result (list NodeRef) :=
    match chs with
    | [] => Ok res
    | ch :: rest =>
        let? sub := getEmptyNodes st ch (p ++ [i]) false in
        each rest (S i) (res ++ sub)
    end.

(** A node that can have a value and has none, defaults apart. *)
Definition is_empty (st : TypedStore dt) (q : NodeRef) (usedefault : bool) : Prop :=
  exists nd, node_at (root st) q = Some nd /\ canHaveValue nd = true /\
             getValue st q usedefault = Ok None.

End TreeVocabulary.

Section ChangeVocabulary.

Context (dt : datatypes).

(** The node tree without what a change of value or of visibility touches:
    the links into the value document and the flags. *)
Fixpoint skeleton (n : Node) : Node :=
  mkNode (controller n) (templatenode n) None None (location n)
         (map skeleton (children n)) true (grouponly n).

(** What no change of a value alters: the nodes there are, with their
    schema elements and locations, and what the store was set up with. *)
Definition same_structure (st st' : TypedStore dt) : Prop :=
  skeleton (root st') = skeleton (root st) /\
  schema st' = schema st /\ customdatatypes st' = customdatatypes st /\
  otherstores st' = otherstores st /\ defaultstore st' = defaultstore st /\
  blockedinterfaces st' = blockedinterfaces st /\
  validnodes st' = validnodes st /\
  length (interfaces st') = length (interfaces st).

(** The store stays marked as changed. *)
Definition stays_changed (st st' : TypedStore dt) : Prop :=
  changed st = true -> changed st' = true.

(** Every run of [m] that returns, returns a result and a store that
    satisfy [P]. *)
Definition ensures {A} (P : A -> TypedStore dt -> Prop) (m : M dt A) : Prop :=
  forall st r st', m st = (Ok r, st') -> P r st'.

End ChangeVocabulary.

Arguments same_structure {dt} st st'.
Arguments stays_changed {dt} st st'.

Section ValidationVocabulary.

Context (dt : datatypes).

(** The store is as it was. *)
Definition untouched (st st' : TypedStore dt) : Prop := st' = st.

(** A rule of the schema that leaves the store alone when nothing is to be
    repaired. *)
Definition reads_only
    (performTest : Xml -> list NodeRef -> bool -> Z -> list NodeRef -> Report
                   -> M dt Report) : Prop :=
  forall testnode nodes usedefault oldvalids r,
    preserves untouched (performTest testnode nodes usedefault 0%Z oldvalids r).

(** A rule that reports no error leaves the report as it is. *)
Definition reports_errors
    (performTest : Xml -> list NodeRef -> bool -> Z -> list NodeRef -> Report
                   -> M dt Report) : Prop :=
  forall testnode nodes usedefault repair oldvalids r,
    ensures (fun r' _ => fst r' = [] -> r' = r)
            (performTest testnode nodes usedefault repair oldvalids r).

(** No error in the end: the report is the one the step started from. *)
Definition kept_clean (r : Report) : Report -> TypedStore dt -> Prop :=
  fun r' _ => fst r' = [] -> r' = r.

End ValidationVocabulary.

Arguments untouched {dt} st st'.

Section UnsetVocabulary.

Context (dt : datatypes).

Definition not_set_message (text : string) : string :=
  "variable " ++ dq ++ text ++ dq ++ " has not been set.".

(** A node that can have a value and has none, in a store whose schema has
    no rules of validation. *)
Record unset (st : TypedStore dt) (node : NodeRef) (nd : Node) (usedefault : bool)
    (text : string) : Prop := {
  un_node : node_at (root st) node = Some nd;
  un_typed : canHaveValue nd = true;
  un_value : getValue st node usedefault = Ok None;
  un_text : getText st nd 1 = Ok text;
  un_no_min : hasAttribute (templatenode nd) "minInclusive" = false;
  un_no_max : hasAttribute (templatenode nd) "maxInclusive" = false;
  un_no_rules :
    List.find (isElementNamed "validation") (childNodes (schema st)) = None
}.

End UnsetVocabulary.

Section Reachability.

Variable ConvertorClass : Type.

(** A version is reached from another through registered converters, one
    or more. *)
Inductive reaches (reg : Registry ConvertorClass) : string -> string -> Prop :=
| reaches_edge a b : edge reg a b -> reaches reg a b
| reaches_step a b c : edge reg a b -> reaches reg b c -> reaches reg a c.

End Reachability.

Section ConditionVocabulary.

Context (dt : datatypes).

(** The loop of [checkCondition] over the children of an [and] or an [or],
    named. *)
Definition conditionLoop (self : TypedStore dt) (condtype : string)
    (owner : TypedStore dt) (ownernode : NodeRef) :=
  fix each_child (chs : list Xml) : result bool :=
    match chs with
    | [] => Ok (eqs condtype "and")
    | ch :: rest =>
        if isElementNamed "condition" ch then
          let? met := checkCondition self ch owner ownernode None in
          if met then (if eqs condtype "or" then Ok true else each_child rest)
          else (if eqs condtype "and" then Ok false else each_child rest)
        else each_child rest
    end.

(** The first of [conds] that evaluates to [decisive], all before it
    evaluating to the opposite. *)
Definition first_decides (met : Xml -> result bool) (decisive : bool) (conds : list Xml)
    : Prop :=
  exists before ch after,
    conds = before ++ ch :: after /\
    Forall (fun c => met c = Ok (negb decisive)) before /\
    met ch = Ok decisive.

End ConditionVocabulary.

Section VisibilityVocabulary.

Context (dt : datatypes).

(** What a notification of the interfaces leaves alone: all but the trace
    and the state of the interfaces. *)
Definition only_notified (st st' : TypedStore dt) : Prop :=
  root st' = root st /\ xmldocument st' = xmldocument st /\
  changed st' = changed st /\ schema st' = schema st /\
  otherstores st' = otherstores st /\ defaultstore st' = defaultstore st /\
  validnodes st' = validnodes st.

End VisibilityVocabulary.

Arguments only_notified {dt} st st'.

Section ConstructionVocabulary.

(** Every node below [n] goes by the name its schema element has. *)
Definition named_by_schema (n : Node) : Prop :=
  forall p c, p <> [] -> node_at n p = Some c ->
              getId c = Ok (getAttribute (templatenode c) "name").

(** A node built for a schema element below the location [loc]. *)
Definition located (loc : list string) (c : Node) : Prop :=
  (wf_locations c /\ named_by_schema c) /\
  location c = loc ++ [getAttribute (templatenode c) "name"].

End ConstructionVocabulary.

Section WriteVocabulary.

Context (dt : datatypes).

(** What [setValue] stores for [v]: [v] itself when it is an instance of the
    class of the node, and else what the class makes of it. *)
Definition stored_as (cls : DataType dt) (v : Value dt) : result (Value dt) :=
  if dt_isinstance dt v cls then Ok v else dt_construct dt cls v.

(** A value [v] the type [cls] accepts for the schema element [t], and
    stores as [w]: [w] is [v] or equal to it, and loads back as itself once
    saved into a value element. *)
Definition accepted (cls : DataType dt) (t : Xml) (v w : Value dt) : Prop :=
  stored_as cls v = Ok w /\
  (w = v \/ dt_ne dt w v = false) /\
  forall d i, i < length d -> dt_load dt cls (fst (dt_save dt w d i)) i t = Ok (Some w).

(** The node has a value element, or one can be made for it: on the way up
    there is a node with a value root, which lies in a document, and the
    node and those below that one, which all get an element named after
    them, have a name. *)
Definition storable (st : TypedStore dt) (node : NodeRef) (nd : Node) : Prop :=
  match valuenode nd with
  | Some _ => True
  | None =>
      location nd <> [] /\
      exists found parents doc,
        first_valueroot (root st) (node :: ancestors node) [] = Ok (found, parents) /\
        dom_top (xmldocument st) (length (xmldocument st)) found = Some doc /\
        isDocument (xmldocument st) doc = true /\
        List.Forall (fun p => exists x, node_at (root st) p = Some x /\ location x <> [])
                    parents
  end.




End WriteVocabulary.

(** * Properties *)

(** ** The interface counts the children it lists *)

Section InterfaceFacts.

Context (dt : datatypes).

Lemma getChildCount_length (self : TypedStoreInterface dt) (node : Node) :
  forall p, getChildCount self node = rmap (@length NodeRef) (getChildren self node p).
Proof.
  induction node as [node IH] using Node_ind. intros p.
  destruct node as [ctl t vr vn loc chs vis grp]. simpl in IH.
  unfold getChildCount, getChildren; fold (@getChildCount dt) (@getChildren dt).
  destruct (assert_valid _) as [[]|e]; simpl; [|reflexivity].
  match goal with
  | |- ?lc chs 0 = rmap _ (?lg chs 0 []) =>
      enough (H : forall i res, lc chs (length res) = rmap (@length _) (lg chs i res))
        by exact (H 0 [])
  end.
  induction chs as [|c chs IHchs]; intros i res; [reflexivity|].
  apply Forall_cons in IH as [Hc Hchs].
  destruct (visible c || showhidden self).
  - destruct (isGrouper self c).
    + rewrite (Hc (p ++ [i])).
      destruct (getChildren self c (p ++ [i])) as [sub|e]; simpl; [|reflexivity].
      rewrite <- length_app. apply IHchs; assumption.
    + replace (length res + 1) with (length (res ++ [p ++ [i]]))
        by (rewrite length_app; simpl; lia).
      apply IHchs; assumption.
  - apply IHchs; assumption.
Qed.

Lemma getChildren_total (self : TypedStoreInterface dt) (node : Node) :
  tree_valid node = true -> forall p, exists l, getChildren self node p = Ok l.
Proof.
  induction node as [node IH] using Node_ind. intros Hv p.
  destruct node as [ctl t vr vn loc chs vis grp]. simpl in IH, Hv.
  apply andb_true_iff in Hv as [Hctl Hchs].
  unfold getChildren; fold (@getChildren dt).
  unfold assert_valid. rewrite Hctl. simpl.
  match goal with
  | |- exists l, ?lg chs 0 [] = Ok l =>
      enough (H : forall i res, exists l, lg chs i res = Ok l) by exact (H 0 [])
  end.
  induction chs as [|c chs IHchs]; intros i res; [eauto|].
  apply Forall_cons in IH as [Hc IH].
  apply andb_true_iff in Hchs as [Hcv Hchs].
  destruct (visible c || showhidden self); [|auto].
  destruct (isGrouper self c); [|auto].
  destruct (Hc Hcv (p ++ [i])) as [sub ->]. simpl. auto.
Qed.

(** C10. For every node and every interface configuration, [getChildCount]
    is the length of what [getChildren] lists (both stop on the same
    assertion when they meet a destroyed node); on a tree without destroyed
    nodes both return, and the count is the length of the list. *)
Theorem getChildCount_is_length_getChildren
    (self : TypedStoreInterface dt) (node : Node) (p : NodeRef) :
  getChildCount self node = rmap (@length NodeRef) (getChildren self node p) /\
  (tree_valid node = true ->
   exists l, getChildren self node p = Ok l /\ getChildCount self node = Ok (length l)).
Proof.
  split; [apply getChildCount_length|].
  intros Hv. destruct (getChildren_total self Hv p) as [l Hl].
  exists l. split; [exact Hl|].
  rewrite (getChildCount_length self node p), Hl. reflexivity.
Qed.

End InterfaceFacts.

(** ** Routes between versions *)

Section SchemaInfoFacts.

Variable ConvertorClass : Type.
Variable StoreData : Type.
Variable convertWith : ConvertorClass -> StoreData -> StoreData.

Abbreviation Registry := (Registry ConvertorClass).

Lemma strmem_In x l : strmem x l = true <-> In x l.
Proof.
  unfold strmem. rewrite existsb_exists. split.
  - intros [y [Hy Heq]]. apply eqs_true in Heq. subst. exact Hy.
  - intros H. exists x. split; [exact H|apply eqs_refl].
Qed.

Lemma strmem_false x l : strmem x l = false <-> ~ In x l.
Proof.
  rewrite <- strmem_In. destruct (strmem x l); split; intros; congruence.
Qed.

Lemma assoc_In_fst {A} k (l : list (string * A)) :
  In k (map fst l) -> exists v, assoc k l = Some v.
Proof.
  induction l as [|[k' v] l IH]; simpl; [tauto|].
  intros [->|H].
  - rewrite eqs_refl. eauto.
  - destruct (eqs k' k); eauto.
Qed.

Lemma edge_registered (reg : Registry) a b : edge reg a b -> exists cls, registered reg a b = Some cls.
Proof.
  unfold edge, nextVersions, registered.
  destruct (assoc a reg) as [m|]; simpl; [apply assoc_In_fst|tauto].
Qed.

Lemma edge_target (reg : Registry) a b : edge reg a b -> In b (targetVersions reg).
Proof.
  unfold edge, nextVersions, targetVersions.
  induction reg as [|[k m] reg IH]; simpl; [tauto|].
  destruct (eqs k a).
  - intros H. apply in_or_app. left. exact H.
  - intros H. apply in_or_app. right. apply IH. exact H.
Qed.

(** *** The search returns, whatever the registrations *)

Lemma strmem_app x l1 l2 : strmem x (l1 ++ l2) = strmem x l1 || strmem x l2.
Proof. unfold strmem. apply existsb_app. Qed.

Lemma remaining_step_le (u : list string) (dis : list string) n :
  length (List.filter (fun v => negb (strmem v (dis ++ [n]))) u)
  <= length (List.filter (fun v => negb (strmem v dis)) u).
Proof.
  induction u as [|v u IH]; simpl; [lia|].
  rewrite strmem_app. destruct (strmem v dis); simpl; [exact IH|].
  destruct (eqs v n); simpl; lia.
Qed.

Lemma remaining_decreases (reg : Registry) dis n :
  In n (targetVersions reg) -> strmem n dis = false ->
  remaining reg (dis ++ [n]) < remaining reg dis.
Proof.
  unfold remaining. generalize (targetVersions reg) as u.
  induction u as [|v u IH]; simpl; [tauto|].
  intros [->|Hin] Hn.
  - rewrite strmem_app, Hn. simpl. rewrite eqs_refl. simpl.
    pose proof (remaining_step_le u dis n). lia.
  - specialize (IH Hin Hn). rewrite strmem_app.
    destruct (strmem v dis); simpl; [exact IH|].
    destruct (eqs v n); simpl; lia.
Qed.

Lemma findIndirectConversion_fuel_total (reg : Registry) t fuel :
  forall s dis, remaining reg (dis ++ [s]) < fuel ->
  exists routes, findIndirectConversion_fuel fuel reg s t dis = Some routes.
Proof.
  induction fuel as [|fuel IH]; intros s dis Hfuel; [lia|].
  simpl.
  assert (Hnext : forall n, In n (nextVersions reg s) -> edge reg s n) by (intros; assumption).
  revert Hnext. generalize (nextVersions reg s) as next. intros next.
  match goal with
  | |- _ -> exists routes, ?loop next [] = Some routes =>
      enough (Hloop : forall acc, (forall n, In n next -> edge reg s n) ->
                exists routes, loop next acc = Some routes)
        by (intros Hnext; exact (Hloop [] Hnext))
  end.
  induction next as [|n next IHnext]; intros routes Hnext; [eauto|].
  destruct (strmem n (dis ++ [s])) eqn:Hmem.
  - apply IHnext. intros; apply Hnext; now right.
  - destruct (eqs n t).
    + apply IHnext. intros; apply Hnext; now right.
    + destruct (IH n (dis ++ [s])) as [child ->].
      * pose proof (@remaining_decreases reg (dis ++ [s]) n
                      (edge_target (Hnext n (or_introl eq_refl))) Hmem). lia.
      * apply IHnext. intros; apply Hnext; now right.
Qed.

Lemma remaining_le (reg : Registry) dis : remaining reg dis <= length (targetVersions reg).
Proof. unfold remaining. apply List.filter_length_le. Qed.

Lemma findIndirectConversion_total (reg : Registry) s t :
  exists routes, findIndirectConversion reg s t = Some routes.
Proof.
  apply findIndirectConversion_fuel_total.
  pose proof (remaining_le reg ([] ++ [s])). lia.
Qed.

(** *** The search returns the routes, all of them *)

Lemma findIndirectConversion_fuel_routes (reg : Registry) t fuel :
  forall s dis routes,
    findIndirectConversion_fuel fuel reg s t dis = Some routes ->
    forall r, In r routes <-> Route reg t dis s r.
Proof.
  induction fuel as [|fuel IH]; intros s dis routes; [discriminate|].
  simpl.
  assert (Hspec : forall r, Route reg t dis s r <->
            exists n, In n (nextVersions reg s) /\ strmem n (dis ++ [s]) = false /\
              ((n = t /\ r = [s; n]) \/
               (n <> t /\ exists r', Route reg t (dis ++ [s]) n r' /\ r = s :: r'))).
  { intros r. split.
    - intros H. inversion H; subst; eauto 10.
    - intros [n [Hin [Hmem [[-> ->]|[Hne [r' [Hr' ->]]]]]]].
      + now apply Route_last.
      + now apply Route_step with n. }
  intros Hrun r. rewrite Hspec. clear Hspec.
  revert Hrun.
  match goal with
  | |- ?loop _ [] = _ -> _ =>
      enough (Hloop : forall next acc,
                loop next acc = Some routes ->
                (In r routes <->
                 In r acc \/
                 exists n, In n next /\ strmem n (dis ++ [s]) = false /\
                   ((n = t /\ r = [s; n]) \/
                    (n <> t /\ exists r', Route reg t (dis ++ [s]) n r' /\ r = s :: r'))))
  end.
  { intros Hrun. rewrite (Hloop _ _ Hrun). simpl. tauto. }
  induction next as [|n next IHnext]; intros acc Hrun.
  - injection Hrun as <-. split; [tauto|]. intros [H|[n [[] _]]]. exact H.
  - destruct (strmem n (dis ++ [s])) eqn:Hmem.
    + rewrite (IHnext _ Hrun). split.
      * intros [H|[m [Hm H]]]; [tauto|]. right. exists m. split; [now right|exact H].
      * intros [H|[m [[<-|Hm] [Hf H]]]]; [tauto|congruence|]. right. eauto.
    + destruct (eqs n t) eqn:Hnt.
      * apply eqs_true in Hnt. rewrite (IHnext _ Hrun). rewrite in_app_iff. simpl. split.
        -- intros [[H|[<-|[]]]|[m [Hm H]]]; [tauto| |].
           ++ right. exists n. split; [now left|]. split; [exact Hmem|]. left. now split.
           ++ right. exists m. split; [now right|exact H].
        -- intros [H|[m [[<-|Hm] [Hf H]]]]; [tauto| |].
           ++ destruct H as [[_ ->]|[Hne _]]; [|congruence]. left. right. now left.
           ++ right. eauto.
      * apply eqs_false in Hnt.
        destruct (findIndirectConversion_fuel fuel reg n t (dis ++ [s])) as [child|] eqn:Hchild;
          [|discriminate].
        rewrite (IHnext _ Hrun). rewrite in_app_iff, in_map_iff. split.
        -- intros [[H|[r' [<- Hr']]]|[m [Hm H]]]; [tauto| |].
           ++ right. exists n. split; [now left|]. split; [exact Hmem|]. right.
              split; [exact Hnt|]. exists r'. split; [|reflexivity].
              apply (IH _ _ _ Hchild). exact Hr'.
           ++ right. exists m. split; [now right|exact H].
        -- intros [H|[m [[<-|Hm] [Hf H]]]]; [tauto| |].
           ++ destruct H as [[Heq _]|[_ [r' [Hr' ->]]]]; [congruence|].
              left. right. exists r'. split; [reflexivity|].
              apply (IH _ _ _ Hchild). exact Hr'.
           ++ right. eauto.
Qed.

(** *** The routes are the simple paths *)

Lemma last_cons_cons {A} (a b : A) l d : List.last (a :: b :: l) d = List.last (b :: l) d.
Proof. reflexivity. Qed.

Lemma last_change_default {A} (a : A) l d d' : List.last (a :: l) d = List.last (a :: l) d'.
Proof.
  revert a. induction l as [|b l IH]; intros a; [reflexivity|].
  rewrite !last_cons_cons. apply IH.
Qed.

Lemma last_In {A} (a : A) l d : In (List.last (a :: l) d) (a :: l).
Proof.
  revert a. induction l as [|b l IH]; intros a; [now left|].
  rewrite last_cons_cons. right. apply IH.
Qed.

Lemma Route_avoiding (reg : Registry) t dis s r :
  Route reg t dis s r -> avoiding reg t dis s r.
Proof.
  induction 1 as [dis s n He Hm Hn | dis s n r He Hm Hn Hr IH].
  - apply strmem_false in Hm. rewrite in_app_iff in Hm. simpl in Hm.
    unfold avoiding. split_and!.
    + reflexivity.
    + exact Hn.
    + simpl. lia.
    + simpl. tauto.
    + constructor.
      * intros Hs. destruct Hs as [Heq|[]]. apply Hm. auto.
      * constructor; [intros []|constructor].
    + simpl. intros v [<-|[]]. tauto.
  - apply strmem_false in Hm. rewrite in_app_iff in Hm. simpl in Hm.
    destruct IH as (Hhd & Hlast & Hlen & Hch & Hnd & Hav).
    destruct r as [|n' r]; [simpl in Hlen; lia|].
    injection Hhd as ->.
    unfold avoiding. split_and!.
    + reflexivity.
    + rewrite last_cons_cons. rewrite <- Hlast. apply last_change_default.
    + simpl. simpl in Hlen. lia.
    + split; [exact He|exact Hch].
    + constructor; [|exact Hnd].
      intros Hs. destruct Hs as [Heq|Hin]; [apply Hm; auto|].
      apply (Hav s Hin). rewrite in_app_iff. simpl. tauto.
    + simpl. intros v [<-|Hin]; [tauto|].
      intros Hd. apply (Hav v Hin). rewrite in_app_iff. tauto.
Qed.

Lemma avoiding_Route (reg : Registry) t r :
  forall dis s, avoiding reg t dis s r -> Route reg t dis s r.
Proof.
  induction r as [|a r IH]; intros dis s (Hhd & Hlast & Hlen & Hch & Hnd & Hav);
    [discriminate|].
  injection Hhd as ->.
  destruct r as [|n r]; [simpl in Hlen; lia|].
  destruct Hch as [He Hch].
  assert (Hm : strmem n (dis ++ [s]) = false).
  { apply strmem_false. rewrite in_app_iff. simpl. intros Hd.
    destruct Hd as [Hd|[Heq|[]]].
    - apply (Hav n); [now left|exact Hd].
    - inversion Hnd as [|? ? Hns _]. apply Hns. left. symmetry. exact Heq. }
  destruct r as [|m r].
  - simpl in Hlast. subst t. now apply Route_last.
  - apply Route_step with n; [exact He|exact Hm| |].
    + intros Hnt. subst n. rewrite last_cons_cons in Hlast.
      inversion Hnd as [|? ? _ Hnd']. inversion Hnd' as [|? ? Hn _].
      apply Hn. rewrite <- Hlast at 1. rewrite last_cons_cons. apply last_In.
    + apply IH. unfold avoiding. split_and!.
      * reflexivity.
      * rewrite last_cons_cons in Hlast. rewrite <- Hlast. apply last_change_default.
      * simpl. lia.
      * exact Hch.
      * now inversion Hnd.
      * intros v Hin Hd. rewrite in_app_iff in Hd. simpl in Hd.
        destruct Hd as [Hd|[Heq|[]]].
        -- apply (Hav v); [now right|exact Hd].
        -- inversion Hnd as [|? ? Hs _]. apply Hs. right. subst v. exact Hin.
Qed.

Lemma Route_simple_path (reg : Registry) s t r :
  Route reg t [] s r <-> simple_path reg s t r.
Proof.
  split.
  - intros H. apply Route_avoiding in H. unfold avoiding, simple_path in *. tauto.
  - intros H. apply avoiding_Route. unfold avoiding, simple_path in *.
    intuition auto.
Qed.

(** *** The first of the sorted routes is a shortest one *)

Lemma insert_by_len_In r x sorted :
  In x (insert_by_len r sorted) <-> x = r \/ In x sorted.
Proof.
  induction sorted as [|r' sorted IH]; simpl; [intuition|].
  destruct (Nat.ltb _ _); simpl; [intuition|]. rewrite IH. intuition.
Qed.

Lemma sort_by_len_In x routes : In x (sort_by_len routes) <-> In x routes.
Proof.
  unfold sort_by_len. rewrite (in_rev routes x).
  induction (rev routes) as [|r l IH]; simpl; [tauto|].
  rewrite insert_by_len_In, IH. intuition.
Qed.

Lemma insert_by_len_sorted r sorted :
  StronglySorted (fun a b => length a <= length b) sorted ->
  StronglySorted (fun a b => length a <= length b) (insert_by_len r sorted).
Proof.
  induction 1 as [|r' sorted Hs IH Hall]; simpl.
  - constructor; constructor.
  - destruct (Nat.ltb (length r) (length r')) eqn:Hlt.
    + apply Nat.ltb_lt in Hlt. constructor.
      * constructor; assumption.
      * constructor; [lia|]. rewrite List.Forall_forall in *. intros x Hx.
        specialize (Hall x Hx). lia.
    + apply Nat.ltb_ge in Hlt. constructor; [exact IH|].
      rewrite List.Forall_forall in *. intros x Hx.
      apply insert_by_len_In in Hx as [->|Hx]; [lia|auto].
Qed.

Lemma sort_by_len_sorted routes :
  StronglySorted (fun a b => length a <= length b) (sort_by_len routes).
Proof.
  unfold sort_by_len. induction (rev routes) as [|r l IH]; simpl.
  - constructor.
  - apply insert_by_len_sorted. exact IH.
Qed.

Lemma sort_by_len_head routes route rest :
  sort_by_len routes = route :: rest ->
  In route routes /\ forall r, In r routes -> length route <= length r.
Proof.
  intros Hs. split.
  - apply sort_by_len_In. rewrite Hs. now left.
  - intros r Hr. apply sort_by_len_In in Hr. rewrite Hs in Hr.
    pose proof (sort_by_len_sorted routes) as Hsorted. rewrite Hs in Hsorted.
    inversion Hsorted as [|? ? _ Hall]. destruct Hr as [<-|Hr]; [lia|].
    rewrite List.Forall_forall in Hall. auto.
Qed.

(** *** The chain follows the route *)

Lemma buildChain_classes (reg : Registry) r :
  chained reg r ->
  exists classes, classesAlong reg r = Some classes /\
                  buildChain reg r = map (fun cls => Some (Instance cls)) classes.
Proof.
  induction r as [|a r IH]; [exists []; auto|].
  destruct r as [|b r]; [exists []; auto|].
  intros [He Hch]. destruct (IH Hch) as [classes [Hc Hb]].
  destruct (edge_registered He) as [cls Hcls].
  exists (cls :: classes). split.
  - change (classesAlong reg (a :: b :: r))
      with (match registered reg a b, classesAlong reg (b :: r) with
            | Some cls, Some l => Some (cls :: l) | _, _ => None end).
    rewrite Hcls, Hc. reflexivity.
  - change (buildChain reg (a :: b :: r))
      with (getDirectConverter reg a b :: buildChain reg (b :: r)).
    rewrite Hb. f_equal. unfold getDirectConverter. unfold registered in Hcls.
    destruct (assoc a reg); [|discriminate]. rewrite Hcls. reflexivity.
Qed.

Lemma convert_chain classes : forall data,
  convert convertWith (ConvertorChain (map (fun cls => Some (Instance cls)) classes)) data
  = Some (fold_left (fun d cls => convertWith cls d) classes data).
Proof.
  simpl. induction classes as [|cls classes IH]; intros data; [reflexivity|].
  simpl. apply IH.
Qed.

(** C3. [getConverter] returns the registered direct converter when there is
    one.  Otherwise the search returns (it cannot run out of nested calls,
    cyclic registrations or not) exactly the simple paths from source to
    target, no version being met twice on a route; when there is none the
    answer is [None], and else it is the chain of the converters registered
    along a route of the fewest hops, which converts by applying them one
    after the other, each to the output of the one before. *)
Theorem getConverter_routes (reg : Registry) (sourceid targetid : string) :
  (forall cls, registered reg sourceid targetid = Some cls ->
     forall directonly, getConverter reg sourceid targetid directonly = Some (Instance cls)) /\
  (registered reg sourceid targetid = None ->
     getConverter reg sourceid targetid true = None /\
     exists routes,
       findIndirectConversion reg sourceid targetid = Some routes /\
       (forall r, In r routes <-> simple_path reg sourceid targetid r) /\
       match getConverter reg sourceid targetid false with
       | None => routes = []
       | Some c =>
           exists route classes,
             In route routes /\
             (forall r, simple_path reg sourceid targetid r -> length route <= length r) /\
             classesAlong reg route = Some classes /\
             length classes = length route - 1 /\
             c = ConvertorChain (map (fun cls => Some (Instance cls)) classes) /\
             forall data, convert convertWith c data
                          = Some (fold_left (fun d cls => convertWith cls d) classes data)
       end).
Proof.
  split.
  - intros cls Hcls directonly. unfold getConverter, getDirectConverter.
    unfold registered in Hcls. destruct (assoc sourceid reg); [|discriminate].
    rewrite Hcls. reflexivity.
  - intros Hnone.
    assert (Hdirect : getDirectConverter reg sourceid targetid = None).
    { unfold getDirectConverter. unfold registered in Hnone.
      destruct (assoc sourceid reg); [|reflexivity]. rewrite Hnone. reflexivity. }
    unfold getConverter. rewrite Hdirect. split; [reflexivity|].
    destruct (findIndirectConversion_total reg sourceid targetid) as [routes Hroutes].
    exists routes. rewrite Hroutes.
    assert (Hall : forall r, In r routes <-> simple_path reg sourceid targetid r).
    { intros r. rewrite <- Route_simple_path.
      apply (findIndirectConversion_fuel_routes Hroutes). }
    split; [reflexivity|]. split; [exact Hall|].
    destruct (sort_by_len routes) as [|route rest] eqn:Hsort.
    + destruct routes as [|r routes]; [reflexivity|].
      assert (Hin : In r (sort_by_len (r :: routes))) by (apply sort_by_len_In; now left).
      rewrite Hsort in Hin. destruct Hin.
    + destruct (sort_by_len_head Hsort) as [Hin Hmin].
      pose proof (proj1 (Hall route) Hin) as (_ & _ & _ & Hch & _).
      destruct (buildChain_classes Hch) as [classes [Hc Hb]].
      exists route, classes. split; [exact Hin|].
      split; [intros r Hr; apply Hmin, Hall, Hr|].
      split; [exact Hc|]. split.
      * rewrite <- (length_map (fun cls => Some (Instance cls)) classes), <- Hb.
        clear. induction route as [|a [|b r] IH]; simpl in *; try lia.
      * split; [rewrite Hb; reflexivity|]. intros data. rewrite Hb. apply convert_chain.
Qed.

End SchemaInfoFacts.

(** ** Locating a node by its location *)

Section LocationFacts.

Lemma split_plain sep a : contains sep a = false -> split sep a = [a].
Proof.
  induction a as [|c a IH]; simpl; [reflexivity|].
  destruct (eqc c sep); simpl; [discriminate|].
  intros H. rewrite (IH H). reflexivity.
Qed.

Lemma split_app sep a rest :
  contains sep a = false -> split sep (a ++ String sep rest)%string = a :: split sep rest.
Proof.
  induction a as [|c a IH]; simpl.
  - intros _. unfold eqc. destruct (ascii_dec sep sep); [reflexivity|congruence].
  - destruct (eqc c sep); simpl; [discriminate|].
    intros H. rewrite (IH H). reflexivity.
Qed.

Lemma split_join (names : list string) :
  names <> [] ->
  List.Forall (fun n => contains "/" n = false) names ->
  split "/" (join "/" names) = names.
Proof.
  induction names as [|a names IH]; [congruence|].
  intros _ Hall. inversion Hall as [|? ? Ha Hrest]; subst.
  destruct names as [|b names].
  - simpl. apply split_plain. exact Ha.
  - change (join "/" (a :: b :: names))
      with (a ++ String "/" (join "/" (b :: names)))%string.
    rewrite split_app by exact Ha. f_equal. apply IH; [discriminate|exact Hrest].
Qed.

Lemma node_at_app t p q :
  node_at t (p ++ q) = match node_at t p with Some n => node_at n q | None => None end.
Proof.
  revert t. induction p as [|i p IH]; intros t; simpl; [reflexivity|].
  destruct (children t !! i); [apply IH|reflexivity].
Qed.

Lemma getId_ownName c : location c <> [] -> getId c = Ok (ownName c).
Proof. unfold getId, ownName. destruct (location c); [congruence|reflexivity]. Qed.

Lemma find_child_first d chs name : forall i c k ich,
  List.Forall (fun c => location c <> []) chs ->
  chs !! i = Some c -> ownName c = name -> nameless_before chs i name = true ->
  find_child d chs name None k ich = Ok (Some (k + i)).
Proof.
  induction chs as [|c0 chs IH]; intros i c k ich Hall Hi Hname Hfirst; [discriminate|].
  inversion Hall as [|? ? Hc0 Hrest]; subst.
  cbn [find_child]. rewrite (getId_ownName Hc0). cbn [rbind].
  destruct i as [|i]; simpl in *.
  - injection Hi as ->. rewrite eqs_refl. simpl. f_equal. f_equal. lia.
  - apply andb_true_iff in Hfirst as [Hne Hfirst].
    destruct (eqs (ownName c0) (ownName c)); [discriminate|].
    rewrite (IH i c (S k) ich Hrest Hi eq_refl Hfirst). f_equal. f_equal. lia.
Qed.

Lemma parse_plain name : plain name = true -> parse_component name = (name, None).
Proof.
  unfold plain, parse_component. intros H.
  repeat (apply andb_true_iff in H as [H ?]).
  destruct (endswith name "]" && contains "[" name); [discriminate|reflexivity].
Qed.

Lemma wf_locations_child n i c :
  wf_locations n -> children n !! i = Some c ->
  location c = location n ++ [ownName c] /\ wf_locations c.
Proof.
  destruct n as [ctl t vr vn loc chs vis grp]. simpl.
  revert i. induction chs as [|c0 chs IH]; intros i Hwf Hi; [discriminate|].
  destruct Hwf as (Hloc & Hc & Hrest).
  destruct i as [|i]; simpl in Hi.
  - injection Hi as <-. split; assumption.
  - apply (IH i Hrest Hi).
Qed.

Lemma wf_locations_named n :
  wf_locations n -> List.Forall (fun c => location c <> []) (children n).
Proof.
  intros Hwf. apply List.Forall_forall. intros c Hin.
  apply list_elem_of_In, list_elem_of_lookup in Hin as [i Hi].
  destruct (wf_locations_child Hwf Hi) as [Hloc _]. rewrite Hloc.
  destruct (location n); discriminate.
Qed.

Lemma location_along t p nd :
  wf_locations t -> node_at t p = Some nd ->
  location nd = location t ++ names_along t p.
Proof.
  revert t. induction p as [|i p IH]; intros t Hwf Hat; simpl in *.
  - injection Hat as <-. now rewrite app_nil_r.
  - destruct (children t !! i) as [c|] eqn:Hi; [|discriminate].
    destruct (wf_locations_child Hwf Hi) as [Hloc Hc].
    rewrite (IH c Hc Hat), Hloc, <- app_assoc. reflexivity.
Qed.

Lemma getLocation_loop_along root d self p : forall q tq nd,
  wf_locations tq ->
  node_at root q = Some tq -> node_at tq p = Some nd ->
  first_of_name tq p = true -> forallb plain (names_along tq p) = true ->
  getLocation_loop root d self (Some q) (names_along tq p) = Ok (Some (q ++ p)).
Proof.
  induction p as [|i p IH]; intros q tq nd Hwf Hq Hp Hfirst Hplain; simpl in *.
  - now rewrite app_nil_r.
  - destruct (children tq !! i) as [c|] eqn:Hi; [|discriminate].
    simpl in Hplain. apply andb_true_iff in Hplain as [Hpl Hplain].
    apply andb_true_iff in Hfirst as [Hnb Hfirst].
    simpl. rewrite (parse_plain Hpl).
    unfold plain in Hpl. repeat (apply andb_true_iff in Hpl as [Hpl ?]).
    destruct (eqs (ownName c) ".."); [discriminate|].
    destruct (eqs (ownName c) ""); [discriminate|].
    destruct (eqs (ownName c) "."); [discriminate|]. simpl.
    rewrite Hq.
    rewrite (find_child_first d 0 0 (wf_locations_named Hwf) Hi eq_refl Hnb). simpl.
    replace (q ++ i :: p) with ((q ++ [i]) ++ p) by (rewrite <- app_assoc; reflexivity).
    apply IH with nd; try assumption.
    + apply (wf_locations_child Hwf Hi).
    + rewrite node_at_app, Hq. simpl. rewrite Hi. reflexivity.
Qed.

(** C9, as the code has it.  In a tree whose root has the empty location and
    whose children extend the location of their parent, a node is found
    again from the root by its joined location when every node on the way to
    it is the first of its name among its siblings and the names are
    plain. *)
Theorem getitem_of_location (root : Node) (d : Dom) (p : NodeRef) (nd : Node) :
  location root = [] -> wf_locations root ->
  node_at root p = Some nd ->
  first_of_name root p = true ->
  forallb plain (location nd) = true ->
  Node_getitem root d [] (join "/" (location nd)) = Ok (Some p).
Proof.
  intros Hroot Hwf Hat Hfirst Hplain.
  pose proof (location_along Hwf Hat) as Hloc. rewrite Hroot in Hloc. simpl in Hloc.
  unfold Node_getitem, getLocation. rewrite Hloc in *.
  destruct p as [|i p].
  - simpl. injection Hat as <-. reflexivity.
  - assert (Hne : names_along root (i :: p) <> []).
    { simpl in *. destruct (children root !! i); [discriminate|discriminate]. }
    rewrite split_join.
    + apply (@getLocation_loop_along root d [] (i :: p) [] root nd); auto.
    + exact Hne.
    + rewrite forallb_forall in Hplain. apply List.Forall_forall. intros x Hx.
      specialize (Hplain x Hx). unfold plain in Hplain.
      repeat (apply andb_true_iff in Hplain as [Hplain ?]).
      destruct (contains "/" x); [discriminate|reflexivity].
Qed.

End LocationFacts.

(** ** Cardinality at construction *)

Section InitFacts.

Context (dt : datatypes).

Lemma dict_pop_lookup (d : ValueChildren) k :
  List.NoDup (map fst d) ->
  default [] (fst (dict_pop k d)) = dict_lookup d k /\
  List.NoDup (map fst (snd (dict_pop k d))) /\
  forall k', dict_lookup (snd (dict_pop k d)) k'
             = if eqs k k' then [] else dict_lookup d k'.
Proof.
  unfold dict_lookup. induction d as [|[k0 v] d IH]; simpl; intros Hnd.
  - split; [reflexivity|]. split; [constructor|]. intros k'. now destruct (eqs k k').
  - inversion Hnd as [|? ? Hk0 Hnd']; subst.
    destruct (eqs k0 k) eqn:Hk.
    + apply eqs_true in Hk. subst k0. simpl. split; [reflexivity|]. split; [exact Hnd'|].
      intros k'. destruct (eqs k k') eqn:Hkk.
      * apply eqs_true in Hkk. subst k'.
        destruct (assoc k d) eqn:Ha; [|reflexivity].
        exfalso. apply Hk0. clear -Ha. induction d as [|[a b] d IH]; [discriminate|].
        simpl in *. destruct (eqs a k) eqn:E; [apply eqs_true in E; now left|right; auto].
      * reflexivity.
    + destruct (IH Hnd') as (H1 & H2 & H3).
      destruct (dict_pop k d) as [r d'] eqn:Hpop. simpl in *.
      split; [exact H1|]. split.
      * constructor; [|exact H2]. intros Hin. apply Hk0.
        clear -Hin Hpop. revert r d' Hpop Hin.
        induction d as [|[a b] d IH]; intros r d' Hpop Hin; simpl in *.
        -- injection Hpop as <- <-. destruct Hin.
        -- destruct (eqs a k).
           ++ injection Hpop as <- <-. now right.
           ++ destruct (dict_pop k d) as [r0 d0]. injection Hpop as <- <-.
              simpl in Hin. destruct Hin as [->|Hin]; [now left|right; eauto].
      * intros k'. destruct (eqs k0 k') eqn:Hk0k'.
        -- apply eqs_true in Hk0k'. subst k'. rewrite (eqs_sym k k0), Hk. reflexivity.
        -- apply H3.
Qed.

Lemma setdefault_append_keys k v (d : ValueChildren) :
  List.NoDup (map fst d) -> List.NoDup (map fst (setdefault_append k v d)).
Proof.
  induction d as [|[k0 l] d IH]; simpl; intros Hnd.
  - constructor; [intros []|constructor].
  - inversion Hnd as [|? ? Hk0 Hnd']; subst.
    destruct (eqs k0 k) eqn:Hk; simpl; [exact Hnd|].
    constructor; [|auto]. intros Hin. apply Hk0.
    clear -Hin Hk. induction d as [|[a b] d IH]; simpl in *.
    + destruct Hin as [->|[]]. rewrite eqs_refl in Hk. discriminate.
    + destruct (eqs a k); simpl in *; [exact Hin|].
      destruct Hin as [->|Hin]; [now left|right; auto].
Qed.

Lemma setdefault_append_lookup k v (d : ValueChildren) k' :
  dict_lookup (setdefault_append k v d) k'
  = if eqs k k' then dict_lookup d k' ++ [v] else dict_lookup d k'.
Proof.
  unfold dict_lookup. induction d as [|[k0 l] d IH]; simpl.
  - destruct (eqs k k'); reflexivity.
  - destruct (eqs k0 k) eqn:Hk; simpl.
    + apply eqs_true in Hk. subst k0. destruct (eqs k k'); reflexivity.
    + destruct (eqs k0 k') eqn:Hk'; [|exact IH].
      apply eqs_true in Hk'. subst k'.
      destruct (eqs k k0) eqn:Hkk; [|reflexivity].
      apply eqs_true in Hkk. subst. rewrite eqs_refl in Hk. discriminate.
Qed.

Lemma build_valuechildren_spec d valueroot :
  List.NoDup (map fst (build_valuechildren d valueroot)) /\
  forall name, dict_lookup (build_valuechildren d valueroot) name
               = entriesNamed d valueroot name.
Proof.
  unfold build_valuechildren, entriesNamed. destruct valueroot as [vr|].
  2: { split; [constructor|reflexivity]. }
  generalize (dom_childNodes d vr) as chs. intros chs.
  assert (H : forall acc, List.NoDup (map fst acc) ->
            List.NoDup (map fst (fold_left
              (fun acc ch => setdefault_append (dom_localName d ch) ch acc) chs acc)) /\
            forall name, dict_lookup (fold_left
              (fun acc ch => setdefault_append (dom_localName d ch) ch acc) chs acc) name
              = dict_lookup acc name
                ++ List.filter (fun ch => eqs (dom_localName d ch) name) chs).
  { induction chs as [|ch chs IH]; intros acc Hacc; simpl.
    - split; [exact Hacc|]. intros name. now rewrite app_nil_r.
    - destruct (IH _ (setdefault_append_keys (dom_localName d ch) ch Hacc)) as [H1 H2].
      split; [exact H1|]. intros name. rewrite H2, setdefault_append_lookup.
      destruct (eqs (dom_localName d ch) name); [|reflexivity].
      rewrite <- app_assoc. reflexivity. }
  destruct (H [] (List.NoDup_nil _)) as [H1 H2]. split; [exact H1|].
  intros name. rewrite H2. reflexivity.
Qed.

(** *** Construction only ever unlinks value entries and prints *)

Lemma shrinks_refl st : shrinks st st.
Proof.
  split; [intros q; apply incl_refl|]. split; [auto|].
  exists []. now rewrite app_nil_r.
Qed.

Lemma shrinks_trans st1 st2 st3 : shrinks st1 st2 -> shrinks st2 st3 -> shrinks st1 st3.
Proof.
  intros (H1 & N1 & [m1 E1]) (H2 & N2 & [m2 E2]). split; [|split].
  - intros q. eapply incl_tran; [apply H2|apply H1].
  - intros q Hq. apply N2, N1, Hq.
  - exists (m1 ++ m2). rewrite E2, E1, app_assoc. reflexivity.
Qed.

Lemma dom_update_childNodes d i f q :
  dom_childNodes (dom_update d i f) q
  = match d !! i with
    | Some e => if Nat.eqb i q then domChildren (f e) else dom_childNodes d q
    | None => dom_childNodes d q
    end.
Proof.
  unfold dom_update, dom_childNodes. destruct (d !! i) as [e|] eqn:Hi; [|reflexivity].
  destruct (Nat.eqb i q) eqn:Hq.
  - apply Nat.eqb_eq in Hq. subst q.
    rewrite list_lookup_insert_eq; [reflexivity|]. eapply lookup_lt_Some; eauto.
  - apply Nat.eqb_neq in Hq. rewrite list_lookup_insert_ne by exact Hq. reflexivity.
Qed.

Lemma dom_update_lookup_Some d i f j :
  is_Some (dom_update d i f !! j) <-> is_Some (d !! j).
Proof.
  unfold dom_update. destruct (d !! i) as [e|] eqn:Hi; [|tauto].
  rewrite !lookup_lt_is_Some, length_insert. tauto.
Qed.

Lemma remove_first_incl c l : incl (remove_first c l) l.
Proof.
  induction l as [|y l IH]; simpl; [apply incl_refl|].
  destruct (Nat.eqb c y); [apply incl_tl, incl_refl|].
  intros x [->|Hx]; [now left|right; apply IH, Hx].
Qed.

Lemma remove_first_NoDup c l : List.NoDup l -> List.NoDup (remove_first c l).
Proof.
  induction 1 as [|y l Hy Hl IH]; simpl; [constructor|].
  destruct (Nat.eqb c y); [exact Hl|]. constructor; [|exact IH].
  intros Hin. apply Hy. apply (remove_first_incl Hin).
Qed.

Lemma remove_first_gone c l : List.NoDup l -> ~ In c (remove_first c l).
Proof.
  induction 1 as [|y l Hy Hl IH]; simpl; [tauto|].
  destruct (Nat.eqb c y) eqn:E.
  - apply Nat.eqb_eq in E. now subst y.
  - apply Nat.eqb_neq in E. simpl. intros [->|Hin]; [congruence|auto].
Qed.

Lemma dom_update_childNodes_same d i f q :
  (forall e, domChildren (f e) = domChildren e) ->
  dom_childNodes (dom_update d i f) q = dom_childNodes d q.
Proof.
  intros Hf. rewrite dom_update_childNodes.
  destruct (d !! i) as [e|] eqn:Hi; [|reflexivity].
  destruct (Nat.eqb i q) eqn:Hq; [|reflexivity].
  apply Nat.eqb_eq in Hq. subst q. unfold dom_childNodes. rewrite Hi. apply Hf.
Qed.

Lemma removeChild_childNodes d p c d' :
  removeChild d p c = Ok d' ->
  forall q, dom_childNodes d' q
            = if Nat.eqb p q then remove_first c (dom_childNodes d p)
              else dom_childNodes d q.
Proof.
  unfold removeChild. destruct (memb c (dom_childNodes d p)) eqn:Hm; [|discriminate].
  intros H q. injection H as <-.
  rewrite dom_update_childNodes_same by reflexivity.
  rewrite dom_update_childNodes.
  unfold dom_childNodes in Hm |- *.
  destruct (d !! p) as [e|] eqn:He; [|discriminate]. simpl.
  reflexivity.
Qed.

Lemma removeChildren_dom_spec parent l : forall d r d',
  removeChildren_dom d parent l = (r, d') ->
  (forall q, incl (dom_childNodes d' q) (dom_childNodes d q)) /\
  (forall q, List.NoDup (dom_childNodes d q) -> List.NoDup (dom_childNodes d' q)) /\
  (forall dd, r = Ok dd -> List.NoDup (dom_childNodes d parent) ->
     forall v, In v l -> ~ In v (dom_childNodes d' parent)).
Proof.
  induction l as [|v l IH]; intros d r d' H; simpl in H.
  - injection H as <- <-. split; [intros q; apply incl_refl|]. split; [auto|].
    intros _ _ _ v [].
  - destruct (removeChild d parent v) as [d1|e] eqn:Hrm.
    + pose proof (removeChild_childNodes Hrm) as Hch.
      destruct (IH _ _ _ H) as (H1 & H2 & H3).
      assert (Hincl : forall q, incl (dom_childNodes d1 q) (dom_childNodes d q)).
      { intros q. rewrite Hch. destruct (Nat.eqb parent q) eqn:E; [|apply incl_refl].
        apply Nat.eqb_eq in E. subst q. apply remove_first_incl. }
      assert (Hnd : forall q, List.NoDup (dom_childNodes d q) ->
                              List.NoDup (dom_childNodes d1 q)).
      { intros q Hq. rewrite Hch. destruct (Nat.eqb parent q) eqn:E; [|exact Hq].
        apply Nat.eqb_eq in E. subst q. apply remove_first_NoDup, Hq. }
      split; [intros q; eapply incl_tran; [apply H1|apply Hincl]|].
      split; [intros q Hq; apply H2, Hnd, Hq|].
      intros dd Hr Hp x [<-|Hx].
      * intros Hin. apply H1 in Hin. rewrite Hch, Nat.eqb_refl in Hin.
        exact (remove_first_gone Hp Hin).
      * apply (H3 dd Hr (Hnd _ Hp) x Hx).
    + injection H as <- <-. split; [intros q; apply incl_refl|]. split; [auto|].
      intros dd Hdd. discriminate.
Qed.

Lemma enforce_occurs_spec vroot loc cur mn mx st r st' :
  enforce_occurs vroot loc cur mn mx st = (r, st') ->
  shrinks st st' /\
  forall l, r = Ok l ->
    l = map Some cur ++ replicate (Z.to_nat mn - length cur) None /\
    forall m, mx = Bounded m -> (m < Z.of_nat (length cur))%Z ->
      In (too_many_message loc (length cur) m) (snd st') /\
      forall vr v, vroot = Some vr -> List.NoDup (dom_childNodes (fst st) vr) ->
        In v (drop (Z.to_nat m) cur) -> ~ In v (dom_childNodes (fst st') vr).
Proof.
  unfold enforce_occurs. destruct st as [d out].
  destruct mx as [|m].
  - intros H. injection H as <- <-. split; [apply shrinks_refl|].
    intros l Hl. injection Hl as <-. split; [reflexivity|]. intros m Hm. discriminate.
  - destruct (Z.ltb m (Z.of_nat (length cur))) eqn:Hlt.
    + destruct vroot as [vr|].
      * destruct (removeChildren_dom d vr (drop (Z.to_nat m) cur)) as [rr d'] eqn:Hrm.
        destruct (removeChildren_dom_spec Hrm) as (H1 & H2 & H3).
        destruct rr as [dd|e]; simpl; intros H.
        -- injection H as <- <-. split.
           ++ split; [exact H1|]. split; [exact H2|]. simpl. eauto.
           ++ intros l Hl. injection Hl as <-. split; [reflexivity|].
              intros m' Hm' _. injection Hm' as <-. split.
              ** simpl. apply in_or_app. right. now left.
              ** intros vr' v Hvr Hnd Hv. injection Hvr as <-. simpl in *.
                 apply (H3 dd eq_refl Hnd v Hv).
        -- injection H as <- <-. split.
           ++ split; [exact H1|]. split; [exact H2|]. simpl. eauto.
           ++ intros l Hl. discriminate.
      * intros H. injection H as <- <-. split.
        -- split; [intros q; apply incl_refl|]. split; [auto|]. simpl. eauto.
        -- intros l Hl. discriminate.
    + intros H. injection H as <- <-. split; [apply shrinks_refl|].
      intros l Hl. injection Hl as <-. split; [reflexivity|].
      intros m' Hm' Hlt'. injection Hm' as <-. apply Z.ltb_ge in Hlt. lia.
Qed.

Lemma drop_unexpected_shrinks (cls : option (DataType dt)) vroot loc items :
  forall st r st',
  drop_unexpected cls vroot loc items st = (r, st') -> shrinks st st'.
Proof.
  induction items as [|[childid childnodes] items IH]; intros st r st' H; simpl in H.
  - injection H as <- <-. apply shrinks_refl.
  - destruct (negb (dt_classIsSimple dt cls)).
    + injection H as <- <-. apply shrinks_refl.
    + destruct st as [d out]. destruct vroot as [vr|].
      * destruct (removeChildren_dom d vr childnodes) as [rr d'] eqn:Hrm.
        destruct (removeChildren_dom_spec Hrm) as (H1 & H2 & _).
        assert (Hs : shrinks (d, out) (d', out ++ [unexpected_message childid loc])).
        { split; [exact H1|]. split; [exact H2|]. simpl. eauto. }
        destruct rr as [dd|e].
        -- eapply shrinks_trans; [exact Hs|]. eapply IH. exact H.
        -- injection H as <- <-. exact Hs.
      * injection H as <- <-. split; [intros q; apply incl_refl|].
        split; [auto|]. simpl. eauto.
Qed.

Lemma createChildren_spec create tc loc l :
  creates create tc ->
  forall chs st r st',
    createChildren (fun vc => create tc vc loc) l chs st = (r, st') ->
    shrinks st st' /\
    forall chs', r = Ok chs' ->
      exists g, chs' = chs ++ g /\ List.Forall2 (built tc loc) l g.
Proof.
  intros Hc. induction l as [|vc l IH]; intros chs st r st' H; simpl in H.
  - injection H as <- <-. split; [apply shrinks_refl|].
    intros chs' E. injection E as <-. exists []. split; [now rewrite app_nil_r|constructor].
  - destruct (create tc vc loc st) as [[child|e] st1] eqn:Hcr.
    + destruct (Hc _ _ _ _ _ Hcr) as [Hs Hb].
      destruct (IH _ _ _ _ H) as [Hs' Hg].
      split; [eapply shrinks_trans; eauto|].
      intros chs' E. destruct (Hg _ E) as [g [-> Hall]].
      exists (child :: g). split; [now rewrite <- app_assoc|].
      constructor; [apply Hb; reflexivity|exact Hall].
    + injection H as <- <-. destruct (Hc _ _ _ _ _ Hcr) as [Hs _].
      split; [exact Hs|]. intros chs' E. discriminate.
Qed.

Lemma matching_ext f g tcs : (forall k, f k = g k) -> matching f tcs = matching g tcs.
Proof.
  revert f g. induction tcs as [|tc tcs IH]; intros f g H; simpl; [reflexivity|].
  destruct (isElementNamed "element" tc); [|apply IH, H].
  rewrite H. f_equal. apply IH. intros k. now rewrite H.
Qed.

Lemma group_ok_persist vroot loc st1 st2 entry g :
  shrinks st1 st2 -> group_ok vroot loc st1 entry g -> group_ok vroot loc st2 entry g.
Proof.
  intros (Hincl & _ & [more Hout]) H. destruct entry as [tc cur].
  destruct H as (mn & mx & Hr & Ht & Hv & Hlen & Hm).
  exists mn, mx. split_and!; try assumption.
  intros m Hmx Hlt. destruct (Hm m Hmx Hlt) as [Hmsg Hgone]. split.
  - rewrite Hout. apply in_or_app. now left.
  - intros vr v Hvr Hin Hch. apply (Hgone vr v Hvr Hin). apply (Hincl vr _ Hch).
Qed.

Lemma children_distinct_shrinks vroot st st' :
  shrinks st st' -> children_distinct vroot st -> children_distinct vroot st'.
Proof.
  intros (_ & Hnd & _). unfold children_distinct. destruct vroot; [apply Hnd|auto].
Qed.

Lemma eachTemplateChild_spec create vroot loc tcs :
  List.Forall (creates create) tcs ->
  forall dict chb chs st r st',
    List.NoDup (map fst dict) -> children_distinct vroot st ->
    eachTemplateChild create vroot loc tcs dict chb chs st = (r, st') ->
    shrinks st st' /\
    forall dict' chb' chs', r = Ok (dict', chb', chs') ->
      exists groups,
        chs' = chs ++ concat groups /\
        List.Forall2 (group_ok vroot loc st') (matching (dict_lookup dict) tcs) groups.
Proof.
  induction 1 as [|tc tcs Htc Htcs IH]; intros dict chb chs st r st' Hnd Hdist H;
    simpl in H.
  - injection H as <- <-. split; [apply shrinks_refl|].
    intros dict' chb' chs' E. injection E as <- <- <-.
    exists []. split; [now rewrite app_nil_r|constructor].
  - simpl. destruct (isElementNamed "element" tc); [|eapply IH; eauto].
    destruct (dict_pop_lookup (getAttribute tc "name") Hnd) as (Hcur & Hnd1 & Hlook).
    destruct (dict_pop (getAttribute tc "name") dict) as [popped dict1]. simpl in *.
    destruct (read_occurs tc) as [[mn mx]|e] eqn:Hocc.
    2: { injection H as <- <-. split; [apply shrinks_refl|]. intros; discriminate. }
    destruct (enforce_occurs vroot (loc ++ [getAttribute tc "name"]) (default [] popped)
                             mn mx st) as [[l|e] st1] eqn:Henf.
    2: { injection H as <- <-. destruct (enforce_occurs_spec Henf) as [Hs _].
         split; [exact Hs|]. intros; discriminate. }
    destruct (enforce_occurs_spec Henf) as [Hs1 Hl].
    destruct (Hl l eq_refl) as [-> Hmax].
    match type of H with
    | context [createChildren ?a1 ?a2 ?a3 ?a4] =>
        destruct (createChildren a1 a2 a3 a4) as [[chs1|e] st2] eqn:Hcr
    end.
    2: { injection H as <- <-. destruct (createChildren_spec Htc Hcr) as [Hs2 _].
         split; [eapply shrinks_trans; eauto|]. intros; discriminate. }
    destruct (createChildren_spec Htc Hcr) as [Hs2 Hg].
    destruct (Hg _ eq_refl) as [g [-> Hbuilt]].
    assert (Hdist2 : children_distinct vroot st2).
    { eapply children_distinct_shrinks; [|exact Hdist]. eapply shrinks_trans; eauto. }
    destruct (IH _ _ _ _ _ _ Hnd1 Hdist2 H) as [Hs3 Hrest].
    split; [eapply shrinks_trans; [|exact Hs3]; eapply shrinks_trans; eauto|].
    intros dict' chb' chs' E. destruct (Hrest _ _ _ E) as [groups [-> Hgroups]].
    exists (g :: groups). split; [simpl; now rewrite <- app_assoc|].
    constructor.
    + apply group_ok_persist with st1; [eapply shrinks_trans; eauto|].
      assert (Hroots : map valueroot g
                = map Some (default [] popped)
                  ++ replicate (Z.to_nat mn - length (default [] popped)) None).
      { clear -Hbuilt. induction Hbuilt as [|vc n l g (Hv & _) _ IHb]; simpl;
          [reflexivity|]. rewrite Hv, IHb. reflexivity. }
      rewrite <- Hcur. exists mn, mx. split_and!.
      * exact Hocc.
      * clear -Hbuilt. induction Hbuilt as [|vc n l g (_ & Ht & _) _ IHb];
          constructor; assumption.
      * exact Hroots.
      * intros Hlt. apply (f_equal (@length _)) in Hroots.
        rewrite length_map, length_app, length_map, length_replicate in Hroots. lia.
      * intros m Hmx Hlt. destruct (Hmax m Hmx Hlt) as [Hmsg Hgone].
        split; [exact Hmsg|]. intros vr v Hvr Hin.
        apply (Hgone vr v Hvr); [|exact Hin].
        unfold children_distinct in Hdist. rewrite Hvr in Hdist. exact Hdist.
    + erewrite matching_ext; [exact Hgroups|]. intros k. symmetry. apply Hlook.
Qed.

Lemma Node_init_creates (customdatatypes : list (string * DataType dt)) (t : Xml) :
  creates (Node_init customdatatypes) t.
Proof.
  induction t as [name attrs chs IH] using Xml_ind.
  intros vc loc st r st' H.
  cbn [Node_init] in H.
  destruct (negb (hasAttribute (Element name attrs chs) "name")).
  { injection H as <- <-. split; [apply shrinks_refl|]. intros; discriminate. }
  cbn [childNodes] in H.
  match type of H with
  | context [eachTemplateChild ?a1 ?a2 ?a3 ?a4 ?a5 ?a6 ?a7 ?a8] =>
      destruct (eachTemplateChild a1 a2 a3 a4 a5 a6 a7 a8) as [rr st1] eqn:Hloop
  end.
  assert (Hs1 : shrinks st st1).
  { assert (Hok : forall l0, List.Forall (creates (Node_init customdatatypes)) l0 ->
      forall dict chb k s r0 s0,
        eachTemplateChild (Node_init customdatatypes) vc loc l0 dict chb k s = (r0, s0) ->
        shrinks s s0).
    { clear. induction 1 as [|tc tcs Htc _ IHl]; intros dict chb k s r0 s0 H; simpl in H.
      - injection H as <- <-. apply shrinks_refl.
      - destruct (isElementNamed "element" tc); [|eapply IHl; eauto].
        destruct (dict_pop _ dict) as [popped dict1].
        destruct (read_occurs tc) as [[mn mx]|e].
        2: { injection H as <- <-. apply shrinks_refl. }
        match type of H with
        | context [enforce_occurs ?a1 ?a2 ?a3 ?a4 ?a5 ?a6] =>
            destruct (enforce_occurs a1 a2 a3 a4 a5 a6) as [[l|e] s1] eqn:Henf
        end.
        2: { injection H as <- <-. apply (enforce_occurs_spec Henf). }
        match type of H with
        | context [createChildren ?a1 ?a2 ?a3 ?a4] =>
            destruct (createChildren a1 a2 a3 a4) as [[chs1|e] s2] eqn:Hcr
        end.
        2: { injection H as <- <-. eapply shrinks_trans;
             [apply (enforce_occurs_spec Henf)|apply (createChildren_spec Htc Hcr)]. }
        eapply shrinks_trans; [apply (enforce_occurs_spec Henf)|].
        eapply shrinks_trans; [apply (createChildren_spec Htc Hcr)|].
        eapply IHl; eauto. }
    eapply Hok; eauto. }
  destruct rr as [[[dict1 chb1] chs1]|e].
  2: { injection H as <- <-. split; [exact Hs1|]. intros; discriminate. }
  match type of H with
  | (match ?x with Ok _ => _ | Raise _ => _ end) = _ => destruct x as [[vn dict2]|e]
  end.
  2: { injection H as <- <-. split; [exact Hs1|]. intros; discriminate. }
  match type of H with
  | (let (_, _) := ?x in _) = _ => destruct x as [rr2 st2] eqn:Hdrop
  end.
  assert (Hs2 : shrinks st1 st2).
  { destruct dict2 as [|entry dict2]; [injection Hdrop as <- <-; apply shrinks_refl|].
    destruct (valueTypeClass customdatatypes (Element name attrs chs)) as [cls|e].
    - eapply drop_unexpected_shrinks; eauto.
    - injection Hdrop as <- <-. apply shrinks_refl. }
  destruct rr2 as [[]|e]; injection H as <- <-.
  - split; [eapply shrinks_trans; eauto|].
    intros n E. injection E as <-. repeat split.
  - split; [eapply shrinks_trans; eauto|]. intros; discriminate.
Qed.

(** C6. When [Node.__init__] returns, the children of the new node are, in
    schema order, the nodes built for each schema child from its matching
    value entries followed by placeholders without a value root, exactly as
    many as the entries fall short of [minOccurs] (none once [minOccurs] is
    reached), so that a child with fewer entries than [minOccurs] has exactly
    [minOccurs] nodes; and for a schema child with more entries than a finite
    [maxOccurs] the message has been printed and the entries beyond
    [maxOccurs] are no longer children of the value root when the
    construction ends. *)
Theorem Node_init_cardinality (customdatatypes : list (string * DataType dt))
    (templatenode : Xml) (valuenode : option DomId) (loc : list string)
    (st st' : InitState) (node : Node) :
  children_distinct valuenode st ->
  Node_init customdatatypes templatenode valuenode loc st = (Ok node, st') ->
  exists groups,
    children node = concat groups /\
    List.Forall2 (group_ok valuenode loc st')
      (matching (entriesNamed (fst st) valuenode) (childNodes templatenode)) groups.
Proof.
  intros Hdist H. destruct templatenode as [name attrs chs].
  cbn [Node_init] in H.
  destruct (negb (hasAttribute (Element name attrs chs) "name")); [discriminate|].
  cbn [childNodes] in H |- *.
  match type of H with
  | context [eachTemplateChild ?a1 ?a2 ?a3 ?a4 ?a5 ?a6 ?a7 ?a8] =>
      destruct (eachTemplateChild a1 a2 a3 a4 a5 a6 a7 a8) as [rr st1] eqn:Hloop
  end.
  destruct (build_valuechildren_spec (fst st) valuenode) as [Hkeys Hlook].
  assert (Hall : List.Forall (creates (Node_init customdatatypes)) chs).
  { apply List.Forall_forall. intros t _. apply Node_init_creates. }
  destruct (eachTemplateChild_spec Hall Hkeys Hdist Hloop) as [Hs1 Hgroups].
  destruct rr as [[[dict1 chb1] chs1]|e]; [|discriminate].
  destruct (Hgroups _ _ _ eq_refl) as [groups [-> Hok]].
  match type of H with
  | (match ?x with Ok _ => _ | Raise _ => _ end) = _ => destruct x as [[vn dict2]|e]
  end; [|discriminate].
  match type of H with
  | (let (_, _) := ?x in _) = _ => destruct x as [rr2 st2] eqn:Hdrop
  end.
  assert (Hs2 : shrinks st1 st2).
  { destruct dict2 as [|entry dict2]; [injection Hdrop as <- <-; apply shrinks_refl|].
    destruct (valueTypeClass customdatatypes (Element name attrs chs)) as [cls|e].
    - eapply drop_unexpected_shrinks; eauto.
    - injection Hdrop as <- <-. apply shrinks_refl. }
  destruct rr2 as [[]|e]; [|discriminate]. injection H as <- <-.
  exists groups. split; [reflexivity|].
  erewrite matching_ext; [|intros k; symmetry; apply Hlook].
  eapply List.Forall2_impl; [|exact Hok].
  intros entry g Hg. apply group_ok_persist with st1; assumption.
Qed.

End InitFacts.

(** ** Conditions on a target without a value *)

Section ConditionFacts.

Context (dt : datatypes).

Lemma getAttribute_hasAttribute x name :
  getAttribute x name <> "" -> hasAttribute x name = true.
Proof.
  unfold getAttribute, hasAttribute. destruct (assoc name (attributes x)); congruence.
Qed.

Lemma conditionTarget_variable (self owner home : TypedStore dt) cond ownernode target :
  conditionTarget self cond owner ownernode = Ok (home, target) ->
  hasAttribute cond "variable" = true.
Proof.
  unfold conditionTarget. intros H. apply getAttribute_hasAttribute.
  destruct (getAttribute cond "variable"); [discriminate|congruence].
Qed.

(** C2. A condition of type [eq] or [ne] whose target node resolves, in the
    store that evaluates the condition, to a node without a value of its own
    and without a default, is met: [checkCondition] returns [True].  (The
    [value] attribute is asserted before the target is looked at.) *)
Theorem checkCondition_target_without_value
    (self owner evaluator home : TypedStore dt) (nodeCondition : Xml)
    (ownernode target : NodeRef) (ownstorename : option string) :
  getAttribute nodeCondition "type" = "eq" \/ getAttribute nodeCondition "type" = "ne" ->
  hasAttribute nodeCondition "value" = true ->
  conditionStore self nodeCondition ownstorename = Some evaluator ->
  conditionTarget evaluator nodeCondition owner ownernode = Ok (home, target) ->
  getValue home target true = Ok None ->
  checkCondition self nodeCondition owner ownernode ownstorename = Ok true.
Proof.
  intros Htype Hvalue Hstore Htarget Hnone.
  assert (Hhas : hasAttribute nodeCondition "type" = true).
  { apply getAttribute_hasAttribute. destruct Htype as [-> | ->]; discriminate. }
  pose proof (conditionTarget_variable Htarget) as Hvar.
  destruct nodeCondition as [name attrs chs]. cbn [checkCondition].
  rewrite Hhas, Hstore. simpl negb. cbv iota.
  assert (Hcmp : eqs (getAttribute (Element name attrs chs) "type") "eq"
                 || eqs (getAttribute (Element name attrs chs) "type") "ne" = true).
  { destruct Htype as [-> | ->]; reflexivity. }
  rewrite Hcmp. unfold checkComparison. rewrite Hvar, Hvalue, Htarget. simpl.
  rewrite Hnone. reflexivity.
Qed.

End ConditionFacts.

(** ** What a call leaves alone *)

Section MutationFacts.

Context (dt : datatypes) (ut : util).

Abbreviation TypedStore := (TypedStore dt).
Abbreviation M := (M dt).

Implicit Types st : TypedStore.

Abbreviation preserves := (preserves (dt:=dt)).
Abbreviation only_asked := (only_asked (dt:=dt)).
Abbreviation same_values := (same_values (dt:=dt)).
Abbreviation same_schema := (same_schema (dt:=dt)).

Section Preserves.
Variable R : TypedStore -> TypedStore -> Prop.
Hypothesis R_refl : forall st, R st st.
Hypothesis R_trans : forall a b c, R a b -> R b c -> R a c.

Lemma preserves_ret {A} (a : A) : preserves R (ret a).
Proof. intros st r st' H. injection H as <- <-. apply R_refl. Qed.

Lemma preserves_raise {A} e : preserves R (@raise dt A e).
Proof. intros st r st' H. injection H as <- <-. apply R_refl. Qed.

Lemma preserves_lift {A} (f : TypedStore -> result A) : preserves R (lift f).
Proof. intros st r st' H. injection H as <- <-. apply R_refl. Qed.

Lemma preserves_gets {A} (f : TypedStore -> A) : preserves R (gets f).
Proof. intros st r st' H. injection H as <- <-. apply R_refl. Qed.

Lemma preserves_bind {A B} (m : M A) (k : A -> M B) :
  preserves R m -> (forall a, preserves R (k a)) -> preserves R (bind m k).
Proof.
  intros Hm Hk st r st' H. unfold bind in H.
  destruct (m st) as [[a|e] st1] eqn:Hrun.
  - eapply R_trans; [eapply Hm; eauto|eapply Hk; eauto].
  - injection H as <- <-. eapply Hm; eauto.
Qed.

Lemma preserves_for_each {A} (l : list A) (body : A -> M unit) :
  (forall a, preserves R (body a)) -> preserves R (for_each l body).
Proof.
  intros Hb. induction l as [|a l IH]; simpl; [apply preserves_ret|].
  apply preserves_bind; [apply Hb|intros _; exact IH].
Qed.

Lemma preserves_modify (f : TypedStore -> TypedStore) :
  (forall st, R st (f st)) -> preserves R (modify f).
Proof. intros Hf st r st' H. injection H as <- <-. apply Hf. Qed.
End Preserves.

(** *** Asking the interfaces changes the trace only *)

Lemma only_asked_refl st : only_asked st st.
Proof.
  exists []. split; [|constructor]. destruct st. unfold with_trace. simpl.
  now rewrite app_nil_r.
Qed.

Lemma only_asked_trans (a b c : TypedStore) : only_asked a b -> only_asked b c -> only_asked a c.
Proof.
  intros [m1 [-> H1]] [m2 [-> H2]]. exists (m1 ++ m2). split.
  - destruct a. unfold with_trace. simpl. now rewrite app_assoc.
  - apply List.Forall_app. split; assumption.
Qed.

Ltac frame_step R_refl R_trans :=
  first
    [ apply (preserves_ret R_refl)
    | apply (preserves_raise R_refl)
    | apply (preserves_lift R_refl)
    | apply (preserves_gets R_refl)
    | apply (preserves_bind R_trans); [|intros ?]
    | apply (preserves_for_each R_refl R_trans); intros ?
    | match goal with
      | |- preserves _ (match ?x with _ => _ end) => destruct x
      | |- preserves _ (if ?x then _ else _) => destruct x
      end ].

Lemma Interface_onBeforeChange_asks i node newvalue :
  preserves only_asked (Interface_onBeforeChange i node newvalue).
Proof.
  unfold Interface_onBeforeChange, the_interface, the_node.
  repeat frame_step only_asked_refl only_asked_trans.
  intros st r st' H. unfold call_handler in H. injection H as <- <-.
  exists [Called i "beforeChange" (BeforeChangeArgs node newvalue)].
  split; [reflexivity|]. constructor; [|constructor]. now exists i, (BeforeChangeArgs node newvalue).
Qed.

Lemma onBeforeChange_asks node newvalue :
  preserves only_asked (onBeforeChange node newvalue).
Proof.
  unfold onBeforeChange. apply (preserves_bind only_asked_trans);
    [apply (preserves_gets only_asked_refl)|].
  intros n. induction (seq 0 n) as [|i l IH]; simpl.
  - apply (preserves_ret only_asked_refl).
  - apply (preserves_bind only_asked_trans); [apply (preserves_gets only_asked_refl)|].
    intros blocked. destruct blocked; [exact IH|].
    apply (preserves_bind only_asked_trans); [apply Interface_onBeforeChange_asks|].
    intros allowed. destruct allowed; [exact IH|apply (preserves_ret only_asked_refl)].
Qed.

Lemma mapForeignNode_up_ext (f f' : TypedStore) names :
  root f' = root f -> xmldocument f' = xmldocument f ->
  forall cur idx, mapForeignNode_up f' names cur idx = mapForeignNode_up f names cur idx.
Proof.
  intros Hr Hd. induction names as [|name names IH]; intros cur idx; simpl; [reflexivity|].
  destruct cur as [p|]; [|reflexivity].
  unfold deref. rewrite Hr, Hd.
  destruct (node_at (root f) p) as [nd|]; simpl; [|reflexivity].
  match goal with
  | |- rbind ?x _ = rbind ?x _ => destruct x as [index|e]; simpl; [apply IH|reflexivity]
  end.
Qed.

Lemma getValue_ext (st st' : TypedStore) p usedefault :
  root st' = root st -> xmldocument st' = xmldocument st ->
  customdatatypes st' = customdatatypes st -> defaultstore st' = defaultstore st ->
  getValue st' p usedefault = getValue st p usedefault.
Proof.
  intros Hr Hd Hc Hdef. destruct st, st'. simpl in *. subst.
  cbn [getValue]. unfold deref, getValueTypeClass. simpl.
  destruct (node_at root0 p) as [nd|]; simpl; [|reflexivity].
  match goal with
  | |- rbind ?x _ = rbind ?x _ => destruct x as [[v|]|e]; simpl; try reflexivity
  end.
  destruct usedefault; [|reflexivity].
  destruct defaultstore0 as [defaults|]; [|reflexivity].
  unfold mapForeignNode, deref. simpl.
  destruct (node_at root0 p); simpl; [|reflexivity].
  rewrite (@mapForeignNode_up_ext
             (mkTypedStore schema0 customdatatypes0 interfaces0 blockedinterfaces0
                           otherstores0 (Some defaults) root0 xmldocument0 changed0
                           validnodes0 trace0)
             (mkTypedStore schema1 customdatatypes0 interfaces1 blockedinterfaces1
                           otherstores1 (Some defaults) root0 xmldocument0 changed1
                           validnodes1 trace1)) by reflexivity.
  reflexivity.
Qed.

Lemma getValue_with_trace (st : TypedStore) t p usedefault :
  getValue (with_trace st t) p usedefault = getValue st p usedefault.
Proof. apply getValue_ext; reflexivity. Qed.

Lemma only_asked_fields st st' :
  only_asked st st' ->
  root st' = root st /\ xmldocument st' = xmldocument st /\ changed st' = changed st /\
  interfaces st' = interfaces st /\ validnodes st' = validnodes st /\
  (forall p usedefault, getValue st' p usedefault = getValue st p usedefault) /\
  exists more, trace st' = trace st ++ more /\ List.Forall is_beforeChange more.
Proof.
  intros [more [-> Hmore]]. split_and!; try reflexivity.
  - intros p u. apply getValue_with_trace.
  - exists more. split; [reflexivity|exact Hmore].
Qed.

(** C4. When the interfaces deny a new value for a node (whose current
    value can be read, so that they are asked), [setValue] returns without
    an exception a result that is false; the node tree, the value document
    and the changed flag are as before, and nothing but [beforeChange]
    handlers has been called: no [afterChange] event. *)
Theorem setValue_denied (fuel : nat) (st st1 : TypedStore) (node : NodeRef) (nd : Node)
    (value : option (Value dt)) :
  node_at (root st) node = Some nd ->
  (forall v, value = Some v -> exists cur, getValue st node false = Ok cur) ->
  onBeforeChange node value st = (Ok false, st1) ->
  exists r st',
    setValue ut fuel node value st = (Ok r, st') /\
    truthy r = false /\
    root st' = root st /\ xmldocument st' = xmldocument st /\
    changed st' = changed st /\
    exists more, trace st' = trace st ++ more /\ List.Forall is_beforeChange more.
Proof.
  intros Hnode Hread Hdeny.
  pose proof (only_asked_fields (onBeforeChange_asks Hdeny))
    as (Hroot & Hdoc & Hch & _ & _ & _ & Htrace).
  assert (Hsame : exists more : list (LogEntry dt),
             trace st = trace st ++ more /\ List.Forall is_beforeChange more).
  { exists []. split; [now rewrite app_nil_r|constructor]. }
  destruct value as [v|].
  - destruct (Hread v eq_refl) as [cur Hcur].
    unfold setValue, bind, lift. rewrite Hcur.
    destruct (differs cur v).
    + rewrite Hdeny. exists (PyBool false), st1. split_and!; auto.
    + exists (PyBool false), st. split_and!; auto.
  - unfold setValue, clearValue, bind, the_node, lift, deref. rewrite Hnode.
    destruct (valuenode nd) as [vn|].
    2: { exists PyNone, st. split_and!; auto. }
    destruct (false && isReadOnly nd || bool_decide (parent_ref node = None)).
    { exists PyNone, st. split_and!; auto. }
    destruct (canHaveClones nd).
    { exists PyNone, st. split_and!; auto. }
    rewrite Hdeny. exists PyNone, st1. split_and!; auto.
Qed.

(** Setting the value a node already has: nothing is asked, nothing is
    written, nothing is reported. *)
Lemma setValue_same (fuel : nat) (st : TypedStore) (node : NodeRef) (cur v : Value dt) :
  getValue st node false = Ok (Some cur) -> dt_ne dt cur v = false ->
  setValue ut fuel node (Some v) st = (Ok (PyBool false), st).
Proof.
  intros Hcur Hne. unfold setValue, bind, lift. rewrite Hcur. simpl. rewrite Hne.
  reflexivity.
Qed.

(** *** Notifications leave the values alone *)

Lemma same_values_refl st : same_values st st.
Proof. repeat split. Qed.

Lemma same_values_trans a b c : same_values a b -> same_values b c -> same_values a c.
Proof. intros (H1 & H2 & H3) (K1 & K2 & K3). repeat split; congruence. Qed.

Lemma forget_visible_update b p : forall t,
  forget_visible (update_at (with_visible b) p t) = forget_visible t.
Proof.
  induction p as [|i p IH]; intros t; [destruct t; reflexivity|].
  simpl. destruct (children t !! i) as [c|] eqn:Hi; [|reflexivity].
  destruct t as [ctl tn vr vn loc chs vis grp]. simpl in *. f_equal.
  rewrite list_fmap_insert. change (map forget_visible chs) with (forget_visible <$> chs).
  rewrite IH. apply list_insert_id. rewrite list_lookup_fmap, Hi. reflexivity.
Qed.

Lemma node_at_forget p : forall t,
  node_at (forget_visible t) p = forget_visible <$> node_at t p.
Proof.
  induction p as [|i p IH]; intros t; [reflexivity|].
  destruct t as [ctl tn vr vn loc chs vis grp]. simpl.
  change (map forget_visible chs) with (forget_visible <$> chs).
  rewrite list_lookup_fmap. destruct (chs !! i) as [c|]; simpl; [apply IH|reflexivity].
Qed.

Lemma same_values_node st st' p nd :
  same_values st st' -> node_at (root st) p = Some nd ->
  exists nd', node_at (root st') p = Some nd' /\
              valuenode nd' = valuenode nd /\ templatenode nd' = templatenode nd.
Proof.
  intros (_ & _ & Hf) Hp.
  apply (f_equal (fun t => node_at t p)) in Hf. rewrite !node_at_forget, Hp in Hf.
  destruct (node_at (root st') p) as [nd'|]; [|discriminate].
  simpl in Hf. injection Hf as Hf. exists nd'. split; [reflexivity|].
  destruct nd, nd'. simpl in *. injection Hf. intros. subst. split; reflexivity.
Qed.

(** A relation between stores that no notification can leave: it holds
    across a change of the trace, of the changed flag, of the state of an
    interface and of the visibility of a node. *)
Section NotificationInvariant.
Variable R : TypedStore -> TypedStore -> Prop.
Hypothesis R_refl : forall st, R st st.
Hypothesis R_trans : forall a b c, R a b -> R b c -> R a c.
Hypothesis R_trace : forall st t, R st (with_trace st t).
Hypothesis R_changed : forall st b, R st (with_changed st b).
Hypothesis R_interfaces : forall st l, R st (with_interfaces st l).
Hypothesis R_visible :
  forall st p b, R st (with_root st (update_at (with_visible b) p (root st))).

Ltac frame_using known := repeat first [ known | frame_step R_refl R_trans ].

Lemma onBeforeChange_preserves node newvalue :
  preserves R (onBeforeChange node newvalue).
Proof.
  intros st r st' H. destruct (onBeforeChange_asks H) as [more [-> _]]. apply R_trace.
Qed.

Lemma call_handler_preserves i event h args :
  preserves R (call_handler (dt:=dt) i event h args).
Proof. intros st r st' H. injection H as <- <-. apply R_trace. Qed.

Lemma set_upcomingvizchange_preserves i v :
  preserves R (set_upcomingvizchange (dt:=dt) i v).
Proof.
  apply preserves_modify. intros st.
  destruct (interfaces st !! i); [apply R_interfaces|apply R_refl].
Qed.

Lemma notifyVisibility_preserves i event self node shownew showhide :
  preserves R (notifyVisibility i event self node shownew showhide).
Proof.
  unfold notifyVisibility, the_node.
  frame_using ltac:(apply call_handler_preserves).
Qed.

Lemma each_interface_preserves body :
  (forall i, preserves R (body i)) -> preserves R (each_interface (dt:=dt) body).
Proof. intros Hb. unfold each_interface. frame_using ltac:(apply Hb). Qed.

Lemma beforeVisibilityChange_preserves node visible showhide :
  preserves R (beforeVisibilityChange node visible showhide).
Proof.
  apply each_interface_preserves. intros i.
  unfold Interface_beforeVisibilityChange, the_interface, the_node.
  frame_using ltac:(first [ apply set_upcomingvizchange_preserves
                          | apply notifyVisibility_preserves ]).
Qed.

Lemma afterVisibilityChange_preserves node visible showhide :
  preserves R (afterVisibilityChange node visible showhide).
Proof.
  apply each_interface_preserves. intros i.
  unfold Interface_afterVisibilityChange, the_interface, the_node.
  frame_using ltac:(first [ apply set_upcomingvizchange_preserves
                          | apply notifyVisibility_preserves ]).
Qed.

Lemma updateVisibility_preserves self notify :
  preserves R (updateVisibility ut self notify).
Proof.
  assert (Hupd : forall b, preserves R (update_node (dt:=dt) self (with_visible b))).
  { intros b. apply preserves_modify. intros st. apply R_visible. }
  unfold updateVisibility, the_node.
  frame_using ltac:(first [ apply beforeVisibilityChange_preserves
                          | apply afterVisibilityChange_preserves
                          | apply Hupd ]).
Qed.

Lemma collectDependants_preserves onChange node ds :
  (forall n f, preserves R (onChange n f)) ->
  forall depnodes, preserves R (collectDependants (dt:=dt) onChange node ds depnodes).
Proof.
  intros Hon. induction ds as [|d ds IH]; intros depnodes; simpl;
    [apply (preserves_ret R_refl)|].
  unfold the_node. frame_using ltac:(first [ apply IH | apply Hon ]).
Qed.

Lemma onChange_preserves fuel : forall node feature,
  preserves R (onChange ut fuel node feature).
Proof.
  induction fuel as [|fuel IH]; intros node feature; simpl;
    [apply (preserves_raise R_refl)|].
  apply (preserves_bind R_trans).
  { apply preserves_modify. intros st. apply R_changed. }
  intros _. apply (preserves_bind R_trans).
  { apply each_interface_preserves. intros i.
    unfold Interface_onChange, the_interface, the_node.
    frame_using ltac:(apply call_handler_preserves). }
  intros _. unfold updateDependantNodes_with, the_node.
  frame_using ltac:(first [ apply collectDependants_preserves; exact IH
                          | apply updateVisibility_preserves ]).
Qed.
End NotificationInvariant.

Lemma onChange_same_values fuel node feature :
  preserves same_values (onChange ut fuel node feature).
Proof.
  apply onChange_preserves.
  - apply same_values_refl.
  - apply same_values_trans.
  - intros [] ?. repeat split.
  - intros [] ?. repeat split.
  - intros [] ?. repeat split.
  - intros [] p b. repeat split. apply forget_visible_update.
Qed.

(** A relation that holds across every change [setValue] can make: of the
    node tree and of the value document as well. *)
Section ValueInvariant.
Variable R : TypedStore -> TypedStore -> Prop.
Hypothesis R_refl : forall st, R st st.
Hypothesis R_trans : forall a b c, R a b -> R b c -> R a c.
Hypothesis R_trace : forall st t, R st (with_trace st t).
Hypothesis R_changed : forall st b, R st (with_changed st b).
Hypothesis R_interfaces : forall st l, R st (with_interfaces st l).
Hypothesis R_root : forall st r, R st (with_root st r).
Hypothesis R_document : forall st d, R st (with_xmldocument st d).

Ltac frame_using known := repeat first [ known | frame_step R_refl R_trans ].

Lemma onChange_preserves' fuel node feature :
  preserves R (onChange ut fuel node feature).
Proof. apply onChange_preserves; auto. Qed.

Lemma create_valueroots_preserves parents : forall found,
  preserves R (create_valueroots (dt:=dt) parents found).
Proof.
  induction parents as [|par parents IH]; intros found; simpl;
    [apply (preserves_ret R_refl)|].
  apply (preserves_bind R_trans); [apply (preserves_lift R_refl)|].
  intros nd. apply (preserves_bind R_trans); [apply (preserves_lift R_refl)|].
  intros name st r st' H. unfold createElementNS in H.
  eapply R_trans; [|eapply IH; exact H].
  eapply R_trans; [apply R_document|apply R_root].
Qed.

Lemma createValueNode_preserves self : preserves R (createValueNode (dt:=dt) self).
Proof.
  unfold createValueNode, the_node, update_node.
  frame_using ltac:(first [ apply create_valueroots_preserves
                          | apply preserves_modify; intros ?; apply R_root ]).
  intros st r st' H. unfold createElementNS in H. injection H as <- <-.
  eapply R_trans; [apply R_document|apply R_root].
Qed.

Lemma clearValue_preserves fuel self skipreadonly :
  preserves R (clearValue ut fuel self skipreadonly).
Proof.
  unfold clearValue, the_node, update_node.
  frame_using ltac:(first [ apply onBeforeChange_preserves; auto
                          | apply onChange_preserves'
                          | apply preserves_modify; intros ?;
                            first [ apply R_root | apply R_document ] ]).
Qed.

Lemma setValue_preserves fuel self value :
  preserves R (setValue ut fuel self value).
Proof.
  unfold setValue, the_node.
  frame_using ltac:(first [ apply onBeforeChange_preserves; auto
                          | apply onChange_preserves'
                          | apply clearValue_preserves
                          | apply createValueNode_preserves ]).
  intros st r st' H. destruct (dt_save dt _ (xmldocument st) _).
  injection H as <- <-. apply R_document.
Qed.
End ValueInvariant.

Lemma setValue_same_schema fuel self value :
  preserves same_schema (setValue ut fuel self value).
Proof.
  apply setValue_preserves.
  - intros st. repeat split.
  - intros a b c (H1 & H2 & H3) (K1 & K2 & K3). repeat split; congruence.
  - intros [] ?. repeat split.
  - intros [] ?. repeat split.
  - intros [] ?. repeat split.
  - intros [] ?. repeat split.
  - intros [] ?. repeat split.
Qed.

(** *** Changing one node in place *)

Lemma node_at_update f (Hf : forall n, children (f n) = children n) q :
  forall p t,
    match node_at t p with
    | None => node_at (update_at f q t) p = None
    | Some x =>
        exists x', node_at (update_at f q t) p = Some x' /\
                   scalars x' = if bool_decide (q = p) then scalars (f x) else scalars x
    end.
Proof.
  induction q as [|j q IH]; intros p t.
  - destruct p as [|i p]; simpl.
    + exists (f t). split; reflexivity.
    + rewrite Hf. destruct (children t !! i) as [c|]; [|reflexivity].
      destruct (node_at c p) as [x|]; [|reflexivity]. exists x. split; reflexivity.
  - simpl. destruct (children t !! j) as [c|] eqn:Hj.
    + destruct p as [|i p]; simpl.
      * eexists. split; reflexivity.
      * destruct (decide (i = j)) as [->|Hij].
        -- rewrite Hj. rewrite list_lookup_insert_eq by (eapply lookup_lt_Some; eauto).
           specialize (IH p c). destruct (node_at c p) as [x|]; [|exact IH].
           destruct IH as [x' [Hx' Hs]]. exists x'. split; [exact Hx'|].
           rewrite Hs. destruct (decide (q = p)) as [->|Hne].
           ++ rewrite !bool_decide_eq_true_2 by reflexivity. reflexivity.
           ++ rewrite !bool_decide_eq_false_2 by congruence. reflexivity.
        -- rewrite list_lookup_insert_ne by congruence.
           destruct (children t !! i) as [ci|]; [|reflexivity].
           destruct (node_at ci p) as [x|]; [|reflexivity].
           exists x. split; [reflexivity|].
           rewrite bool_decide_eq_false_2 by congruence. reflexivity.
    + destruct (node_at t p) as [x|] eqn:Hp; [|reflexivity].
      exists x. split; [reflexivity|].
      rewrite bool_decide_eq_false_2; [reflexivity|].
      intros <-. simpl in Hp. rewrite Hj in Hp. discriminate.
Qed.

Lemma length_dom_update d i f : length (dom_update d i f) = length d.
Proof. unfold dom_update. destruct (d !! i); [apply length_insert|reflexivity]. Qed.

Lemma length_appendChild d a b : length (appendChild d a b) = length d.
Proof. unfold appendChild. now rewrite !length_dom_update. Qed.

Lemma create_valueroots_kept self t parents : forall found st r st',
  kept self t st -> (forall x, node_at (root st) self = Some x -> valuenode x = None) ->
  create_valueroots parents found st = (r, st') ->
  customdatatypes st' = customdatatypes st /\ kept self t st' /\
  (forall x, node_at (root st') self = Some x -> valuenode x = None).
Proof.
  induction parents as [|par parents IH]; intros found st r st' Hk Hnone H; simpl in H.
  - injection H as <- <-. auto.
  - unfold bind, the_node, lift in H.
    destruct (deref st par) as [nd|e]; [|injection H as <- <-; auto].
    destruct (getId nd) as [name|e]; [|injection H as <- <-; auto].
    unfold createElementNS in H.
    match type of H with
    | create_valueroots _ _ ?s = _ =>
        assert (Hstep : customdatatypes s = customdatatypes st /\ kept self t s /\
                  (forall x, node_at (root s) self = Some x -> valuenode x = None))
    end.
    { split; [destruct st; reflexivity|].
      destruct Hk as (x & Hx & Ht & Hlive).
      pose proof (@node_at_update (with_valueroot (Some (length (xmldocument st))))
                    (fun n => eq_refl) par self (root st)) as Hupd.
      rewrite Hx in Hupd. destruct Hupd as (x' & Hx' & Hs).
      assert (Hroot : forall (s0 : TypedStore) d0 r0,
                 root (with_root (with_xmldocument s0 d0) r0) = r0)
        by (intros [] ? ?; reflexivity).
      assert (Hdoc : forall (s0 : TypedStore) d0 r0,
                 xmldocument (with_root (with_xmldocument s0 d0) r0) = d0)
        by (intros [] ? ?; reflexivity).
      split.
      - exists x'. rewrite Hroot, Hdoc. split; [exact Hx'|].
        rewrite length_appendChild, length_app. simpl.
        unfold scalars in Hs.
        destruct (bool_decide (par = self)); injection Hs as Hs1 Hs2 Hs3.
        + split; [congruence|]. intros i [Hi|Hi].
          * rewrite Hs2 in Hi. simpl in Hi. injection Hi as <-. lia.
          * rewrite Hs3 in Hi. simpl in Hi. specialize (Hlive i (or_intror Hi)). lia.
        + split; [congruence|]. intros i [Hi|Hi].
          * rewrite Hs2 in Hi. specialize (Hlive i (or_introl Hi)). lia.
          * rewrite Hs3 in Hi. specialize (Hlive i (or_intror Hi)). lia.
      - intros y Hy. rewrite Hroot in Hy. rewrite Hx' in Hy. injection Hy as <-.
        unfold scalars in Hs.
        destruct (bool_decide (par = self)); injection Hs as _ _ Hs3;
          rewrite Hs3; simpl; apply (Hnone x Hx). }
    destruct Hstep as (Hc & Hk' & Hnone').
    destruct (IH _ _ _ _ Hk' Hnone' H) as (Hc2 & Hk2 & Hn2).
    split; [congruence|]. split; assumption.
Qed.

Lemma createValueNode_kept self (st : TypedStore) r (st' : TypedStore) nd :
  node_at (root st) self = Some nd -> valuenode nd = None ->
  (forall i, valueroot nd = Some i -> i < length (xmldocument st)) ->
  createValueNode self st = (r, st') ->
  customdatatypes st' = customdatatypes st /\
  (r = Ok tt ->
   exists nd' vn, node_at (root st') self = Some nd' /\ valuenode nd' = Some vn /\
                  vn < length (xmldocument st') /\ templatenode nd' = templatenode nd).
Proof.
  intros Hnd Hvn Hlive H.
  unfold createValueNode, bind, the_node, lift, deref in H. rewrite Hnd, Hvn in H.
  destruct (negb (canHaveValue nd)).
  { injection H as <- <-. split; [reflexivity|discriminate]. }
  destruct (first_valueroot (root st) (self :: ancestors self) []) as [[found parents]|e]
    eqn:Hfirst in H.
  2: { injection H as <- <-. split; [reflexivity|discriminate]. }
  unfold gets in H.
  match type of H with
  | (if negb ?c then _ else _) _ = _ => destruct c
  end; simpl in H.
  2: { injection H as <- <-. split; [reflexivity|discriminate]. }
  destruct (create_valueroots parents found st) as [[lastroot|e] st1] eqn:Hcr.
  2: { injection H as <- <-.
       assert (Hk : kept self (templatenode nd) st).
       { exists nd. split; [exact Hnd|]. split; [reflexivity|].
         intros i [Hi|Hi]; [auto|congruence]. }
       destruct (create_valueroots_kept Hk (fun x Hx => ltac:(congruence)) Hcr) as [Hc _].
       split; [exact Hc|discriminate]. }
  assert (Hk : kept self (templatenode nd) st).
  { exists nd. split; [exact Hnd|]. split; [reflexivity|].
    intros i [Hi|Hi]; [auto|congruence]. }
  destruct (create_valueroots_kept Hk (fun x Hx => ltac:(congruence)) Hcr)
    as (Hc & (x & Hx & Ht & Hxlive) & Hxnone).
  rewrite Hx in H.
  destruct (valueroot x) as [ownroot|] eqn:Hown.
  2: { injection H as <- <-. split; [exact Hc|discriminate]. }
  destruct (canHaveValue x && canHaveChildren x).
  - destruct (getId x) as [name|e].
    2: { injection H as <- <-. split; [exact Hc|discriminate]. }
    unfold createElementNS in H. injection H as <- <-.
    split; [destruct st1; exact Hc|]. intros _.
    pose proof (@node_at_update (with_valuenode (Some (length (xmldocument st1))))
                  (fun n => eq_refl) self self (root st1)) as Hupd.
    rewrite Hx in Hupd. destruct Hupd as (x' & Hx' & Hs).
    rewrite bool_decide_eq_true_2 in Hs by reflexivity.
    unfold scalars in Hs. injection Hs as Hs1 Hs2 Hs3.
    exists x', (length (xmldocument st1)). destruct st1. simpl in *.
    split; [exact Hx'|]. split; [exact Hs3|].
    split; [rewrite length_appendChild, length_app; simpl; lia|congruence].
  - unfold update_node, modify in H. injection H as <- <-.
    split; [destruct st1; exact Hc|]. intros _.
    pose proof (@node_at_update (with_valuenode (Some ownroot))
                  (fun n => eq_refl) self self (root st1)) as Hupd.
    rewrite Hx in Hupd. destruct Hupd as (x' & Hx' & Hs).
    rewrite bool_decide_eq_true_2 in Hs by reflexivity.
    unfold scalars in Hs. injection Hs as Hs1 Hs2 Hs3.
    exists x', ownroot. destruct st1. simpl in *.
    split; [exact Hx'|]. split; [exact Hs3|].
    split; [apply Hxlive; now left|congruence].
Qed.

(** *** Set, then get *)

Lemma getValue_explicit (st : TypedStore) node nd vn cls :
  node_at (root st) node = Some nd -> valuenode nd = Some vn ->
  getValueTypeClass st nd = Ok (Some cls) ->
  forall v, dt_load dt cls (xmldocument st) vn (templatenode nd) = Ok (Some v) ->
  getValue st node false = Ok (Some v).
Proof.
  intros Hnd Hvn Hcls v Hload. destruct st. cbn [getValue]. unfold deref. simpl in *.
  rewrite Hnd. simpl. rewrite Hvn, Hcls. simpl. rewrite Hload. reflexivity.
Qed.

(** *** The order of a batch of dependants *)


Lemma collectDependants_order onChange node ds : forall depnodes st l st',
  collectDependants (dt:=dt) onChange node ds depnodes st = (Ok l, st') ->
  hidden_then_visible depnodes -> hidden_then_visible l.
Proof.
  induction ds as [|d ds IH]; intros depnodes st l st' H Hacc; simpl in H.
  - injection H as <- <-. exact Hacc.
  - destruct (firstchar (getAttribute d "path")) as [c|]; [|discriminate].
    unfold bind in H.
    match type of H with
    | match ?m st with _ => _ end = _ => destruct (m st) as [[refnode|e] s1]
    end; [|discriminate].
    unfold lift in H.
    destruct (Node_getitem (root s1) (xmldocument s1) refnode (getAttribute d "path"))
      as [[varnode|]|e]; try discriminate.
    destruct (eqs (getAttribute d "type") "visibility").
    + unfold the_node, lift in H. destruct (deref s1 varnode) as [vn|e]; [|discriminate].
      destruct Hacc as (h & v & -> & Hh & Hv).
      destruct (visible vn).
      * eapply IH; [exact H|]. exists h, (v ++ [(varnode, true)]).
        split; [now rewrite app_assoc|]. split; [exact Hh|].
        apply List.Forall_app. split; [exact Hv|]. constructor; [reflexivity|constructor].
      * eapply IH; [exact H|]. exists ((varnode, false) :: h), v.
        split; [reflexivity|]. split; [|exact Hv]. constructor; [reflexivity|exact Hh].
    + destruct (onChange varnode (getAttribute d "type") s1) as [[[]|e] s2]; [|discriminate].
      eapply IH; eauto.
Qed.

Lemma collectDependants_visibility_only onChange node ds :
  List.Forall (fun d => getAttribute d "type" = "visibility") ds ->
  forall depnodes st r st',
    collectDependants (dt:=dt) onChange node ds depnodes st = (r, st') ->
    st' = st /\
    forall l, r = Ok l ->
      forall p b, In (p, b) l ->
        In (p, b) depnodes \/ option_map visible (node_at (root st) p) = Some b.
Proof.
  induction 1 as [|d ds Hd _ IH]; intros depnodes st r st' H; simpl in H.
  - injection H as <- <-. split; [reflexivity|]. intros l E. injection E as <-. auto.
  - destruct (firstchar (getAttribute d "path")) as [c|];
      [|injection H as <- <-; split; [reflexivity|discriminate]].
    unfold bind in H.
    match type of H with
    | match ?m st with _ => _ end = _ =>
        assert (Hm : exists rr, m st = (rr, st))
    end.
    { destruct (negb (eqc c "/")); [|eexists; reflexivity].
      destruct (parent_ref node); eexists; reflexivity. }
    destruct Hm as [rr Hm]. rewrite Hm in H.
    destruct rr as [refnode|e]; [|injection H as <- <-; split; [reflexivity|discriminate]].
    unfold lift in H.
    destruct (Node_getitem (root st) (xmldocument st) refnode (getAttribute d "path"))
      as [[varnode|]|e];
      try (injection H as <- <-; split; [reflexivity|discriminate]).
    rewrite Hd in H. simpl in H.
    unfold the_node, lift, deref in H.
    destruct (node_at (root st) varnode) as [vn|] eqn:Hvn;
      [|injection H as <- <-; split; [reflexivity|discriminate]].
    destruct (visible vn) eqn:Hvis.
    + destruct (IH _ _ _ _ H) as [-> Hl]. split; [reflexivity|].
      intros l E p b Hin. destruct (Hl l E p b Hin) as [Hacc|Hst]; [|now right].
      apply in_app_or in Hacc as [Hacc|[Heq|[]]]; [now left|].
      injection Heq as <- <-. right. rewrite Hvn. simpl. now rewrite Hvis.
    + destruct (IH _ _ _ _ H) as [-> Hl]. split; [reflexivity|].
      intros l E p b Hin. destruct (Hl l E p b Hin) as [Hacc|Hst]; [|now right].
      destruct Hacc as [Heq|Hacc]; [|now left].
      injection Heq as <- <-. right. rewrite Hvn. simpl. now rewrite Hvis.
Qed.

(** *** A value above its maximum *)

Section ValidateFacts.

Variable performTest :
  Xml -> list NodeRef -> bool -> Z -> list NodeRef -> Report -> M Report.

Lemma buildSubsets_bounded st node nd usedefault v lo hi :
  bounded_above st node nd usedefault v lo hi ->
  buildSubsets st usedefault [node] (mkSubsets [] [] [] [] [])
  = Ok (mkSubsets [] [] [] [node] [node]).
Proof.
  intros B. simpl. unfold deref. rewrite (ba_node B). simpl.
  rewrite (ba_typed B). simpl. rewrite (ba_value B). simpl.
  rewrite (ba_cheap B), (ba_no_options B).
  rewrite !getAttribute_hasAttribute by (rewrite ?(ba_min B), ?(ba_max B); discriminate).
  reflexivity.
Qed.

Lemma checkBound_lower_ok fuel st node nd usedefault v lo hi repair r :
  bounded_above st node nd usedefault v lo hi ->
  checkBound ut fuel false usedefault repair node r st = (Ok r, st).
Proof.
  intros B. unfold checkBound, bind, the_node, lift, deref.
  rewrite (ba_node B), (ba_value B), (ba_min B), (ba_lo B), (ba_not_below B).
  reflexivity.
Qed.

(** C8, without repair: one error, the value is above the maximum, and the
    stored value stays. *)
Lemma validate_reports (fuel : nat) (st : TypedStore) (node : NodeRef) (nd : Node)
    (usedefault usehistory : bool) (v lo hi : Value dt) (text : string) :
  bounded_above st node nd usedefault v lo hi ->
  getText st nd 1 = Ok text ->
  exists st',
    validate ut performTest fuel (Some [node]) usedefault 0 usehistory st
    = (Ok [above_maximum_message text v hi], st') /\
    root st' = root st /\ xmldocument st' = xmldocument st /\
    getValue st' node usedefault = Ok (Some v).
Proof.
  intros B Htext.
  assert (Hrun : _validate ut performTest fuel [node] usedefault 0 usehistory st
                 = (Ok ([above_maximum_message text v hi], [(node, false)]), st)).
  { unfold _validate. unfold bind at 1. unfold gets at 1.
    unfold bind at 1. unfold lift at 1. rewrite (buildSubsets_bounded B).
    cbn [emptynodes customnodes selectnodes lboundnodes uboundnodes fold_report].
    unfold bind at 1. unfold ret at 1.
    unfold bind at 1. unfold gets at 1. cbn [List.filter fold_report].
    unfold bind at 1. unfold ret at 1.
    unfold bind at 1. unfold ret at 1.
    unfold bind at 1. unfold bind at 1.
    rewrite (checkBound_lower_ok fuel 0 _ B). unfold ret at 1.
    unfold bind at 1. unfold bind at 1.
    unfold checkBound at 1. unfold bind, the_node, lift, deref, gets, repairs, ret.
    rewrite (ba_node B), (ba_value B), (ba_max B), (ba_hi B), (ba_above B).
    simpl. rewrite Htext.
    unfold applyRules, bind, gets. rewrite (ba_no_rules B).
    unfold ret, invalid. simpl. rewrite bool_decide_eq_true_2 by reflexivity.
    reflexivity. }
  unfold validate. unfold bind at 1. unfold ret at 1. unfold bind at 1.
  rewrite Hrun. unfold bind. destruct usehistory.
  - eexists. split; [reflexivity|]. split_and!; try (destruct st; reflexivity).
    rewrite <- (ba_value B). apply getValue_ext; destruct st; reflexivity.
  - eexists. split; [reflexivity|]. split_and!; try reflexivity. exact (ba_value B).
Qed.

End ValidateFacts.

End MutationFacts.

(** ** What an interface lists *)

Section ListingFacts.

Context (dt : datatypes).
Implicit Types self : TypedStoreInterface dt.

Lemma listed_cons self node i rest :
  listed self node (i :: rest)
  = match children node !! i with
    | None => false
    | Some c =>
        (visible c || showhidden self) &&
        (if isGrouper self c then listed self c rest else bool_decide (rest = []))
    end.
Proof. reflexivity. Qed.

Lemma getChildren_listed self (node : Node) :
  forall p l, getChildren self node p = Ok l ->
  forall q, q ∈ l <-> exists r, q = p ++ r /\ listed self node r = true.
Proof.
  induction node as [node IH] using Node_ind. intros p l.
  destruct node as [ctl t vr vn loc chs vis grp]. simpl in IH.
  unfold getChildren; fold (@getChildren dt).
  destruct (assert_valid _) as [[]|e]; simpl; [|discriminate].
  match goal with
  | |- ?lg chs 0 [] = Ok l -> _ =>
      enough (H : forall i res l,
                lg chs i res = Ok l ->
                forall q, q ∈ l <->
                  q ∈ res \/
                  exists j c rest, chs !! j = Some c /\ q = p ++ (i + j) :: rest /\
                    (visible c || showhidden self) &&
                    (if isGrouper self c then listed self c rest
                     else bool_decide (rest = [])) = true)
  end.
  { intros Hl q. rewrite (H 0 [] l Hl q). split.
    - intros [Hin|(j & c & rest & Hj & -> & Hs)]; [inversion Hin|].
      exists (j :: rest). split; [reflexivity|]. rewrite listed_cons. simpl. rewrite Hj.
      exact Hs.
    - intros (r & -> & Hr). right. destruct r as [|j rest]; [discriminate|].
      rewrite listed_cons in Hr. simpl in Hr.
      destruct (chs !! j) as [c|] eqn:Hj; [|discriminate].
      exists j, c, rest. auto. }
  clear l. induction chs as [|c chs IHchs]; intros i res l Hl q.
  { inversion Hl; subst. split; [auto|].
    intros [H|(j & c & rest & Hj & _)]; [exact H|]. rewrite lookup_nil in Hj. discriminate. }
  apply Forall_cons in IH as [Hc IH].
  assert (Hshift : forall (P : nat -> Node -> NodeRef -> Prop),
            (exists j c' rest, (c :: chs) !! j = Some c' /\ P j c' rest) <->
            (exists rest, P 0 c rest) \/
            (exists j c' rest, chs !! j = Some c' /\ P (S j) c' rest)).
  { intros P. split.
    - intros (j & c' & rest & Hj & HP). destruct j as [|j]; simpl in Hj.
      + inversion Hj; subst. left. eauto.
      + right. eauto.
    - intros [(rest & HP)|(j & c' & rest & Hj & HP)].
      + exists 0, c, rest. auto.
      + exists (S j), c', rest. auto. }
  rewrite (Hshift (fun j c' rest => q = p ++ (i + j) :: rest /\
             (visible c' || showhidden self) &&
             (if isGrouper self c' then listed self c' rest
              else bool_decide (rest = [])) = true)).
  clear Hshift. rewrite Nat.add_0_r.
  destruct (visible c || showhidden self) eqn:Hshown; simpl.
  - destruct (isGrouper self c) eqn:Hg.
    + destruct (getChildren self c (p ++ [i])) as [sub|e] eqn:Hsub; simpl in Hl;
        [|discriminate].
      rewrite (IHchs IH (S i) (res ++ sub) l Hl).
      rewrite elem_of_app, (Hc (p ++ [i]) sub Hsub q).
      setoid_rewrite <- Nat.add_succ_comm.
      split.
      * intros [[H|(r & -> & Hr)]|H]; auto.
        right. left. exists r. rewrite <- app_assoc. auto.
      * intros [H|[(rest & -> & Hr)|H]]; auto.
        left. right. exists rest. rewrite <- app_assoc. auto.
    + rewrite (IHchs IH (S i) (res ++ [p ++ [i]]) l Hl).
      rewrite elem_of_app, list_elem_of_singleton.
      setoid_rewrite <- Nat.add_succ_comm.
      split.
      * intros [[H| ->]|H]; auto.
        right. left. exists []. split; [reflexivity|]. apply bool_decide_eq_true_2. reflexivity.
      * intros [H|[(rest & -> & Hr)|H]]; auto.
        apply bool_decide_eq_true_1 in Hr. subst. auto.
  - rewrite (IHchs IH (S i) res l Hl).
    setoid_rewrite <- Nat.add_succ_comm.
    split.
    + intros [H|H]; auto.
    + intros [H|[(rest & _ & Hr)|H]]; auto. discriminate.
Qed.

(** X1. [getChildren] lists the children that the interface shows, in
    place of a grouper what it lists for the grouper: a node is in the list
    exactly if it lies below the node asked for, every node on the way
    down to it is shown (visible, or the interface shows the hidden ones),
    all nodes strictly between are groupers, and it is none itself. *)
Theorem getChildren_lists_shown_children self (node : Node) (p : NodeRef)
    (l : list NodeRef) :
  getChildren self node p = Ok l ->
  forall q, q ∈ l <-> exists r, q = p ++ r /\ listed self node r = true.
Proof. apply getChildren_listed. Qed.

End ListingFacts.

(** ** The child at an index *)

Section IndexFacts.

Context (dt : datatypes).
Implicit Types self : TypedStoreInterface dt.

Lemma getChildren_eq self node p :
  getChildren self node p
  = let? _ := assert_valid node in listLoop self p (children node) 0 [].
Proof. destruct node. reflexivity. Qed.

Lemma getChildByIndex_eq self node p index returnindex :
  getChildByIndex self node p index returnindex
  = let? _ := assert_valid node in indexLoop self p returnindex (children node) 0 index.
Proof. destruct node. reflexivity. Qed.

Lemma listLoop_acc self p chs : forall i res,
  listLoop self p chs i res = rmap (app res) (listLoop self p chs i []).
Proof.
  induction chs as [|c chs IH]; intros i res; simpl.
  - now rewrite app_nil_r.
  - destruct (visible c || showhidden self); [|apply IH].
    destruct (isGrouper self c).
    + destruct (getChildren self c (p ++ [i])) as [sub|e]; simpl; [|reflexivity].
      rewrite (IH (S i) (res ++ sub)), (IH (S i) sub).
      destruct (listLoop self p chs (S i) []); simpl; [|reflexivity].
      now rewrite app_assoc.
    + rewrite (IH (S i) (res ++ _)), (IH (S i) [_]).
      destruct (listLoop self p chs (S i) []); simpl; [|reflexivity].
      now rewrite <- app_assoc.
Qed.

Lemma at_index_app_l {A} (l m : list A) index q :
  at_index l index = Some q -> at_index (l ++ m) index = Some q.
Proof.
  unfold at_index. destruct (index <? 0)%Z; [discriminate|].
  intros H. rewrite lookup_app_l; [exact H|]. eapply lookup_lt_Some, H.
Qed.

Lemma at_index_app_r {A} (l m : list A) index :
  at_index l index = None ->
  at_index (l ++ m) index = at_index m (index - Z.of_nat (length l)).
Proof.
  unfold at_index. destruct (index <? 0)%Z eqn:Hneg.
  - intros _. apply Z.ltb_lt in Hneg.
    destruct (index - Z.of_nat (length l) <? 0)%Z eqn:H; [reflexivity|].
    apply Z.ltb_ge in H. lia.
  - intros H. apply Z.ltb_ge in Hneg. apply lookup_ge_None in H.
    destruct (index - Z.of_nat (length l) <? 0)%Z eqn:H'.
    + apply Z.ltb_lt in H'. lia.
    + rewrite lookup_app_r by exact H. f_equal. lia.
Qed.

Lemma pick_app (sub more : list NodeRef) index returnindex :
  pick (sub ++ more) index returnindex
  = match pick sub index true with
    | Remaining index => pick more index returnindex
    | found => found
    end.
Proof.
  unfold pick. destruct (at_index sub index) as [q|] eqn:Hsub.
  - now rewrite (at_index_app_l more Hsub).
  - rewrite (at_index_app_r more Hsub), length_app, Nat2Z.inj_add.
    replace (index - Z.of_nat (length sub) - Z.of_nat (length more))%Z
      with (index - (Z.of_nat (length sub) + Z.of_nat (length more)))%Z by lia.
    reflexivity.
Qed.

Lemma pick_single (x : NodeRef) index :
  index <> 0%Z -> pick [x] index true = Remaining (index - 1).
Proof.
  intros H0. unfold pick, at_index. destruct (index <? 0)%Z eqn:Hneg; simpl.
  - reflexivity.
  - apply Z.ltb_ge in Hneg. destruct (Z.to_nat index) as [|k] eqn:Hk; [lia|]. reflexivity.
Qed.

Lemma getChildByIndex_pick self (node : Node) :
  forall p l index returnindex,
    getChildren self node p = Ok l ->
    getChildByIndex self node p index returnindex = Ok (pick l index returnindex).
Proof.
  induction node as [node IH] using Node_ind. intros p l index returnindex.
  rewrite getChildren_eq, getChildByIndex_eq.
  destruct (assert_valid node) as [[]|e]; simpl; [|discriminate].
  revert l index. generalize 0.
  induction (children node) as [|c chs IHchs]; intros i l index Hl; simpl in *.
  - inversion Hl; subst. unfold pick, at_index. rewrite lookup_nil.
    destruct (index <? 0)%Z; simpl; now rewrite Z.sub_0_r.
  - apply Forall_cons in IH as [Hc IH]. specialize (IHchs IH).
    destruct (visible c || showhidden self); [|auto].
    destruct (isGrouper self c).
    + destruct (getChildren self c (p ++ [i])) as [sub|e] eqn:Hsub; simpl in Hl;
        [|discriminate].
      rewrite (Hc _ _ index true Hsub). simpl.
      rewrite listLoop_acc in Hl.
      destruct (listLoop self p chs (S i) []) as [more|e] eqn:Hmore; simpl in Hl;
        [|discriminate].
      inversion Hl; subst. rewrite pick_app.
      destruct (pick sub index true); try reflexivity.
      apply IHchs. exact Hmore.
    + rewrite listLoop_acc in Hl.
      destruct (listLoop self p chs (S i) []) as [more|e] eqn:Hmore; simpl in Hl;
        [|discriminate].
      inversion Hl; subst.
      change ((p ++ [i]) :: more) with ([p ++ [i]] ++ more). rewrite pick_app.
      destruct (index =? 0)%Z eqn:H0.
      * apply Z.eqb_eq in H0. subst. reflexivity.
      * apply Z.eqb_neq in H0. rewrite (pick_single _ H0).
        apply IHchs. exact Hmore.
Qed.

(** X2. [getChildByIndex(node, index)] returns the entry of [getChildren(node)]
    at [index], and [None] when the index is negative or not below the
    number of children listed. *)
Theorem getChildByIndex_is_entry_of_getChildren self (node : Node) (p : NodeRef)
    (l : list NodeRef) (index : Z) :
  getChildren self node p = Ok l ->
  getChildByIndex self node p index false
  = Ok (match at_index l index with Some q => FoundChild q | None => NoChild end).
Proof.
  intros Hl. rewrite (getChildByIndex_pick index false Hl). reflexivity.
Qed.

End IndexFacts.

(** ** The index of a node among what its parent lists *)

Section OwnIndexFacts.

Context (dt : datatypes).
Implicit Types self : TypedStoreInterface dt.

Lemma getOwnIndex_up_cons self root own rpar :
  getOwnIndex_up self root (own :: rpar)
  = match node_at root (rev (own :: rpar)) with
    | None => Raise AttributeError
    | Some node =>
        let? _ := assert_valid node in
        match node_at root (rev rpar) with
        | None => Raise AttributeError
        | Some par =>
            let? ind := (if isGrouper self par then getOwnIndex_up self root rpar
                         else Ok 0) in
            ownLoop self own (children par) 0 ind
        end
    end.
Proof. reflexivity. Qed.

Lemma listLoop_snoc_hidden self p pre c i before :
  listLoop self p pre i [] = Ok before ->
  visible c || showhidden self = false ->
  listLoop self p (pre ++ [c]) i [] = Ok before.
Proof.
  revert i before. induction pre as [|x pre IH]; intros i before H Hc; simpl in *.
  - inversion H; subst. rewrite Hc. reflexivity.
  - destruct (visible x || showhidden self); [|auto].
    destruct (isGrouper self x).
    + destruct (getChildren self x (p ++ [i])) as [sub|e]; simpl in *; [|discriminate].
      rewrite listLoop_acc in H |- *.
      destruct (listLoop self p pre (S i) []) as [m|e] eqn:Hm; simpl in H; [|discriminate].
      rewrite (IH _ _ Hm Hc). exact H.
    + rewrite listLoop_acc in H |- *.
      destruct (listLoop self p pre (S i) []) as [m|e] eqn:Hm; simpl in H; [|discriminate].
      rewrite (IH _ _ Hm Hc). exact H.
Qed.

Lemma listLoop_snoc self p pre c i before :
  listLoop self p pre i [] = Ok before ->
  visible c || showhidden self = true ->
  listLoop self p (pre ++ [c]) i []
  = if isGrouper self c then
      let? sub := getChildren self c (p ++ [i + length pre]) in Ok (before ++ sub)
    else Ok (before ++ [p ++ [i + length pre]]).
Proof.
  revert i before. induction pre as [|x pre IH]; intros i before H Hc; simpl in *.
  - inversion H; subst. rewrite Hc, Nat.add_0_r.
    destruct (isGrouper self c); [|reflexivity].
    destruct (getChildren self c (p ++ [i])); reflexivity.
  - replace (i + S (length pre)) with (S i + length pre) by lia.
    destruct (visible x || showhidden self); [|auto].
    destruct (isGrouper self x).
    + destruct (getChildren self x (p ++ [i])) as [sub|e]; simpl in *; [|discriminate].
      rewrite listLoop_acc in H |- *.
      destruct (listLoop self p pre (S i) []) as [m|e] eqn:Hm; simpl in H; [|discriminate].
      inversion H; subst. rewrite (IH _ _ Hm Hc).
      destruct (isGrouper self c); simpl; [|now rewrite app_assoc].
      destruct (getChildren self c _); simpl; [|reflexivity]. now rewrite app_assoc.
    + rewrite listLoop_acc in H |- *.
      destruct (listLoop self p pre (S i) []) as [m|e] eqn:Hm; simpl in H; [|discriminate].
      inversion H; subst. rewrite (IH _ _ Hm Hc).
      destruct (isGrouper self c); simpl; [|reflexivity].
      destruct (getChildren self c _); reflexivity.
Qed.

(** The siblings before the node add what the interface lists for them. *)
Lemma ownLoop_skip self p own pre : forall rest isib ind before,
  isib + length pre <= own ->
  listLoop self p pre isib [] = Ok before ->
  ownLoop self own (pre ++ rest) isib ind
  = ownLoop self own rest (isib + length pre) (ind + length before).
Proof.
  induction pre as [|x pre IH]; intros rest isib ind before Hle H; simpl in *.
  - inversion H; subst. simpl. now rewrite !Nat.add_0_r.
  - destruct (Nat.eqb_spec isib own) as [->|_]; [lia|].
    replace (isib + S (length pre)) with (S isib + length pre) by lia.
    destruct (visible x || showhidden self).
    + destruct (isGrouper self x).
      * rewrite (getChildCount_length self x (p ++ [isib])).
        destruct (getChildren self x (p ++ [isib])) as [sub|e]; simpl in *; [|discriminate].
        rewrite listLoop_acc in H.
        destruct (listLoop self p pre (S isib) []) as [m|e] eqn:Hm; simpl in H;
          [|discriminate].
        inversion H; subst. rewrite (IH rest (S isib) _ m) by (lia || exact Hm).
        rewrite length_app. f_equal. lia.
      * rewrite listLoop_acc in H.
        destruct (listLoop self p pre (S isib) []) as [m|e] eqn:Hm; simpl in H;
          [|discriminate].
        inversion H; subst. rewrite (IH rest (S isib) _ m) by (lia || exact Hm).
        simpl. f_equal. lia.
    + apply IH; [lia|exact H].
Qed.

(** The own index of the child after [pre] among the children of the node
    at [p]. *)
Lemma getOwnIndex_child self root p node pre c rest before :
  node_at root p = Some node -> children node = pre ++ c :: rest ->
  isValid c = true ->
  listLoop self p pre 0 [] = Ok before ->
  getOwnIndex_up self root (length pre :: rev p)
  = let? base := (if isGrouper self node then getOwnIndex_up self root (rev p)
                  else Ok 0) in
    Ok (base + length before).
Proof.
  intros Hp Hch Hv Hpre. rewrite getOwnIndex_up_cons. simpl rev. rewrite rev_involutive.
  assert (Hc : node_at root (p ++ [length pre]) = Some c).
  { rewrite node_at_app, Hp. simpl. rewrite Hch.
    rewrite lookup_app_r by lia. now rewrite Nat.sub_diag. }
  rewrite Hc, Hp. unfold assert_valid. rewrite Hv. simpl.
  destruct (if isGrouper self node then getOwnIndex_up self root (rev p) else Ok 0)
    as [base|e]; simpl; [|reflexivity].
  rewrite Hch, (ownLoop_skip (p:=p) (c :: rest) base (before:=before)) by (simpl; lia || exact Hpre).
  simpl. now rewrite Nat.eqb_refl.
Qed.

Lemma getOwnIndex_listed self root (node : Node) :
  forall p l k q nq,
    node_at root p = Some node ->
    getChildren self node p = Ok l -> l !! k = Some q ->
    node_at root q = Some nq -> isValid nq = true ->
    getOwnIndex_up self root (rev q)
    = let? base := (if isGrouper self node then getOwnIndex_up self root (rev p)
                    else Ok 0) in
      Ok (base + k).
Proof.
  induction node as [node IH] using Node_ind. intros p l k q nq Hp Hl Hk Hq Hv.
  rewrite getChildren_eq in Hl.
  destruct (assert_valid node) as [[]|e]; simpl in Hl; [|discriminate].
  enough (H : forall chs pre before l' k',
             children node = pre ++ chs ->
             listLoop self p pre 0 [] = Ok before ->
             listLoop self p chs (length pre) [] = Ok l' ->
             l' !! k' = Some q ->
             getOwnIndex_up self root (rev q)
             = let? base := (if isGrouper self node
                             then getOwnIndex_up self root (rev p) else Ok 0) in
               Ok (base + (length before + k'))).
  { exact (H (children node) [] [] l k eq_refl eq_refl Hl Hk). }
  clear l k Hl Hk.
  induction chs as [|c chs IHchs]; intros pre before l' k' Hch Hpre Hl Hk; simpl in Hl.
  { inversion Hl; subst. rewrite lookup_nil in Hk. discriminate. }
  assert (Hin : c ∈ children node) by (rewrite Hch; apply list_elem_of_In, in_elt).
  assert (Hnext : children node = (pre ++ [c]) ++ chs) by (rewrite <- app_assoc; exact Hch).
  assert (Hlen : length (pre ++ [c]) = S (length pre)) by (rewrite length_app; simpl; lia).
  destruct (visible c || showhidden self) eqn:Hshown.
  - pose proof (listLoop_snoc (c:=c) Hpre Hshown) as Hsnoc. simpl in Hsnoc.
    destruct (isGrouper self c) eqn:Hg.
    + destruct (getChildren self c (p ++ [length pre])) as [sub|e] eqn:Hsub; simpl in Hl;
        [|discriminate].
      rewrite listLoop_acc in Hl.
      destruct (listLoop self p chs (S (length pre)) []) as [more|e] eqn:Hmore;
        simpl in Hl; [|discriminate].
      inversion Hl; subst l'. simpl in Hsnoc.
      destruct (decide (k' < length sub)) as [Hlt|Hge].
      * rewrite lookup_app_l in Hk by exact Hlt.
        assert (Hcv : isValid c = true).
        { rewrite getChildren_eq in Hsub. unfold assert_valid in Hsub.
          destruct (isValid c); [reflexivity|discriminate]. }
        assert (Hc : node_at root (p ++ [length pre]) = Some c).
        { rewrite node_at_app, Hp. simpl. rewrite Hch.
          rewrite lookup_app_r by lia. now rewrite Nat.sub_diag. }
        rewrite Forall_forall in IH.
        rewrite (IH c Hin (p ++ [length pre]) sub k' q nq Hc Hsub Hk Hq Hv).
        rewrite Hg, rev_unit.
        rewrite (getOwnIndex_child Hp Hch Hcv Hpre).
        destruct (if isGrouper self node then getOwnIndex_up self root (rev p) else Ok 0);
          simpl; [|reflexivity].
        f_equal. lia.
      * rewrite lookup_app_r in Hk by lia.
        rewrite (IHchs (pre ++ [c]) (before ++ sub) more (k' - length sub) Hnext)
          by (rewrite ?Hlen; assumption).
        destruct (if isGrouper self node then getOwnIndex_up self root (rev p) else Ok 0);
          simpl; [|reflexivity].
        rewrite length_app. f_equal. lia.
    + rewrite listLoop_acc in Hl.
      destruct (listLoop self p chs (S (length pre)) []) as [more|e] eqn:Hmore;
        simpl in Hl; [|discriminate].
      inversion Hl; subst l'.
      destruct k' as [|k']; simpl in Hk.
      * inversion Hk; subst q. rewrite rev_unit.
        assert (Hc : node_at root (p ++ [length pre]) = Some c).
        { rewrite node_at_app, Hp. simpl. rewrite Hch.
          rewrite lookup_app_r by lia. now rewrite Nat.sub_diag. }
        rewrite Hc in Hq. inversion Hq; subst nq.
        rewrite (getOwnIndex_child Hp Hch Hv Hpre).
        destruct (if isGrouper self node then getOwnIndex_up self root (rev p) else Ok 0);
          simpl; [|reflexivity].
        f_equal. lia.
      * rewrite (IHchs (pre ++ [c]) (before ++ [p ++ [length pre]]) more k' Hnext)
          by (rewrite ?Hlen; assumption).
        destruct (if isGrouper self node then getOwnIndex_up self root (rev p) else Ok 0);
          simpl; [|reflexivity].
        rewrite length_app. simpl. f_equal. lia.
  - pose proof (listLoop_snoc_hidden (c:=c) Hpre Hshown) as Hsnoc.
    rewrite (IHchs (pre ++ [c]) before l' k' Hnext) by (rewrite ?Hlen; assumption).
    reflexivity.
Qed.

(** X3. For a node that is not a grouper, what [getChildren] lists at position
    [k] has [k] as its own index. *)
Theorem getOwnIndex_of_listed_child self (root node : Node) (p : NodeRef)
    (l : list NodeRef) (k : nat) (q : NodeRef) (nq : Node) :
  node_at root p = Some node -> isGrouper self node = false ->
  getChildren self node p = Ok l -> l !! k = Some q ->
  node_at root q = Some nq -> isValid nq = true ->
  getOwnIndex self root q = Ok k.
Proof.
  intros Hp Hg Hl Hk Hq Hv. unfold getOwnIndex.
  rewrite (getOwnIndex_listed Hp Hl Hk Hq Hv), Hg. reflexivity.
Qed.

End OwnIndexFacts.

(** ** The nodes of a tree *)

Section TreeFacts.

Context (dt : datatypes).

Lemma isHidden_from_app t p q :
  isHidden_from t p = true -> isHidden_from t (p ++ q) = true.
Proof.
  revert t. induction p as [|i p IH]; intros t; simpl.
  - rewrite orb_false_r. intros H. destruct q; simpl; rewrite H; reflexivity.
  - destruct (visible t); simpl; [|reflexivity].
    destruct (children t !! i); [apply IH|discriminate].
Qed.

Lemma isHidden_from_prefix t p :
  isHidden_from t p = true <->
  exists p1 p2 n, p = p1 ++ p2 /\ node_at t p1 = Some n /\ visible n = false.
Proof.
  revert t. induction p as [|i p IH]; intros t; simpl.
  - rewrite orb_false_r. split.
    + intros H. exists [], [], t. destruct (visible t); [discriminate|]. auto.
    + intros (p1 & p2 & n & Hp & Hn & Hv).
      destruct p1; [|discriminate]. simpl in Hn. injection Hn as ->. now rewrite Hv.
  - split.
    + destruct (visible t) eqn:Hv; simpl.
      * destruct (children t !! i) as [c|] eqn:Hc; [|discriminate].
        intros H. apply IH in H as (p1 & p2 & n & -> & Hn & Hvn).
        exists (i :: p1), p2, n. simpl. rewrite Hc. auto.
      * intros _. exists [], (i :: p), t. auto.
    + intros (p1 & p2 & n & Hp & Hn & Hvn). destruct p1 as [|j p1]; simpl in *.
      * injection Hn as ->. now rewrite Hvn.
      * injection Hp as Hi Hp. subst j p.
        destruct (children t !! i) as [c|]; [|discriminate].
        apply orb_true_iff. right. apply IH. exists p1, p2, n. auto.
Qed.

(** X4. A node is hidden exactly when it or one of its ancestors is not
    visible; hence all that is below a hidden node is hidden. *)
Theorem isHidden_is_inherited (st : TypedStore dt) (p : NodeRef) :
  (isHidden st p = true <->
   exists p1 p2 n, p = p1 ++ p2 /\ node_at (root st) p1 = Some n /\ visible n = false) /\
  (isHidden st p = true -> forall q, isHidden st (p ++ q) = true).
Proof.
  split; [apply isHidden_from_prefix|].
  intros H q. apply isHidden_from_app, H.
Qed.

Lemma getDescendants_eq node p :
  getDescendants node p = p :: descendantsLoop p (children node) 0.
Proof. destruct node. reflexivity. Qed.

Lemma getDescendants_in (node : Node) :
  forall p q, q ∈ getDescendants node p <->
              exists r, q = p ++ r /\ is_Some (node_at node r).
Proof.
  induction node as [node IH] using Node_ind. intros p q.
  rewrite getDescendants_eq, elem_of_cons.
  enough (Hloop : forall chs i, Forall (fun c => forall p q,
              q ∈ getDescendants c p <-> exists r, q = p ++ r /\ is_Some (node_at c r)) chs ->
            (q ∈ descendantsLoop p chs i <->
             exists j c r, chs !! j = Some c /\ q = p ++ (i + j) :: r /\
                           is_Some (node_at c r))).
  { rewrite (Hloop _ 0 IH). split.
    - intros [->|(j & c & r & Hj & -> & Hr)].
      + exists []. rewrite app_nil_r. split; [reflexivity|]. now exists node.
      + exists (j :: r). split; [reflexivity|]. simpl. now rewrite Hj.
    - intros ([|j r] & -> & Hr).
      + left. now rewrite app_nil_r.
      + right. simpl in Hr. destruct (children node !! j) as [c|] eqn:Hj.
        * exists j, c, r. auto.
        * destruct Hr as [? Hr]. discriminate. }
  clear IH. induction chs as [|c chs IHchs]; intros i Hall; simpl.
  - split; [intros H; inversion H|]. intros (j & c & r & Hj & _).
    rewrite lookup_nil in Hj. discriminate.
  - apply Forall_cons in Hall as [Hc Hall].
    rewrite elem_of_app, (Hc (p ++ [i]) q), (IHchs (S i) Hall). split.
    + intros [(r & -> & Hr)|(j & c' & r & Hj & -> & Hr)].
      * exists 0, c, r. rewrite Nat.add_0_r, <- app_assoc. auto.
      * exists (S j), c', r. rewrite Nat.add_succ_r. auto.
    + intros (j & c' & r & Hj & -> & Hr). destruct j as [|j]; simpl in Hj.
      * injection Hj as ->. left. exists r. rewrite Nat.add_0_r, <- app_assoc. auto.
      * right. exists j, c', r. rewrite Nat.add_succ_r. auto.
Qed.

Lemma getDescendants_NoDup (node : Node) : forall p, NoDup (getDescendants node p).
Proof.
  induction node as [node IH] using Node_ind. intros p.
  rewrite getDescendants_eq.
  assert (Hbelow : forall chs i q, q ∈ descendantsLoop p chs i ->
            exists j r, q = p ++ (i + j) :: r).
  { induction chs as [|c chs IHchs]; intros i q Hq; simpl in Hq; [inversion Hq|].
    apply elem_of_app in Hq as [Hq|Hq].
    - apply getDescendants_in in Hq as (r & -> & _). exists 0, r.
      now rewrite Nat.add_0_r, <- app_assoc.
    - apply IHchs in Hq as (j & r & ->). exists (S j), r. now rewrite Nat.add_succ_r. }
  apply NoDup_cons_2.
  - intros Hin. apply Hbelow in Hin as (j & r & Heq).
    apply (f_equal (@length nat)) in Heq. rewrite length_app in Heq. simpl in Heq. lia.
  - revert IH. generalize 0. induction (children node) as [|c chs IHchs]; intros i IH;
      simpl; [apply NoDup_nil_2|].
    apply Forall_cons in IH as [Hc IH].
    apply NoDup_app. split_and!.
    + apply Hc.
    + intros q Hq1 Hq2. apply getDescendants_in in Hq1 as (r & -> & _).
      apply Hbelow in Hq2 as (j & r' & Heq).
      rewrite <- app_assoc in Heq. apply app_inv_head in Heq. simpl in Heq.
      injection Heq as Heq _. lia.
    + apply IHchs, IH.
Qed.

(** X5. [getDescendants] lists the node itself first and then every node below
    it, each once. *)
Theorem getDescendants_lists_the_subtree (node : Node) (p : NodeRef) :
  head (getDescendants node p) = Some p /\
  List.NoDup (getDescendants node p) /\
  forall q, q ∈ getDescendants node p <->
            exists r, q = p ++ r /\ is_Some (node_at node r).
Proof.
  split; [rewrite getDescendants_eq; reflexivity|].
  split; [apply NoDup_ListNoDup, getDescendants_NoDup|apply getDescendants_in].
Qed.

End TreeFacts.

(** ** The nodes without a value *)

Section EmptyFacts.

Context (dt : datatypes).
Implicit Types st : TypedStore dt.

Lemma getEmptyNodes_eq st node p usedefault :
  getEmptyNodes st node p usedefault
  = let? res :=
      (if canHaveValue node then
         let? value := getValue st p usedefault in
         Ok (match value with None => [p] | Some _ => [] end)
       else Ok []) in
    emptyLoop st p (children node) 0 res.
Proof. destruct node. reflexivity. Qed.

Lemma getEmptyNodes_in st (node : Node) :
  forall p usedefault l,
    node_at (root st) p = Some node ->
    getEmptyNodes st node p usedefault = Ok l ->
    forall q, q ∈ l <->
      (q = p /\ is_empty st p usedefault) \/
      (exists r, r <> [] /\ q = p ++ r /\ is_empty st (p ++ r) false).
Proof.
  induction node as [node IH] using Node_ind. intros p usedefault l Hp.
  rewrite getEmptyNodes_eq.
  assert (Hown : forall res,
            (if canHaveValue node then
               let? value := getValue st p usedefault in
               Ok (match value with None => [p] | Some _ => [] end)
             else Ok []) = Ok res ->
            forall q, q ∈ res <-> q = p /\ is_empty st p usedefault).
  { intros res Hres q. unfold is_empty. rewrite Hp.
    destruct (canHaveValue node) eqn:Hcan.
    - destruct (getValue st p usedefault) as [[v|]|e] eqn:Hv; simpl in Hres;
        inversion Hres; subst.
      + split; [intros H; inversion H|]. intros (_ & nd & _ & _ & Hn). discriminate.
      + rewrite list_elem_of_singleton. split; [|tauto]. intros ->. eauto.
    - inversion Hres; subst. split; [intros H; inversion H|].
      intros (_ & nd & Hnd & Hc & _). injection Hnd as <-. congruence. }
  destruct (if canHaveValue node then _ else _) as [res|e]; simpl; [|discriminate].
  specialize (Hown res eq_refl). intros Hl q. rewrite <- (Hown q). clear Hown.
  assert (Hchild : forall j c, children node !! j = Some c ->
            node_at (root st) (p ++ [0 + j]) = Some c).
  { intros j c Hj. rewrite node_at_app, Hp. simpl. now rewrite Hj. }
  assert (Hlen : forall j r, is_empty st (p ++ (0 + j) :: r) false ->
            j < length (children node)).
  { intros j r (nd & Hnd & _). rewrite node_at_app, Hp in Hnd. simpl in Hnd.
    destruct (children node !! j) eqn:Hj; [|discriminate].
    eapply lookup_lt_Some, Hj. }
  enough (Hloop : forall chs i res l,
            (forall j c, chs !! j = Some c -> node_at (root st) (p ++ [i + j]) = Some c) ->
            Forall (fun c => forall p usedefault l,
                      node_at (root st) p = Some c ->
                      getEmptyNodes st c p usedefault = Ok l ->
                      forall q, q ∈ l <->
                        (q = p /\ is_empty st p usedefault) \/
                        (exists r, r <> [] /\ q = p ++ r /\ is_empty st (p ++ r) false))
                   chs ->
            emptyLoop st p chs i res = Ok l ->
            (q ∈ l <-> q ∈ res \/
               exists j r, j < length chs /\ q = p ++ (i + j) :: r /\ is_empty st q false)).
  { rewrite (Hloop _ 0 res l Hchild IH Hl). apply or_iff_compat_l. split.
    - intros (j & r & _ & -> & He). exists (j :: r). split; [discriminate|]. auto.
    - intros ([|j r] & Hne & -> & He); [congruence|].
      exists j, r. split; [exact (Hlen j r He)|]. auto. }
  clear. induction chs as [|c chs IHchs]; intros i res l Hchild Hall Hl; simpl in Hl.
  - inversion Hl; subst. split; [auto|]. intros [H|(j & r & Hj & _)]; [exact H|].
    simpl in Hj. lia.
  - apply Forall_cons in Hall as [Hc Hall].
    destruct (getEmptyNodes st c (p ++ [i]) false) as [sub|e] eqn:Hsub; simpl in Hl;
      [|discriminate].
    assert (Hci : node_at (root st) (p ++ [i]) = Some c).
    { specialize (Hchild 0 c eq_refl). now rewrite Nat.add_0_r in Hchild. }
    rewrite (IHchs (S i) (res ++ sub) l) by
      (try assumption; intros j c' Hj; rewrite Nat.add_succ_comm; apply Hchild; exact Hj).
    rewrite elem_of_app, (Hc (p ++ [i]) false sub Hci Hsub q).
    split.
    + intros [[H|[(-> & He)|(r & Hne & -> & He)]]|(j & r & Hj & -> & He)].
      * auto.
      * right. exists 0, []. rewrite Nat.add_0_r. split; [simpl; lia|]. auto.
      * right. exists 0, r. rewrite Nat.add_0_r, <- app_assoc in *. split; [simpl; lia|].
        auto.
      * right. exists (S j), r. rewrite Nat.add_succ_r. split; [simpl; lia|]. auto.
    + intros [H|(j & r & Hj & -> & He)]; [auto|].
      destruct j as [|j].
      * left. right. rewrite Nat.add_0_r in *. destruct r as [|k r].
        -- left. auto.
        -- right. exists (k :: r). rewrite <- app_assoc. split; [discriminate|]. auto.
      * right. exists j, r. rewrite Nat.add_succ_r in *. split; [simpl in Hj; lia|]. auto.
Qed.

(** X6. [getEmptyNodes(usedefault)] lists the nodes of the subtree that can have
    a value and have none; the default counts for the node it is called on
    only, not for the nodes below it. *)
Theorem getEmptyNodes_lists_unset st (node : Node) (p : NodeRef) (usedefault : bool)
    (l : list NodeRef) :
  node_at (root st) p = Some node ->
  getEmptyNodes st node p usedefault = Ok l ->
  forall q, q ∈ l <->
    (q = p /\ is_empty st p usedefault) \/
    (exists r, r <> [] /\ q = p ++ r /\ is_empty st (p ++ r) false).
Proof. apply getEmptyNodes_in. Qed.

End EmptyFacts.

(** ** What every change of a value keeps *)

Section ChangeFacts.

Context (dt : datatypes) (ut : util).
Implicit Types st : TypedStore dt.
Implicit Types value newvalue : option (Value dt).

Ltac step_frame R_refl R_trans :=
  first
    [ apply (preserves_ret R_refl)
    | apply (preserves_raise R_refl)
    | apply (preserves_lift R_refl)
    | apply (preserves_gets R_refl)
    | apply (preserves_bind R_trans); [|intros ?]
    | apply (preserves_for_each R_refl R_trans); intros ?
    | match goal with
      | |- preserves _ (match ?x with _ => _ end) => destruct x
      | |- preserves _ (if ?x then _ else _) => destruct x
      end ].

Section ChangeInvariant.
Variable R : TypedStore dt -> TypedStore dt -> Prop.
Hypothesis R_refl : forall st, R st st.
Hypothesis R_trans : forall a b c, R a b -> R b c -> R a c.
Hypothesis R_trace : forall st t, R st (with_trace st t).
Hypothesis R_changed : forall st, R st (with_changed st true).
Hypothesis R_interfaces :
  forall st i self v, interfaces st !! i = Some self ->
    R st (with_interfaces st (<[i := with_upcomingvizchange self v]> (interfaces st))).
Hypothesis R_visible :
  forall st p b, R st (with_root st (update_at (with_visible b) p (root st))).
Hypothesis R_valueroot :
  forall st p v, R st (with_root st (update_at (with_valueroot v) p (root st))).
Hypothesis R_valuenode :
  forall st p v, R st (with_root st (update_at (with_valuenode v) p (root st))).
Hypothesis R_document : forall st d, R st (with_xmldocument st d).

Ltac framing known := repeat first [ known | step_frame R_refl R_trans ].

Lemma asked_kept node newvalue : preserves R (onBeforeChange (dt:=dt) node newvalue).
Proof.
  intros st r st' H. destruct (onBeforeChange_asks H) as [more [-> _]]. apply R_trace.
Qed.

Lemma called_kept i event h args : preserves R (call_handler (dt:=dt) i event h args).
Proof. intros st r st' H. injection H as <- <-. apply R_trace. Qed.

Lemma upcoming_kept i v : preserves R (set_upcomingvizchange (dt:=dt) i v).
Proof.
  apply preserves_modify. intros st.
  destruct (interfaces st !! i) eqn:Hi; [now apply R_interfaces|apply R_refl].
Qed.

Lemma notified_kept i event self node shownew showhide :
  preserves R (notifyVisibility (dt:=dt) i event self node shownew showhide).
Proof.
  unfold notifyVisibility, the_node. framing ltac:(apply called_kept).
Qed.

Lemma each_interface_kept body :
  (forall i, preserves R (body i)) -> preserves R (each_interface (dt:=dt) body).
Proof. intros Hb. unfold each_interface. framing ltac:(apply Hb). Qed.

Lemma beforeVisibilityChange_kept node visible showhide :
  preserves R (beforeVisibilityChange (dt:=dt) node visible showhide).
Proof.
  apply each_interface_kept. intros i.
  unfold Interface_beforeVisibilityChange, the_interface, the_node.
  framing ltac:(first [ apply upcoming_kept | apply notified_kept ]).
Qed.

Lemma afterVisibilityChange_kept node visible showhide :
  preserves R (afterVisibilityChange (dt:=dt) node visible showhide).
Proof.
  apply each_interface_kept. intros i.
  unfold Interface_afterVisibilityChange, the_interface, the_node.
  framing ltac:(first [ apply upcoming_kept | apply notified_kept ]).
Qed.

Lemma updateVisibility_kept self notify : preserves R (updateVisibility ut self notify).
Proof.
  assert (Hupd : forall b, preserves R (update_node (dt:=dt) self (with_visible b))).
  { intros b. apply preserves_modify. intros st. apply R_visible. }
  unfold updateVisibility, the_node.
  framing ltac:(first [ apply beforeVisibilityChange_kept
                      | apply afterVisibilityChange_kept
                      | apply Hupd ]).
Qed.

Lemma collectDependants_kept onChange node ds :
  (forall n f, preserves R (onChange n f)) ->
  forall depnodes, preserves R (collectDependants (dt:=dt) onChange node ds depnodes).
Proof.
  intros Hon. induction ds as [|d ds IH]; intros depnodes; simpl;
    [apply (preserves_ret R_refl)|].
  unfold the_node. framing ltac:(first [ apply IH | apply Hon ]).
Qed.

Lemma onChange_kept fuel : forall node feature,
  preserves R (onChange ut fuel node feature).
Proof.
  induction fuel as [|fuel IH]; intros node feature; simpl;
    [apply (preserves_raise R_refl)|].
  apply (preserves_bind R_trans).
  { apply preserves_modify. intros st. apply R_changed. }
  intros _. apply (preserves_bind R_trans).
  { apply each_interface_kept. intros i.
    unfold Interface_onChange, the_interface, the_node.
    framing ltac:(apply called_kept). }
  intros _. unfold updateDependantNodes_with, the_node.
  framing ltac:(first [ apply collectDependants_kept; exact IH
                      | apply updateVisibility_kept ]).
Qed.

Lemma create_valueroots_kept' parents : forall found,
  preserves R (create_valueroots (dt:=dt) parents found).
Proof.
  induction parents as [|par parents IH]; intros found; simpl;
    [apply (preserves_ret R_refl)|].
  apply (preserves_bind R_trans); [apply (preserves_lift R_refl)|].
  intros nd. apply (preserves_bind R_trans); [apply (preserves_lift R_refl)|].
  intros name st r st' H. unfold createElementNS in H.
  eapply R_trans; [|eapply IH; exact H].
  eapply R_trans; [apply R_document|].
  match goal with
  | |- R ?s (with_root _ (update_at (with_valueroot ?v) ?p _)) =>
      exact (R_valueroot s p v)
  end.
Qed.

Lemma createValueNode_kept' self : preserves R (createValueNode (dt:=dt) self).
Proof.
  unfold createValueNode, the_node, update_node.
  framing ltac:(first [ apply create_valueroots_kept'
                      | apply preserves_modify; intros ?; apply R_valuenode ]).
  intros st r st' H. unfold createElementNS in H. injection H as <- <-.
  eapply R_trans; [apply R_document|].
  match goal with
  | |- R ?s (with_root _ (update_at (with_valuenode ?v) ?p _)) =>
      exact (R_valuenode s p v)
  end.
Qed.

Lemma clearValue_kept fuel self skipreadonly :
  preserves R (clearValue ut fuel self skipreadonly).
Proof.
  unfold clearValue, the_node, update_node.
  framing ltac:(first [ apply asked_kept
                      | apply onChange_kept
                      | apply preserves_modify; intros ?;
                        first [ apply R_valueroot | apply R_valuenode
                              | apply R_document ] ]).
Qed.

Lemma setValue_kept fuel self value : preserves R (setValue ut fuel self value).
Proof.
  unfold setValue, the_node.
  framing ltac:(first [ apply asked_kept
                      | apply onChange_kept
                      | apply clearValue_kept
                      | apply createValueNode_kept' ]).
  intros st r st' H. destruct (dt_save dt _ (xmldocument st) _).
  injection H as <- <-. apply R_document.
Qed.

End ChangeInvariant.

(** *** The structure of the tree *)

Lemma skeleton_update f (Hf : forall n, skeleton (f n) = skeleton n)
    (Hc : forall n, children (f n) = children n) p :
  forall t, skeleton (update_at f p t) = skeleton t.
Proof.
  induction p as [|i p IH]; intros t; simpl; [apply Hf|].
  destruct (children t !! i) as [c|] eqn:Hi; [|reflexivity].
  destruct t as [ctl tn vr vn loc chs vis grp]. simpl in *. f_equal.
  change (map skeleton ?l) with (skeleton <$> l).
  rewrite list_fmap_insert, IH. apply list_insert_id.
  rewrite list_lookup_fmap, Hi. reflexivity.
Qed.

Lemma skeleton_node_at p : forall t t',
  skeleton t' = skeleton t ->
  option_map skeleton (node_at t' p) = option_map skeleton (node_at t p).
Proof.
  induction p as [|i p IH]; intros t t' H; simpl; [now rewrite H|].
  assert (Hch : skeleton <$> children t' = skeleton <$> children t).
  { destruct t, t'. simpl in *. now injection H. }
  apply (f_equal (fun l => l !! i)) in Hch. rewrite !list_lookup_fmap in Hch.
  destruct (children t' !! i) as [c'|], (children t !! i) as [c|]; simpl in Hch;
    try discriminate; [|reflexivity].
  apply IH. now injection Hch.
Qed.

Lemma same_structure_refl st : same_structure st st.
Proof. repeat split. Qed.

Lemma same_structure_trans (a b c : TypedStore dt) :
  same_structure a b -> same_structure b c -> same_structure a c.
Proof.
  intros (H1 & H2 & H3 & H4 & H5 & H6 & H7 & H8) (K1 & K2 & K3 & K4 & K5 & K6 & K7 & K8).
  repeat split; congruence.
Qed.

Lemma setValue_same_structure fuel self value :
  preserves same_structure (setValue ut fuel self value).
Proof.
  apply setValue_kept.
  - apply same_structure_refl.
  - apply same_structure_trans.
  - intros [] ?. repeat split.
  - intros []. repeat split.
  - intros [] i x v Hi. repeat split. simpl. apply length_insert.
  - intros [] p b. repeat split. simpl. apply skeleton_update; intros []; reflexivity.
  - intros [] p v. repeat split. simpl. apply skeleton_update; intros []; reflexivity.
  - intros [] p v. repeat split. simpl. apply skeleton_update; intros []; reflexivity.
  - intros [] d. repeat split.
Qed.

(** X7. Whatever [setValue] does and however it ends, the tree keeps its nodes:
    a reference leads to a node after the call exactly when it did before,
    and to one with the same schema element, the same location and as many
    children; schema, data types, linked stores and validation history are
    as before. *)
Theorem setValue_keeps_the_tree (fuel : nat) (st st' : TypedStore dt) (self : NodeRef)
    (value : option (Value dt)) (r : result pyval) :
  setValue ut fuel self value st = (r, st') ->
  same_structure st st' /\
  forall p,
    option_map (fun n => (templatenode n, location n, length (children n)))
               (node_at (root st') p)
    = option_map (fun n => (templatenode n, location n, length (children n)))
                 (node_at (root st) p).
Proof.
  intros H. pose proof (setValue_same_structure H) as Hs. split; [exact Hs|].
  intros p. destruct Hs as (Hsk & _).
  pose proof (skeleton_node_at p Hsk) as Hp.
  destruct (node_at (root st') p) as [n'|], (node_at (root st) p) as [n|]; simpl in *;
    try discriminate; [|reflexivity].
  injection Hp as Hp. destruct n, n'. simpl in *. injection Hp as -> -> -> Hch _.
  do 2 f_equal. apply (f_equal (@length Node)) in Hch. now rewrite !length_map in Hch.
Qed.

(** *** The mark of a change *)

Lemma ensures_bind {A B} (P : B -> TypedStore dt -> Prop) (m : M dt A) (k : A -> M dt B) :
  (forall a, ensures P (k a)) -> ensures P (bind m k).
Proof.
  intros Hk st r st' H. unfold bind in H. destruct (m st) as [[a|e] st1]; [|discriminate].
  eapply Hk, H.
Qed.

Lemma ensures_ret {A} (P : A -> TypedStore dt -> Prop) a :
  (forall st, P a st) -> ensures P (ret a).
Proof. intros HP st r st' H. injection H as <- <-. apply HP. Qed.

Lemma ensures_raise {A} (P : A -> TypedStore dt -> Prop) e : ensures P (raise e).
Proof. intros st r st' H. discriminate. Qed.

Lemma stays_changed_refl st : stays_changed st st.
Proof. intros H. exact H. Qed.

Lemma stays_changed_trans (a b c : TypedStore dt) :
  stays_changed a b -> stays_changed b c -> stays_changed a c.
Proof. unfold stays_changed. auto. Qed.

Ltac stays :=
  first [ apply stays_changed_refl
        | apply stays_changed_trans
        | unfold stays_changed; intros [] *; simpl; intros; auto ].

Lemma onChange_stays_changed fuel node feature :
  preserves stays_changed (onChange (dt:=dt) ut fuel node feature).
Proof.
  apply onChange_kept; stays.
Qed.

Lemma setValue_stays_changed fuel self value :
  preserves stays_changed (setValue ut fuel self value).
Proof.
  apply setValue_kept; stays.
Qed.

Lemma onChange_marks fuel node feature :
  ensures (fun _ st' => changed st' = true) (onChange (dt:=dt) ut fuel node feature).
Proof.
  intros st r st' H. destruct fuel as [|fuel]; [discriminate|].
  assert (Hst : stays_changed (with_changed st true) st').
  { simpl in H. unfold bind at 1, modify at 1 in H.
    revert H. generalize (with_changed st true). intros s H.
    assert (Hrest : preserves stays_changed
              (bind (each_interface (dt:=dt) (fun i => Interface_onChange i node feature))
                    (fun _ => updateDependantNodes_with ut (onChange ut fuel) node))).
    { apply (preserves_bind stays_changed_trans).
      - apply each_interface_kept; [stays|stays|].
        intros i. unfold Interface_onChange, the_interface, the_node.
        repeat first [ apply called_kept; stays
                     | step_frame stays_changed_refl stays_changed_trans ].
      - intros _. unfold updateDependantNodes_with, the_node.
        repeat first
          [ apply collectDependants_kept;
            [stays | stays | intros; apply onChange_stays_changed]
          | apply updateVisibility_kept; stays
          | step_frame stays_changed_refl stays_changed_trans ]. }
    exact (Hrest _ _ _ H). }
  apply Hst. destruct st; reflexivity.
Qed.

(** X8. When [setValue] returns a true value, the store is marked as changed;
    and no call of [setValue], however it ends, takes the mark away. *)
Theorem setValue_marks_the_store (fuel : nat) (st st' : TypedStore dt) (self : NodeRef)
    (value : option (Value dt)) (r : result pyval) :
  setValue ut fuel self value st = (r, st') ->
  (forall x, r = Ok x -> truthy x = true -> changed st' = true) /\
  (changed st = true -> changed st' = true).
Proof.
  intros H. split; [|exact (setValue_stays_changed H)].
  intros x -> Hx. revert x st st' H Hx.
  enough (He : ensures (fun x st' => truthy x = true -> changed st' = true)
                       (setValue ut fuel self value))
    by (intros x st st' H; exact (He st x st' H)).
  unfold setValue, the_node.
  repeat first
    [ apply ensures_ret; intros ? ?; discriminate
    | apply ensures_raise
    | match goal with
      | |- ensures _ (bind (onChange _ _ _ _) _) =>
          intros st r st' H; unfold bind in H;
          destruct (onChange ut fuel self "value" st) as [[[]|e] s1] eqn:Hon;
            [|discriminate];
          injection H as <- <-; intros _; exact (onChange_marks Hon)
      | |- ensures _ (bind _ _) => apply ensures_bind; intros ?
      | |- ensures _ (match ?x with _ => _ end) => destruct x
      | |- ensures _ (if ?x then _ else _) => destruct x
      end ].
Qed.

End ChangeFacts.

(** ** Clearing a value *)

Section ClearFacts.

Context (dt : datatypes) (ut : util).
Implicit Types st : TypedStore dt.

Lemma getValue_without_valuenode st p n :
  node_at (root st) p = Some n -> valuenode n = None -> getValue st p false = Ok None.
Proof.
  intros Hp Hvn. destruct st. cbn [getValue]. unfold deref. simpl in *.
  rewrite Hp. simpl. rewrite Hvn. reflexivity.
Qed.

Lemma update_valuenode_None st self x :
  node_at (root st) self = Some x ->
  exists x', node_at (update_at (with_valuenode None) self (root st)) self = Some x' /\
             valuenode x' = None.
Proof.
  intros Hx.
  pose proof (@node_at_update (with_valuenode None) (fun n => eq_refl) self self (root st))
    as Hupd.
  rewrite Hx in Hupd. destruct Hupd as (x' & Hx' & Hs).
  rewrite bool_decide_eq_true_2 in Hs by reflexivity.
  exists x'. split; [exact Hx'|]. unfold scalars in Hs. now injection Hs.
Qed.

Lemma update_valueroot_Some st self x v :
  node_at (root st) self = Some x ->
  exists x', node_at (update_at (with_valueroot v) self (root st)) self = Some x'.
Proof.
  intros Hx.
  pose proof (@node_at_update (with_valueroot v) (fun n => eq_refl) self self (root st))
    as Hupd.
  rewrite Hx in Hupd. destruct Hupd as (x' & Hx' & _). eauto.
Qed.

(** X9. When [clearValue] returns [True] the node has no value of its own; when
    it returns [False] the node tree, the value document and the changed
    flag are as they were. *)
Theorem clearValue_clears_or_keeps (fuel : nat) (st st' : TypedStore dt) (self : NodeRef)
    (skipreadonly : bool) (b : bool) :
  clearValue ut fuel self skipreadonly st = (Ok b, st') ->
  if b then getValue st' self false = Ok None
  else root st' = root st /\ xmldocument st' = xmldocument st /\
       changed st' = changed st.
Proof.
  intros H. unfold clearValue, bind, the_node, lift, deref in H.
  destruct (node_at (root st) self) as [nd|] eqn:Hnd; [|discriminate].
  destruct (valuenode nd) as [vn|] eqn:Hvn.
  2: { injection H as <- <-. exact (getValue_without_valuenode Hnd Hvn). }
  destruct ((skipreadonly && isReadOnly nd) || bool_decide (parent_ref self = None)).
  { injection H as <- <-. auto. }
  destruct (canHaveClones nd).
  { injection H as <- <-. auto. }
  destruct (onBeforeChange self None st) as [[allowed|e] st1] eqn:Hask; [|discriminate].
  pose proof (only_asked_fields (onBeforeChange_asks Hask))
    as (Hroot & Hdoc & Hchg & _).
  destruct allowed.
  2: { injection H as <- <-. auto. }
  unfold gets in H.
  destruct (match xmldocument st1 !! vn with Some e => parentNode e | None => None end)
    as [up|]; [|discriminate].
  destruct (removeChild (xmldocument st1) up vn) as [d|e]; [|discriminate].
  unfold modify, update_node, ret in H. simpl in H.
  assert (Hnd1 : node_at (root st1) self = Some nd) by (now rewrite Hroot).
  assert (Hs : exists s2 x,
            (if bool_decide (valueroot nd = Some vn)
             then modify (fun st => with_root st
                            (update_at (with_valueroot None) self (root st)))
             else (fun st => (Ok tt, st))) (with_xmldocument st1 d) = (Ok tt, s2) /\
            node_at (root s2) self = Some x).
  { destruct (bool_decide (valueroot nd = Some vn)).
    - destruct (update_valueroot_Some (st:=with_xmldocument st1 d) None
                  (x:=nd) ltac:(destruct st1; exact Hnd1)) as (x & Hx).
      eexists _, x. split; [reflexivity|]. destruct st1; exact Hx.
    - exists (with_xmldocument st1 d), nd. split; [reflexivity|].
      destruct st1; exact Hnd1. }
  destruct Hs as (s2 & x & Hs2 & Hx). rewrite Hs2 in H.
  destruct (update_valuenode_None Hx) as (x' & Hx' & Hvn').
  match type of H with
  | match onChange ut fuel self "value" ?s3 with _ => _ end = _ =>
      destruct (onChange ut fuel self "value" s3) as [[[]|e] s4] eqn:Hon;
        [|discriminate];
      assert (Hx3 : node_at (root s3) self = Some x') by (destruct s2; exact Hx')
  end.
  injection H as <- <-.
  destruct (same_values_node (onChange_same_values Hon) Hx3) as (x4 & Hx4 & Hvn4 & _).
  apply getValue_without_valuenode with x4; congruence.
Qed.

End ClearFacts.

(** ** Asking the interfaces *)

Section AskingFacts.

Context (dt : datatypes).
Implicit Types st : TypedStore dt.
Implicit Types newvalue : option (Value dt).

Lemma Interface_onBeforeChange_trace i node newvalue st t :
  fst (Interface_onBeforeChange i node newvalue (with_trace st t))
  = fst (Interface_onBeforeChange i node newvalue st).
Proof.
  destruct st. unfold Interface_onBeforeChange, bind, the_interface, the_node, lift,
    gets, deref, isHidden, with_trace. simpl.
  destruct (_ !! i) as [self|]; simpl; [|reflexivity].
  destruct (node_at _ node) as [nd|]; simpl; [|reflexivity].
  destruct (assert_valid nd); simpl; [|reflexivity].
  destruct (eventhandlers self !! "beforeChange"); simpl; [|reflexivity].
  destruct (isHidden_from _ node && blockNotifyOfHiddenNodes self); reflexivity.
Qed.

Lemma Interface_onBeforeChange_calls i node newvalue st r st' :
  Interface_onBeforeChange i node newvalue st = (r, st') ->
  exists more, st' = with_trace st (trace st ++ more) /\
               forall k event args, In (Called k event args) more -> k = i.
Proof.
  unfold Interface_onBeforeChange, bind, the_interface, the_node, lift, gets, ret.
  assert (Hsame : forall (x : result bool), (x, st) = (r, st') ->
            exists more, st' = with_trace st (trace st ++ more) /\
               forall k event args, In (Called k event args) more -> k = i).
  { intros x Hx. injection Hx as <- <-. exists []. split; [|intros ? ? ? []].
    destruct st. unfold with_trace. simpl. now rewrite app_nil_r. }
  destruct (interfaces st !! i) as [self|]; [|apply Hsame].
  destruct (deref st node) as [nd|]; [|apply Hsame].
  destruct (assert_valid nd); [|apply Hsame].
  destruct (eventhandlers self !! "beforeChange") as [h|]; [|apply Hsame].
  destruct (isHidden st node && blockNotifyOfHiddenNodes self); [apply Hsame|].
  unfold call_handler. intros H. injection H as <- <-.
  eexists. split; [reflexivity|]. intros k event args [Hin|[]]. now injection Hin.
Qed.

Lemma with_trace_twice st t u : with_trace (with_trace st t) u = with_trace st u.
Proof. destruct st. reflexivity. Qed.

Lemma onBeforeChange_loop_first_veto node newvalue st : forall l pre b st',
  onBeforeChange_loop l node newvalue (with_trace st (trace st ++ pre)) = (Ok b, st') ->
  exists more,
    st' = with_trace st (trace st ++ pre ++ more) /\
    if b then
      forall i, In i l -> memb i (blockedinterfaces st) = false ->
                fst (Interface_onBeforeChange i node newvalue st) = Ok true
    else
      exists l1 i l2,
        l = l1 ++ i :: l2 /\ memb i (blockedinterfaces st) = false /\
        fst (Interface_onBeforeChange i node newvalue st) = Ok false /\
        (forall j, In j l1 -> memb j (blockedinterfaces st) = false ->
                   fst (Interface_onBeforeChange j node newvalue st) = Ok true) /\
        forall k event args, In (Called k event args) more -> In k (l1 ++ [i]).
Proof.
  induction l as [|i l IH]; intros pre b st' H; simpl in H.
  - injection H as <- <-. exists []. rewrite app_nil_r. split; [reflexivity|].
    intros i [].
  - unfold bind at 1, gets at 1 in H.
    assert (Hblocked : blockedinterfaces (with_trace st (trace st ++ pre))
                       = blockedinterfaces st) by (destruct st; reflexivity).
    rewrite Hblocked in H.
    destruct (memb i (blockedinterfaces st)) eqn:Hb.
    + destruct (IH pre b st' H) as (more & Hst' & Hres). exists more.
      split; [exact Hst'|]. destruct b.
      * intros j [<-|Hj] Hjb; [congruence|auto].
      * destruct Hres as (l1 & k & l2 & -> & Hk & Hans & Hbefore & Hcalls).
        exists (i :: l1), k, l2. split_and!; auto.
        -- intros j [<-|Hj] Hjb; [congruence|auto].
        -- intros k' ev args Hin. right. eauto.
    + unfold bind in H.
      destruct (Interface_onBeforeChange i node newvalue
                  (with_trace st (trace st ++ pre))) as [[allowed|e] s1] eqn:Hi;
        [|discriminate].
      pose proof (f_equal fst Hi) as Hans. rewrite Interface_onBeforeChange_trace in Hans.
      simpl in Hans.
      destruct (Interface_onBeforeChange_calls Hi) as (m1 & -> & Hm1).
      rewrite with_trace_twice in H.
      assert (Htr : trace (with_trace st (trace st ++ pre)) ++ m1
                    = trace st ++ (pre ++ m1)).
      { destruct st. simpl. now rewrite app_assoc. }
      rewrite Htr in H. destruct allowed.
      * destruct (IH (pre ++ m1) b st' H) as (more & Hst' & Hres).
        exists (m1 ++ more). rewrite <- app_assoc in Hst'. split; [exact Hst'|].
        destruct b.
        -- intros j [<-|Hj] Hjb; auto.
        -- destruct Hres as (l1 & k & l2 & -> & Hk & Hansk & Hbefore & Hcalls).
           exists (i :: l1), k, l2. split_and!; auto.
           ++ intros j [<-|Hj] Hjb; auto.
           ++ intros k' ev args Hin. apply in_app_or in Hin as [Hin|Hin].
              ** left. symmetry. eauto.
              ** right. eauto.
      * injection H as <- <-. exists m1. split; [reflexivity|].
        exists [], i, l. split_and!; auto.
        -- intros j [].
        -- intros k ev args Hin. left. symmetry. eauto.
Qed.

(** X10. [onBeforeChange] allows a change when every connected interface that
    is not blocked allows it; it denies with the first that denies, and asks
    no interface after that one. *)
Theorem onBeforeChange_asks_until_denied (st st' : TypedStore dt) (node : NodeRef)
    (newvalue : option (Value dt)) (b : bool) :
  onBeforeChange node newvalue st = (Ok b, st') ->
  exists more,
    st' = with_trace st (trace st ++ more) /\
    if b then
      forall i, i < length (interfaces st) -> memb i (blockedinterfaces st) = false ->
                fst (Interface_onBeforeChange i node newvalue st) = Ok true
    else
      exists i,
        i < length (interfaces st) /\ memb i (blockedinterfaces st) = false /\
        fst (Interface_onBeforeChange i node newvalue st) = Ok false /\
        (forall j, j < i -> memb j (blockedinterfaces st) = false ->
                   fst (Interface_onBeforeChange j node newvalue st) = Ok true) /\
        forall k event args, In (Called k event args) more -> k <= i.
Proof.
  unfold onBeforeChange, bind, gets. intros H.
  assert (Hst : st = with_trace st (trace st ++ [])).
  { destruct st. unfold with_trace. simpl. now rewrite app_nil_r. }
  rewrite Hst in H at 2.
  destruct (onBeforeChange_loop_first_veto H) as (more & Hst' & Hres).
  exists more. split; [exact Hst'|]. destruct b.
  - intros i Hi. apply Hres, in_seq. lia.
  - destruct Hres as (l1 & i & l2 & Hl & Hb & Hans & Hbefore & Hcalls).
    assert (Hlt : length l1 < length (interfaces st)).
    { apply (f_equal (@length nat)) in Hl.
      rewrite length_seq, length_app in Hl. simpl in Hl. lia. }
    assert (Hat : forall m, m <= length l1 -> (l1 ++ i :: l2) !! m = Some m).
    { intros m Hm. rewrite <- Hl. apply lookup_seq_lt. lia. }
    assert (Hlen : length l1 = i).
    { specialize (Hat (length l1) (le_n _)).
      rewrite lookup_app_r, Nat.sub_diag in Hat by lia. simpl in Hat. congruence. }
    assert (Hl1 : forall j, In j l1 <-> j < i).
    { intros j. split.
      - intros Hj. apply list_elem_of_In, list_elem_of_lookup in Hj as [m Hm].
        pose proof (lookup_lt_Some _ _ _ Hm) as Hmlt.
        specialize (Hat m ltac:(lia)). rewrite lookup_app_l in Hat by lia. congruence.
      - intros Hj. apply list_elem_of_In, list_elem_of_lookup. exists j.
        specialize (Hat j ltac:(lia)). rewrite lookup_app_l in Hat by lia. exact Hat. }
    exists i. split_and!; auto; [lia| |].
    + intros j Hj. apply Hbefore, Hl1, Hj.
    + intros k ev args Hin. apply Hcalls in Hin.
      apply in_app_or in Hin as [Hin|[<-|[]]]; [apply Hl1 in Hin|]; lia.
Qed.

End AskingFacts.

(** ** The validation history *)

Section HistoryFacts.

Lemma updateValidationHistory_in (validity : Validity) : forall (valid : list NodeRef) n,
  List.NoDup (map fst validity) ->
  (n ∈ updateValidationHistory validity valid <->
   (n, true) ∈ validity \/ (n ∈ valid /\ (n, false) ∉ validity)).
Proof.
  induction validity as [|[k ok] rest IH]; intros valid n Hnd; simpl.
  - split; [intros H; right; split; [exact H|intros Hin; inversion Hin]|].
    intros [H|[H _]]; [inversion H|exact H].
  - inversion Hnd as [|? ? Hk Hrest]; subst.
    assert (Hkrest : forall b, (k, b) ∉ rest).
    { intros b Hin. apply Hk. apply list_elem_of_In in Hin.
      apply (in_map fst) in Hin. exact Hin. }
    rewrite (IH _ n Hrest), !elem_of_cons.
    destruct (decide (n = k)) as [->|Hne].
    + destruct ok.
      * split; [auto|]. intros _.
        right. split; [|apply Hkrest].
        destruct (bool_decide (k ∈ valid)) eqn:Hin.
        -- now apply bool_decide_eq_true_1 in Hin.
        -- apply elem_of_app. right. now apply list_elem_of_singleton.
      * split.
        -- intros [H|[H _]]; [exfalso; exact (Hkrest true H)|].
           apply list_elem_of_In, List.filter_In in H as [_ H].
           rewrite bool_decide_eq_true_2 in H by reflexivity. discriminate.
        -- intros [[H|H]|[_ H]]; [discriminate|exfalso; exact (Hkrest true H)|].
           exfalso. apply H. now left.
    + assert (Hstep : n ∈ (if ok then if bool_decide (k ∈ valid) then valid
                                      else valid ++ [k]
                           else List.filter (fun m => negb (bool_decide (m = k))) valid)
                      <-> n ∈ valid).
      { destruct ok.
        - destruct (bool_decide (k ∈ valid)); [reflexivity|].
          rewrite elem_of_app, list_elem_of_singleton. tauto.
        - rewrite list_elem_of_In, List.filter_In, <- list_elem_of_In.
          rewrite bool_decide_eq_false_2 by exact Hne. simpl. tauto. }
      rewrite Hstep. split.
      * intros [H|[H1 H2]]; [auto|]. right. split; [exact H1|].
        intros [Heq|Hin]; [congruence|auto].
      * intros [[Heq|H]|[H1 H2]]; [congruence|auto|]. right. split; [exact H1|]. tauto.
Qed.

(** X11. After [updateValidationHistory(validity)] a node is in the history when
    [validity] has it as valid, or when it was there before and [validity]
    does not have it as invalid. *)
Theorem updateValidationHistory_adds_and_discards (validity : Validity)
    (valid : list NodeRef) (n : NodeRef) :
  List.NoDup (map fst validity) ->
  (n ∈ updateValidationHistory validity valid <->
   (n, true) ∈ validity \/ (n ∈ valid /\ (n, false) ∉ validity)).
Proof. apply updateValidationHistory_in. Qed.

End HistoryFacts.

(** ** Validation without repair *)

Section ReadOnlyValidation.

Context (dt : datatypes) (ut : util).
Implicit Types st : TypedStore dt.

Variable performTest :
  Xml -> list NodeRef -> bool -> Z -> list NodeRef -> Report -> M dt Report.
Hypothesis performTest_reads : reads_only performTest.

Lemma untouched_refl st : untouched st st.
Proof. reflexivity. Qed.

Lemma untouched_trans (a b c : TypedStore dt) : untouched a b -> untouched b c -> untouched a c.
Proof. unfold untouched. congruence. Qed.

Ltac reading :=
  repeat first
    [ apply (preserves_ret untouched_refl)
    | apply (preserves_raise untouched_refl)
    | apply (preserves_lift untouched_refl)
    | apply (preserves_gets untouched_refl)
    | apply (preserves_bind untouched_trans); [|intros ?]
    | match goal with
      | |- preserves _ (match ?x with _ => _ end) => destruct x
      | |- preserves _ (if ?x then _ else _) => destruct x
      | |- preserves _ (let '(_, _) := ?x in _) => destruct x
      end ].

Lemma preserves_bind_const {A B} (R : TypedStore dt -> TypedStore dt -> Prop) (c : A)
    (k : A -> M dt B) :
  preserves R (k c) -> preserves R (bind (gets (fun _ => c)) k).
Proof. intros H st r st' Hrun. exact (H _ _ _ Hrun). Qed.

Lemma fold_report_reads l check :
  (forall node r, preserves untouched (check node r)) ->
  forall r, preserves untouched (fold_report (dt:=dt) l check r).
Proof.
  intros Hc. induction l as [|n l IH]; intros r; simpl; reading. apply Hc. apply IH.
Qed.

Lemma checkSelect_reads fuel usedefault node r :
  preserves untouched (checkSelect (dt:=dt) ut fuel usedefault 0 node r).
Proof.
  unfold checkSelect, the_node, repairs. simpl.
  apply (preserves_bind untouched_trans); [reading|intros nd].
  apply (preserves_bind untouched_trans); [reading|intros value].
  apply (preserves_bind untouched_trans); [reading|intros [opt ch]].
  destruct (Nat.eqb opt 2); [reading|].
  apply preserves_bind_const. reading.
Qed.

Lemma checkBound_reads fuel upper usedefault node r :
  preserves untouched (checkBound (dt:=dt) ut fuel upper usedefault 0 node r).
Proof.
  unfold checkBound, the_node, repairs. simpl.
  apply (preserves_bind untouched_trans); [reading|intros nd].
  apply (preserves_bind untouched_trans); [reading|intros [value|]]; [|reading].
  apply (preserves_bind untouched_trans); [reading|intros bound].
  match goal with |- preserves _ (if ?c then _ else _) => destruct c end; [|reading].
  apply preserves_bind_const. reading.
Qed.

Lemma _validate_reads fuel nodes usedefault usehistory :
  preserves untouched (_validate ut performTest fuel nodes usedefault 0 usehistory).
Proof.
  unfold _validate.
  apply (preserves_bind untouched_trans); [reading|intros oldvalids].
  apply (preserves_bind untouched_trans); [reading|intros sets].
  apply (preserves_bind untouched_trans).
  { apply fold_report_reads. intros node r. unfold checkEmpty, the_node. reading. }
  intros r1. apply (preserves_bind untouched_trans); [reading|intros visiblecustom].
  apply (preserves_bind untouched_trans).
  { apply fold_report_reads. intros node r. unfold checkCustom, the_node. reading. }
  intros r2. apply (preserves_bind untouched_trans).
  { apply fold_report_reads. intros node r. apply checkSelect_reads. }
  intros r3. apply (preserves_bind untouched_trans).
  { apply fold_report_reads. intros node r. apply checkBound_reads. }
  intros r4. apply (preserves_bind untouched_trans).
  { apply fold_report_reads. intros node r. apply checkBound_reads. }
  intros r5. unfold applyRules.
  apply (preserves_bind untouched_trans); [reading|intros templateroot].
  destruct (List.find _ _) as [validationnode|]; [|reading].
  generalize (childNodes validationnode) as tests. intros tests. revert r5.
  induction tests as [|t tests IH]; intros r5; simpl; [reading|].
  destruct (isElementNamed "test" t); [|apply IH].
  apply (preserves_bind untouched_trans); [apply performTest_reads|intros r6; apply IH].
Qed.

(** X12. With [repair=0] and rules that only read, [validate] changes nothing
    but the validation history, however it ends: no value, no visibility,
    and no handler is called. *)
Theorem validate_without_repair_reads_only (fuel : nat) (st st' : TypedStore dt)
    (nodes : option (list NodeRef)) (usedefault usehistory : bool)
    (r : result (list string)) :
  validate ut performTest fuel nodes usedefault 0 usehistory st = (r, st') ->
  exists valid, st' = with_validnodes st valid /\
                (usehistory = false -> valid = validnodes st).
Proof.
  intros H. unfold validate, bind in H.
  assert (Hnodes : exists l, (match nodes with
                              | Some l => ret l
                              | None => gets (fun st => getDescendants (root st) [])
                              end) st = (Ok l, st)).
  { destruct nodes; eexists; reflexivity. }
  destruct Hnodes as [l Hl]. rewrite Hl in H.
  destruct (_validate ut performTest fuel l usedefault 0 usehistory st)
    as [[[errors validity]|e] s1] eqn:Hrun;
    pose proof (_validate_reads Hrun) as Hs1; unfold untouched in Hs1; subst s1.
  - destruct usehistory; simpl in H; injection H as <- <-.
    + eexists. split; [reflexivity|]. discriminate.
    + exists (validnodes st). split; [destruct st; reflexivity|auto].
  - injection H as <- <-. exists (validnodes st). split; [destruct st; reflexivity|auto].
Qed.

End ReadOnlyValidation.

(** ** Validation that finds no error *)

Section CleanValidation.

Context (dt : datatypes) (ut : util).
Implicit Types st : TypedStore dt.

Variable performTest :
  Xml -> list NodeRef -> bool -> Z -> list NodeRef -> Report -> M dt Report.
Hypothesis performTest_reports : reports_errors performTest.

Lemma kept_clean_bind (r : Report) (m : M dt Report) (k : Report -> M dt Report) :
  ensures (kept_clean r) m -> (forall r1, ensures (kept_clean r1) (k r1)) ->
  ensures (kept_clean r) (bind m k).
Proof.
  intros Hm Hk st r' st' H. unfold bind in H.
  destruct (m st) as [[r1|e] s1] eqn:Hrun; [|discriminate].
  intros Hclean. pose proof (Hk r1 _ _ _ H Hclean) as ->.
  exact (Hm _ _ _ Hrun Hclean).
Qed.

Lemma kept_clean_invalid r node msg st : kept_clean r (invalid node msg r) st.
Proof. unfold kept_clean, invalid. simpl. intros H. now destruct (fst r). Qed.

Ltac cleaning :=
  repeat first
    [ apply ensures_ret; intros ?; first [ apply kept_clean_invalid | intros _; reflexivity ]
    | apply ensures_raise
    | match goal with
      | |- ensures _ (bind _ _) => apply ensures_bind; intros ?
      | |- ensures _ (match ?x with _ => _ end) => destruct x
      | |- ensures _ (if ?x then _ else _) => destruct x
      end ].

Lemma fold_report_clean l check :
  (forall node r, ensures (kept_clean r) (check node r)) ->
  forall r, ensures (kept_clean r) (fold_report (dt:=dt) l check r).
Proof.
  intros Hc. induction l as [|n l IH]; intros r; simpl.
  - apply ensures_ret. intros st _. reflexivity.
  - apply kept_clean_bind; [apply Hc|apply IH].
Qed.

Lemma fold_tests_clean tests run :
  (forall t r, ensures (kept_clean r) (run t r)) ->
  forall r, ensures (kept_clean r) (fold_tests (dt:=dt) tests run r).
Proof.
  intros Hr. induction tests as [|t tests IH]; intros r; simpl.
  - apply ensures_ret. intros st _. reflexivity.
  - destruct (isElementNamed "test" t); [|apply IH].
    apply kept_clean_bind; [apply Hr|apply IH].
Qed.

Lemma _validate_clean fuel nodes usedefault repair usehistory :
  ensures (kept_clean ([], validity_init nodes))
          (_validate ut performTest fuel nodes usedefault repair usehistory).
Proof.
  unfold _validate.
  apply ensures_bind; intros oldvalids. apply ensures_bind; intros sets.
  apply kept_clean_bind.
  { apply fold_report_clean. intros node r. unfold checkEmpty, the_node. cleaning. }
  intros r1. apply ensures_bind; intros visiblecustom.
  apply kept_clean_bind.
  { apply fold_report_clean. intros node r. unfold checkCustom, the_node. cleaning. }
  intros r2. apply kept_clean_bind.
  { apply fold_report_clean. intros node r. unfold checkSelect, the_node. cleaning. }
  intros r3. apply kept_clean_bind.
  { apply fold_report_clean. intros node r. unfold checkBound, the_node. cleaning. }
  intros r4. apply kept_clean_bind.
  { apply fold_report_clean. intros node r. unfold checkBound, the_node. cleaning. }
  intros r5. unfold applyRules. apply ensures_bind; intros templateroot.
  destruct (List.find _ _) as [validationnode|].
  - apply fold_tests_clean. intros t r. apply performTest_reports.
  - apply ensures_ret. intros st _. reflexivity.
Qed.

Lemma validity_set_valid node (v : Validity) :
  List.Forall (fun e => snd e = true) v ->
  List.Forall (fun e => snd e = true) (validity_set node true v).
Proof.
  induction 1 as [|[k x] v Hk Hv IH]; simpl; [repeat constructor|].
  destruct (bool_decide (k = node)); constructor; auto.
Qed.

Lemma validity_set_keys node b (v : Validity) k :
  k ∈ map fst (validity_set node b v) <-> k = node \/ k ∈ map fst v.
Proof.
  induction v as [|[k0 x] v IH]; simpl.
  - rewrite list_elem_of_singleton. split; [auto|]. intros [H|H]; [exact H|inversion H].
  - destruct (bool_decide (k0 = node)) eqn:Hk0; simpl.
    + apply bool_decide_eq_true_1 in Hk0. subst k0. rewrite !elem_of_cons. tauto.
    + rewrite !elem_of_cons, IH. tauto.
Qed.

Lemma validity_init_spec (l : list NodeRef) :
  List.Forall (fun e => snd e = true) (validity_init l) /\
  forall k, k ∈ map fst (validity_init l) <-> k ∈ l.
Proof.
  unfold validity_init.
  enough (H : forall acc : Validity,
            List.Forall (fun e => snd e = true) acc ->
            List.Forall (fun e => snd e = true)
              (fold_left (fun v node => validity_set node true v) l acc) /\
            forall k, k ∈ map fst (fold_left (fun v node => validity_set node true v) l acc)
                      <-> k ∈ l \/ k ∈ map fst acc).
  { destruct (H [] (List.Forall_nil _)) as [Hall Hkeys]. split; [exact Hall|].
    intros k. rewrite Hkeys. simpl. split; [|auto]. intros [Hk|Hk]; [exact Hk|inversion Hk]. }
  induction l as [|node l IH]; intros acc Hacc; simpl.
  - split; [exact Hacc|]. intros k. split; [auto|]. intros [Hk|Hk]; [inversion Hk|exact Hk].
  - destruct (IH _ (validity_set_valid node Hacc)) as [Hall Hkeys].
    split; [exact Hall|]. intros k. rewrite Hkeys, validity_set_keys, elem_of_cons. tauto.
Qed.

Lemma updateValidationHistory_all_valid (validity : Validity) :
  List.Forall (fun e => snd e = true) validity ->
  forall valid n,
    n ∈ map fst validity \/ n ∈ valid ->
    n ∈ updateValidationHistory validity valid.
Proof.
  induction 1 as [|[k x] validity Hk _ IH]; intros valid n H; simpl.
  - destruct H as [H|H]; [inversion H|exact H].
  - simpl in Hk. subst x. apply IH. simpl in H. rewrite elem_of_cons in H.
    destruct (bool_decide (k ∈ valid)) eqn:Hin.
    + apply bool_decide_eq_true_1 in Hin. destruct H as [[->|H]|H]; auto.
    + rewrite elem_of_app, list_elem_of_singleton. tauto.
Qed.

(** X13. When [validate], keeping the history, returns no error, every node it
    was to validate is recorded as valid. *)
Theorem validate_without_errors_records_all (fuel : nat) (st st' : TypedStore dt)
    (nodes : option (list NodeRef)) (usedefault : bool) (repair : Z) (n : NodeRef) :
  validate ut performTest fuel nodes usedefault repair true st = (Ok [], st') ->
  n ∈ match nodes with Some l => l | None => getDescendants (root st) [] end ->
  n ∈ validnodes st'.
Proof.
  intros H Hn. unfold validate, bind in H.
  set (l := match nodes with Some l => l | None => getDescendants (root st) [] end) in *.
  assert (Hl : (match nodes with
                | Some l => ret l
                | None => gets (fun st => getDescendants (root st) [])
                end) st = (Ok l, st)) by (destruct nodes; reflexivity).
  rewrite Hl in H.
  destruct (_validate ut performTest fuel l usedefault repair true st)
    as [[[errors validity]|e] s1] eqn:Hrun; [|discriminate].
  simpl in H. injection H as -> <-.
  pose proof (_validate_clean Hrun eq_refl) as Hclean. injection Hclean as ->.
  destruct (validity_init_spec l) as [Hall Hkeys].
  destruct s1. simpl. apply (updateValidationHistory_all_valid Hall).
  left. apply Hkeys. exact Hn.
Qed.

End CleanValidation.

(** ** Validation of a node without a value *)

Section UnsetValidation.

Context (dt : datatypes) (ut : util).
Implicit Types st : TypedStore dt.

Variable performTest :
  Xml -> list NodeRef -> bool -> Z -> list NodeRef -> Report -> M dt Report.

Lemma buildSubsets_unset st node nd usedefault text :
  unset st node nd usedefault text ->
  buildSubsets st usedefault [node] (mkSubsets [] [] [] [] [])
  = Ok (mkSubsets [] (if hasAttribute (templatenode nd) "hasoptions" then [node] else [])
                  [node] [] []).
Proof.
  intros U. simpl. unfold deref. rewrite (un_node U). simpl.
  rewrite (un_typed U). simpl. rewrite (un_value U). simpl.
  rewrite (un_no_min U), (un_no_max U).
  destruct (hasAttribute (templatenode nd) "hasoptions"); reflexivity.
Qed.

Lemma checkEmpty_unset st node nd usedefault text r :
  unset st node nd usedefault text ->
  checkEmpty node r st
  = (Ok (if isHidden st node then r else invalid node (not_set_message text) r), st).
Proof.
  intros U. unfold checkEmpty, bind, gets, the_node, lift, deref.
  destruct (isHidden st node); [reflexivity|].
  rewrite (un_node U), (un_text U). reflexivity.
Qed.

(** X14. For a node without options that has no value, [validate] returns the
    one error that it has not been set, and none when the node is hidden;
    whatever [repair] is, tree and document stay as they are. *)
Theorem validate_reports_unset_unless_hidden (fuel : nat) (st : TypedStore dt)
    (node : NodeRef) (nd : Node) (usedefault usehistory : bool) (repair : Z)
    (text : string) :
  unset st node nd usedefault text ->
  hasAttribute (templatenode nd) "hasoptions" = false ->
  exists st',
    validate ut performTest fuel (Some [node]) usedefault repair usehistory st
    = (Ok (if isHidden st node then [] else [not_set_message text]), st') /\
    root st' = root st /\ xmldocument st' = xmldocument st /\ trace st' = trace st.
Proof.
  intros U Hopt.
  assert (Hrun : _validate ut performTest fuel [node] usedefault repair usehistory st
                 = (Ok (if isHidden st node then ([], [(node, true)])
                        else ([not_set_message text], [(node, false)])), st)).
  { unfold _validate. unfold bind at 1. unfold gets at 1.
    unfold bind at 1. unfold lift at 1. rewrite (buildSubsets_unset U), Hopt.
    cbn [emptynodes customnodes selectnodes lboundnodes uboundnodes fold_report].
    unfold bind at 1. unfold bind at 1. rewrite (checkEmpty_unset _ U).
    unfold ret at 1.
    unfold bind at 1. unfold gets at 1. cbn [List.filter fold_report].
    unfold bind at 1. unfold ret at 1.
    unfold bind at 1. unfold ret at 1.
    unfold bind at 1. unfold ret at 1.
    unfold bind at 1. unfold ret at 1.
    unfold applyRules, bind, gets. rewrite (un_no_rules U).
    unfold ret, invalid. simpl. destruct (isHidden st node); [reflexivity|].
    simpl. rewrite bool_decide_eq_true_2 by reflexivity. reflexivity. }
  unfold validate. unfold bind at 1. unfold ret at 1. unfold bind at 1.
  rewrite Hrun. unfold bind.
  destruct (isHidden st node), usehistory; simpl;
    eexists; (split; [reflexivity|]); destruct st; auto.
Qed.

(** X15. For a node with options that has no value and that is not to be
    repaired, [validate] ends in an [AttributeError]: the message of the
    error asks the value, which is [None], for its text. *)
Theorem validate_raises_for_unset_option (fuel : nat) (st : TypedStore dt)
    (node : NodeRef) (nd : Node) (usedefault usehistory : bool) (repair : Z)
    (text : string) :
  unset st node nd usedefault text ->
  hasAttribute (templatenode nd) "hasoptions" = true ->
  repairs st repair node = false ->
  validate ut performTest fuel (Some [node]) usedefault repair usehistory st
  = (Raise AttributeError, st).
Proof.
  intros U Hopt Hrep.
  assert (Hrun : _validate ut performTest fuel [node] usedefault repair usehistory st
                 = (Raise AttributeError, st)).
  { unfold _validate. unfold bind at 1. unfold gets at 1.
    unfold bind at 1. unfold lift at 1. rewrite (buildSubsets_unset U), Hopt.
    cbn [emptynodes customnodes selectnodes lboundnodes uboundnodes fold_report].
    unfold bind at 1. unfold bind at 1. rewrite (checkEmpty_unset _ U).
    unfold ret at 1.
    unfold bind at 1. unfold gets at 1. cbn [List.filter fold_report].
    unfold bind at 1. unfold ret at 1.
    unfold bind at 1. unfold bind at 1.
    unfold checkSelect at 1. unfold bind, the_node, lift, deref, gets, ret.
    rewrite (un_node U), (un_value U). simpl. rewrite Hrep, (un_text U). reflexivity. }
  unfold validate. unfold bind at 1. unfold ret at 1. unfold bind at 1.
  rewrite Hrun. reflexivity.
Qed.

End UnsetValidation.

(** ** Registering converters *)

Section RegistryFacts.

Variable ConvertorClass : Type.
Implicit Types reg : Registry ConvertorClass.

Lemma assoc_dict_set {A} k (v : A) d k' :
  assoc k' (dict_set k v d) = if eqs k' k then Some v else assoc k' d.
Proof.
  induction d as [|[k0 x] d IH]; simpl.
  - rewrite (eqs_sym k k'). destruct (eqs k' k); reflexivity.
  - destruct (eqs k0 k) eqn:H0; simpl.
    + apply eqs_true in H0. subst k0.
      rewrite (eqs_sym k k'). destruct (eqs k' k); reflexivity.
    + rewrite IH. destruct (eqs k0 k') eqn:H1; [|reflexivity].
      apply eqs_true in H1. subst k0. now rewrite H0.
Qed.

Lemma addConverter_ids reg fixedsourceid fixedtargetid cls reg' :
  addConverter reg fixedsourceid fixedtargetid cls = Ok reg' ->
  exists s t, fixedsourceid = Some s /\ fixedtargetid = Some t.
Proof.
  destruct fixedsourceid as [s|], fixedtargetid as [t|]; try discriminate. eauto.
Qed.

Lemma registered_addConverter reg s t cls reg' :
  addConverter reg (Some s) (Some t) cls = Ok reg' ->
  forall a b,
  registered reg' a b = if eqs a s && eqs b t then Some cls else registered reg a b.
Proof.
  unfold addConverter, registered.
  destruct (assoc t (default [] (assoc s reg))) eqn:Hold; [discriminate|].
  intros H a b. injection H as <-. rewrite assoc_dict_set.
  destruct (eqs a s) eqn:Has; simpl.
  - apply eqs_true in Has. subst a. rewrite assoc_dict_set.
    destruct (eqs b t); [reflexivity|].
    destruct (assoc s reg); reflexivity.
  - reflexivity.
Qed.

(** X16. [addConverter] fails an assertion exactly when the class lacks its
    source version or its target version, or a class is registered for the
    same two versions already.  Once it has registered a class,
    [getConverter] returns it for these versions, and what is registered for
    other versions is as before. *)
Theorem addConverter_registers reg (fixedsourceid fixedtargetid : option string)
    (cls : ConvertorClass) :
  match addConverter reg fixedsourceid fixedtargetid cls with
  | Raise _ =>
      fixedsourceid = None \/ fixedtargetid = None \/
      exists s t, fixedsourceid = Some s /\ fixedtargetid = Some t /\
                  registered reg s t <> None
  | Ok reg' =>
      exists s t,
        fixedsourceid = Some s /\ fixedtargetid = Some t /\
        registered reg s t = None /\
        (forall directonly, getConverter reg' s t directonly = Some (Instance cls)) /\
        hasConverter reg' s t = true /\
        forall a b, (a, b) <> (s, t) -> registered reg' a b = registered reg a b
  end.
Proof.
  destruct fixedsourceid as [s|]; [|simpl; auto].
  destruct fixedtargetid as [t|]; [|simpl; auto].
  destruct (addConverter reg (Some s) (Some t) cls) as [reg'|e] eqn:Hadd.
  - pose proof (registered_addConverter Hadd) as Hreg.
    assert (Hdirect : getDirectConverter reg' s t = Some (Instance cls)).
    { specialize (Hreg s t). rewrite !eqs_refl in Hreg. simpl in Hreg.
      unfold registered in Hreg. unfold getDirectConverter.
      destruct (assoc s reg'); [|discriminate]. now rewrite Hreg. }
    exists s, t. split_and!; try reflexivity.
    + unfold addConverter in Hadd. unfold registered.
      destruct (assoc s reg); simpl in Hadd; [|reflexivity].
      destruct (assoc t l); [discriminate|reflexivity].
    + intros directonly. unfold getConverter. now rewrite Hdirect.
    + unfold hasConverter, getConverter. now rewrite Hdirect.
    + intros a b Hne. rewrite Hreg.
      destruct (eqs a s) eqn:Ha, (eqs b t) eqn:Hb; try reflexivity.
      apply eqs_true in Ha, Hb. congruence.
  - right. right. exists s, t. split_and!; try reflexivity.
    unfold addConverter in Hadd. unfold registered.
    destruct (assoc s reg); simpl in Hadd.
    + destruct (assoc t l); [discriminate|discriminate].
    + discriminate.
Qed.

(** *** Routes and reachability *)

Lemma edge_iff_registered reg a b : edge reg a b <-> registered reg a b <> None.
Proof.
  split.
  - intros H. destruct (edge_registered H) as [cls ->]. discriminate.
  - unfold edge, nextVersions, registered. destruct (assoc a reg) as [m|]; [|congruence].
    intros H. clear -H. induction m as [|[k x] m IH]; simpl in *; [congruence|].
    destruct (eqs k b) eqn:Hk; [left; now apply eqs_true|right; apply IH, H].
Qed.

Lemma chained_reaches reg : forall r a b,
  chained reg (a :: b :: r) -> reaches reg a (List.last (b :: r) a).
Proof.
  induction r as [|c r IH]; intros a b [He Hch].
  - simpl. now apply reaches_edge.
  - rewrite last_cons_cons. apply reaches_step with b; [exact He|].
    rewrite (last_change_default c r a b). apply IH. exact Hch.
Qed.

Lemma simple_path_reaches reg s t r : simple_path reg s t r -> reaches reg s t.
Proof.
  intros (Hhd & Hlast & Hlen & Hch & _).
  destruct r as [|a [|b r]]; simpl in Hlen; try lia.
  injection Hhd as ->. rewrite last_cons_cons in Hlast. subst t.
  apply chained_reaches. exact Hch.
Qed.

Lemma chained_suffix reg r1 : forall r2, chained reg (r1 ++ r2) -> chained reg r2.
Proof.
  induction r1 as [|a r1 IH]; intros r2 H; [exact H|].
  apply IH. destruct r1 as [|b r1]; simpl in *.
  - destruct r2; [exact I|tauto].
  - tauto.
Qed.

Lemma last_app_cons {A} (l1 : list A) a l2 d :
  List.last (l1 ++ a :: l2) d = List.last (a :: l2) d.
Proof.
  induction l1 as [|x l1 IH]; [reflexivity|].
  simpl app. destruct (l1 ++ a :: l2) eqn:H; [destruct l1; discriminate|].
  rewrite last_cons_cons. exact IH.
Qed.

Lemma reaches_simple_path reg s t :
  reaches reg s t -> s <> t -> exists r, simple_path reg s t r.
Proof.
  induction 1 as [a b He|a b c He Hbc IH]; intros Hne.
  - exists [a; b]. unfold simple_path. split_and!; simpl; auto.
    constructor; [intros [H|[]]; congruence|]. constructor; [intros []|constructor].
  - destruct (string_dec b c) as [->|Hbcne].
    { exists [a; c]. unfold simple_path. split_and!; simpl; auto.
      constructor; [intros [H|[]]; congruence|]. constructor; [intros []|constructor]. }
    destruct (IH Hbcne) as (r & Hhd & Hlast & Hlen & Hch & Hnd).
    destruct (in_dec string_dec a r) as [Hin|Hnin].
    + apply in_split in Hin as (r1 & r2 & ->).
      assert (Hr2 : r2 <> []).
      { intros ->. rewrite last_app_cons in Hlast. simpl in Hlast. congruence. }
      exists (a :: r2). unfold simple_path. split_and!.
      * reflexivity.
      * rewrite last_app_cons in Hlast. rewrite <- Hlast. apply last_change_default.
      * destruct r2; [congruence|simpl; lia].
      * exact (chained_suffix Hch).
      * apply NoDup_remove_1 in Hnd as Hnd1. apply NoDup_app_remove_l in Hnd. exact Hnd.
    + destruct r as [|b' r]; [discriminate|]. injection Hhd as ->.
      exists (a :: b :: r). unfold simple_path. split_and!.
      * reflexivity.
      * rewrite last_cons_cons. rewrite <- Hlast. apply last_change_default.
      * simpl. lia.
      * split; [exact He|exact Hch].
      * constructor; [exact Hnin|exact Hnd].
Qed.

Lemma hasConverter_paths reg a b :
  hasConverter reg a b = true <->
  registered reg a b <> None \/ exists r, simple_path reg a b r.
Proof.
  revert a b.
  intros a b. unfold hasConverter, getConverter, getDirectConverter, registered.
    destruct (assoc a reg) as [m|] eqn:Ha.
    - destruct (assoc b m) as [cls|] eqn:Hb.
      + split; [intros _; left; discriminate|reflexivity].
      + fold (findIndirectConversion reg a b).
        destruct (findIndirectConversion_total reg a b) as [routes Hroutes].
        rewrite Hroutes.
        assert (Hall : forall r, In r routes <-> simple_path reg a b r).
        { intros r. rewrite <- Route_simple_path.
          apply (findIndirectConversion_fuel_routes Hroutes). }
        destruct (sort_by_len routes) as [|route rest] eqn:Hsort.
        * split; [discriminate|]. intros [H|[r Hr]]; [congruence|].
          apply Hall, sort_by_len_In in Hr. rewrite Hsort in Hr. destruct Hr.
        * split; [|reflexivity]. intros _. right. exists route.
          apply Hall, sort_by_len_In. rewrite Hsort. now left.
    - destruct (findIndirectConversion_total reg a b) as [routes Hroutes].
      rewrite Hroutes.
      assert (Hall : forall r, In r routes <-> simple_path reg a b r).
      { intros r. rewrite <- Route_simple_path.
        apply (findIndirectConversion_fuel_routes Hroutes). }
      destruct (sort_by_len routes) as [|route rest] eqn:Hsort.
      + split; [discriminate|]. intros [H|[r Hr]]; [congruence|].
        apply Hall, sort_by_len_In in Hr. rewrite Hsort in Hr. destruct Hr.
      + split; [|reflexivity]. intros _. right. exists route.
        apply Hall, sort_by_len_In. rewrite Hsort. now left.
Qed.

Lemma hasConverter_other reg s t :
  s <> t -> (hasConverter reg s t = true <-> reaches reg s t).
Proof.
  intros Hne. rewrite hasConverter_paths. split.
  - intros [H|[r Hr]]; [apply reaches_edge, edge_iff_registered, H|].
    exact (simple_path_reaches Hr).
  - intros H. right. exact (reaches_simple_path H Hne).
Qed.

Lemma hasConverter_self reg s :
  hasConverter reg s s = true <-> registered reg s s <> None.
Proof.
  rewrite hasConverter_paths. split; [|auto]. intros [H|[r Hr]]; [exact H|]. exfalso.
  destruct Hr as (Hhd & Hlast & Hlen & _ & Hnd).
  destruct r as [|a [|b r]]; simpl in Hlen; try lia.
  injection Hhd as ->. inversion Hnd as [|? ? Hnin _]. apply Hnin.
  rewrite <- Hlast at 1. rewrite last_cons_cons. apply last_In.
Qed.

(** X17. For two different versions, [hasConverter] tells whether the target is
    reached from the source through registered converters; for a version
    and itself, whether a converter from it to itself is registered. *)
Theorem hasConverter_is_reachability reg (s t : string) :
  (s <> t -> (hasConverter reg s t = true <-> reaches reg s t)) /\
  (hasConverter reg s s = true <-> registered reg s s <> None).
Proof. split; [apply hasConverter_other|apply hasConverter_self]. Qed.

Lemma reaches_addConverter reg s t cls reg' :
  addConverter reg (Some s) (Some t) cls = Ok reg' ->
  forall a b, reaches reg a b -> reaches reg' a b.
Proof.
  intros Hadd a b. induction 1 as [a b He|a b c He _ IH].
  - apply reaches_edge, edge_iff_registered. rewrite (registered_addConverter Hadd).
    apply edge_iff_registered in He. destruct (eqs a s && eqs b t); [discriminate|exact He].
  - apply reaches_step with b; [|exact IH].
    apply edge_iff_registered. rewrite (registered_addConverter Hadd).
    apply edge_iff_registered in He. destruct (eqs a s && eqs b t); [discriminate|exact He].
Qed.

(** X18. Registering a converter takes no conversion away: what [hasConverter]
    found before, it finds afterwards. *)
Theorem addConverter_keeps_conversions reg (fixedsourceid fixedtargetid : option string)
    (cls : ConvertorClass) reg' (a b : string) :
  addConverter reg fixedsourceid fixedtargetid cls = Ok reg' ->
  hasConverter reg a b = true -> hasConverter reg' a b = true.
Proof.
  intros Hadd Hab.
  destruct (addConverter_ids Hadd) as (s & t & -> & ->).
  destruct (string_dec a b) as [->|Hne].
  - apply hasConverter_self. apply hasConverter_self in Hab.
    rewrite (registered_addConverter Hadd).
    destruct (eqs b s && eqs b t); [discriminate|exact Hab].
  - apply (hasConverter_other reg' Hne).
    apply (reaches_addConverter Hadd).
    apply (hasConverter_other reg Hne), Hab.
Qed.

End RegistryFacts.

(** ** Conditions that combine conditions *)

Section CombinedConditions.

Context (dt : datatypes).
Implicit Types self evaluator owner : TypedStore dt.

Lemma checkCondition_combined self evaluator owner (c : Xml) (ownernode : NodeRef)
    (ownstorename : option string) :
  conditionStore self c ownstorename = Some evaluator ->
  getAttribute c "type" = "and" \/ getAttribute c "type" = "or" ->
  checkCondition self c owner ownernode ownstorename
  = conditionLoop evaluator (getAttribute c "type") owner ownernode (childNodes c).
Proof.
  intros Hstore Htype.
  assert (Hhas : hasAttribute c "type" = true).
  { apply getAttribute_hasAttribute. destruct Htype as [-> | ->]; discriminate. }
  destruct c as [name attrs chs]. cbn [checkCondition].
  rewrite Hhas, Hstore. simpl negb. cbv iota.
  destruct Htype as [-> | ->]; reflexivity.
Qed.

Lemma conditionLoop_decides evaluator owner (ownernode : NodeRef) (condtype : string)
    (decisive : bool) :
  eqs condtype "and" = negb decisive -> eqs condtype "or" = decisive ->
  forall chs,
    let met ch := checkCondition evaluator ch owner ownernode None in
    let conds := List.filter (isElementNamed "condition") chs in
    (conditionLoop evaluator condtype owner ownernode chs = Ok (negb decisive) <->
     Forall (fun ch => met ch = Ok (negb decisive)) conds) /\
    (conditionLoop evaluator condtype owner ownernode chs = Ok decisive <->
     first_decides met decisive conds).
Proof.
  intros Hand Hor chs. simpl.
  induction chs as [|ch chs [IHall IHfirst]].
  - simpl. rewrite Hand. split.
    + split; [constructor|reflexivity].
    + split.
      * intros H. destruct decisive; discriminate.
      * intros (before & c & after & H & _). destruct before; discriminate.
  - cbn [conditionLoop List.filter]. fold (conditionLoop evaluator condtype owner ownernode).
    destruct (isElementNamed "condition" ch) eqn:Hname; [|split; assumption].
    rewrite Hand, Hor.
    destruct (checkCondition evaluator ch owner ownernode None) as [b|e] eqn:Hch; simpl.
    + destruct b, decisive; simpl.
      * split.
        -- split; [discriminate|]. intros H. inversion H; congruence.
        -- split; [|reflexivity]. intros _. exists [], ch, (List.filter (isElementNamed "condition") chs).
           split_and!; [reflexivity|constructor|exact Hch].
      * split.
        -- rewrite IHall. split.
           ++ intros H. constructor; [exact Hch|exact H].
           ++ intros H. inversion H; assumption.
        -- rewrite IHfirst. split.
           ++ intros (before & c & after & -> & Hb & Hc).
              exists (ch :: before), c, after. split_and!; [reflexivity|constructor; assumption|exact Hc].
           ++ intros (before & c & after & Heq & Hb & Hc).
              destruct before as [|x before]; simpl in Heq; injection Heq as <- Heq.
              ** congruence.
              ** exists before, c, after. inversion Hb. auto.
      * split.
        -- rewrite IHall. split.
           ++ intros H. constructor; [exact Hch|exact H].
           ++ intros H. inversion H; assumption.
        -- rewrite IHfirst. split.
           ++ intros (before & c & after & -> & Hb & Hc).
              exists (ch :: before), c, after. split_and!; [reflexivity|constructor; assumption|exact Hc].
           ++ intros (before & c & after & Heq & Hb & Hc).
              destruct before as [|x before]; simpl in Heq; injection Heq as <- Heq.
              ** congruence.
              ** exists before, c, after. inversion Hb. auto.
      * split.
        -- split; [discriminate|]. intros H. inversion H; congruence.
        -- split; [|reflexivity]. intros _. exists [], ch, (List.filter (isElementNamed "condition") chs).
           split_and!; [reflexivity|constructor|exact Hch].
    + split.
      * split; [discriminate|]. intros H. inversion H; congruence.
      * split; [discriminate|]. intros (before & c & after & Heq & Hb & Hc).
        destruct before as [|x before]; simpl in Heq; injection Heq as <- Heq.
        -- congruence.
        -- inversion Hb. congruence.
Qed.

(** X19. A condition of type [and] is met exactly when every child
    condition is met, and is not met exactly when one child condition is
    not met and those before it are; a condition of type [or] is not met
    exactly when no child condition is met, and is met exactly when one
    child condition is met and those before it are not.  The conditions
    after the one that decides are not evaluated: whether they would raise
    is of no consequence. *)
Theorem checkCondition_and_or self evaluator owner (c : Xml) (ownernode : NodeRef)
    (ownstorename : option string) :
  conditionStore self c ownstorename = Some evaluator ->
  let met ch := checkCondition evaluator ch owner ownernode None in
  let conds := List.filter (isElementNamed "condition") (childNodes c) in
  let result := checkCondition self c owner ownernode ownstorename in
  (getAttribute c "type" = "and" ->
   (result = Ok true <-> Forall (fun ch => met ch = Ok true) conds) /\
   (result = Ok false <-> first_decides met false conds)) /\
  (getAttribute c "type" = "or" ->
   (result = Ok false <-> Forall (fun ch => met ch = Ok false) conds) /\
   (result = Ok true <-> first_decides met true conds)).
Proof.
  intros Hstore. simpl. split; intros Htype.
  - rewrite (checkCondition_combined owner ownernode Hstore (or_introl Htype)), Htype.
    apply (@conditionLoop_decides evaluator owner ownernode "and" false); reflexivity.
  - rewrite (checkCondition_combined owner ownernode Hstore (or_intror Htype)), Htype.
    apply (@conditionLoop_decides evaluator owner ownernode "or" true); reflexivity.
Qed.

End CombinedConditions.

(** ** The visibility of a node follows its condition *)

Section VisibilityFacts.

Context (dt : datatypes) (ut : util).
Implicit Types st a b c : TypedStore dt.

Lemma only_notified_refl st : only_notified st st.
Proof. repeat split. Qed.

Lemma only_notified_trans a b c :
  only_notified a b -> only_notified b c -> only_notified a c.
Proof. unfold only_notified. intuition congruence. Qed.

Lemma beforeVisibilityChange_only_notifies node visible showhide :
  preserves only_notified (beforeVisibilityChange (dt:=dt) node visible showhide).
Proof.
  apply beforeVisibilityChange_preserves.
  - apply only_notified_refl.
  - apply only_notified_trans.
  - intros [] ?. repeat split.
  - intros [] ?. repeat split.
Qed.

Lemma afterVisibilityChange_only_notifies node visible showhide :
  preserves only_notified (afterVisibilityChange (dt:=dt) node visible showhide).
Proof.
  apply afterVisibilityChange_preserves.
  - apply only_notified_refl.
  - apply only_notified_trans.
  - intros [] ?. repeat split.
  - intros [] ?. repeat split.
Qed.

Lemma update_at_same_visible p : forall t nd,
  node_at t p = Some nd -> update_at (with_visible (visible nd)) p t = t.
Proof.
  induction p as [|i p IH]; intros t nd; simpl.
  - intros H. injection H as <-. destruct t; reflexivity.
  - destruct (children t !! i) as [c|] eqn:Hi; [|reflexivity].
    intros H. rewrite (IH c nd H). rewrite list_insert_id by exact Hi.
    destruct t; reflexivity.
Qed.

(** X20. A call of [updateVisibility] that returns leaves the node with the
    visibility its condition evaluates to, in the store as it was before
    the call; no other node, nor the document, nor the changed flag is
    touched, and when the visibility found is the one the node has, or
    notification is off, no interface is called. *)
Theorem updateVisibility_follows_condition st st' (self : NodeRef) (nd : Node)
    (cond : Xml) (notify : bool) :
  node_at (root st) self = Some nd ->
  findDescendantNode ut (templatenode nd) ["condition"] = Some cond ->
  updateVisibility ut self notify st = (Ok tt, st') ->
  exists shownew,
    checkCondition st cond st self None = Ok shownew /\
    root st' = update_at (with_visible shownew) self (root st) /\
    xmldocument st' = xmldocument st /\ changed st' = changed st /\
    (shownew = visible nd \/ notify = false -> trace st' = trace st).
Proof.
  intros Hnd Hcond. unfold updateVisibility, the_node, bind, lift, deref.
  rewrite Hnd, Hcond. intros H.
  destruct (checkCondition st cond st self None) as [shownew|e] eqn:Hcheck;
    [|discriminate].
  exists shownew. split; [reflexivity|].
  destruct (Bool.eqb shownew (visible nd)) eqn:Heq; simpl in H.
  - apply Bool.eqb_prop in Heq. subst shownew. unfold ret in H. injection H as <-.
    rewrite (update_at_same_visible Hnd). auto.
  - destruct notify.
    + destruct (beforeVisibilityChange self shownew true st) as [[[]|e] st1] eqn:H1;
        [|discriminate].
      pose proof (beforeVisibilityChange_only_notifies H1) as (Hr1 & Hd1 & Hc1 & _).
      unfold update_node, modify in H.
      pose proof (afterVisibilityChange_only_notifies H) as (Hr2 & Hd2 & Hc2 & _).
      simpl in *. split_and!; try congruence.
      intros [->|Hn]; [|discriminate].
      rewrite Bool.eqb_reflx in Heq. discriminate.
    + unfold update_node, modify, ret in H. injection H as <-. simpl. auto.
Qed.

End VisibilityFacts.

(** ** Locations at construction *)

Section InitLocations.

Context (dt : datatypes).

Lemma wf_locations_intro (n : Node) :
  Forall (fun c => location c = location n ++ [ownName c] /\ wf_locations c) (children n) ->
  wf_locations n.
Proof.
  destruct n as [ctl t vr vn loc chs vis grp]. simpl.
  induction 1 as [|c chs [Hloc Hc] _ IH]; [exact I|]. split_and!; assumption.
Qed.

Lemma located_ownName loc c :
  located loc c -> ownName c = getAttribute (templatenode c) "name".
Proof. intros [_ H]. unfold ownName. rewrite H. apply last_last. Qed.

Lemma located_getId loc c :
  located loc c -> getId c = Ok (getAttribute (templatenode c) "name").
Proof.
  intros Hc. rewrite <- (located_ownName Hc). apply getId_ownName.
  destruct Hc as [_ H]. rewrite H. destruct loc; discriminate.
Qed.

Lemma createChildren_located
    (create : Xml -> option DomId -> list string -> InitState -> result Node * InitState)
    tc loc l :
  (forall vc loc st n st', create tc vc loc st = (Ok n, st') ->
     (wf_locations n /\ named_by_schema n) /\ location n = loc /\ templatenode n = tc) ->
  forall chs st chs' st',
    createChildren (fun vc => create tc vc (loc ++ [getAttribute tc "name"])) l chs st
    = (Ok chs', st') ->
    Forall (located loc) chs -> Forall (located loc) chs'.
Proof.
  intros Hc. induction l as [|vc l IH]; intros chs st chs' st' H Hall; simpl in H.
  - injection H as <- <-. exact Hall.
  - destruct (create tc vc (loc ++ [getAttribute tc "name"]) st) as [[child|e] st1] eqn:Hcr;
      [|discriminate].
    apply (IH _ _ _ _ H). apply Forall_app. split; [exact Hall|].
    constructor; [|constructor].
    destruct (Hc _ _ _ _ _ Hcr) as (HP & Hloc & Ht). split; [exact HP|].
    rewrite Hloc, Ht. reflexivity.
Qed.

Lemma eachTemplateChild_located
    (create : Xml -> option DomId -> list string -> InitState -> result Node * InitState)
    vroot loc tcs :
  List.Forall (fun tc => forall vc loc st n st', create tc vc loc st = (Ok n, st') ->
     (wf_locations n /\ named_by_schema n) /\ location n = loc /\ templatenode n = tc) tcs ->
  forall dict chb chs st dict' chb' chs' st',
    eachTemplateChild create vroot loc tcs dict chb chs st = (Ok (dict', chb', chs'), st') ->
    Forall (located loc) chs -> Forall (located loc) chs'.
Proof.
  induction 1 as [|tc tcs Htc _ IH]; intros dict chb chs st dict' chb' chs' st' H Hall;
    simpl in H.
  - injection H as _ _ <- _. exact Hall.
  - destruct (isElementNamed "element" tc); [|eapply IH; eauto].
    destruct (dict_pop (getAttribute tc "name") dict) as [popped dict1].
    destruct (read_occurs tc) as [[mn mx]|e]; [|discriminate].
    match type of H with
    | context [enforce_occurs ?a1 ?a2 ?a3 ?a4 ?a5 ?a6] =>
        destruct (enforce_occurs a1 a2 a3 a4 a5 a6) as [[l|e] s1]
    end; [|discriminate].
    match type of H with
    | context [createChildren ?a1 ?a2 ?a3 ?a4] =>
        destruct (createChildren a1 a2 a3 a4) as [[chs1|e] s2] eqn:Hcr
    end; [|discriminate].
    apply (IH _ _ _ _ _ _ _ _ H).
    apply (createChildren_located Htc Hcr Hall).
Qed.

Lemma Node_init_located (customdatatypes : list (string * DataType dt)) (t : Xml) :
  forall vc loc st n st',
    Node_init customdatatypes t vc loc st = (Ok n, st') ->
    (wf_locations n /\ named_by_schema n) /\ location n = loc /\ templatenode n = t.
Proof.
  induction t as [name attrs chs IH] using Xml_ind.
  intros vc loc st n st' H.
  destruct (Node_init_creates H) as [_ Hb].
  destruct (Hb n eq_refl) as (_ & Ht & Hloc).
  split; [|split; assumption].
  cbn [Node_init] in H.
  destruct (negb (hasAttribute (Element name attrs chs) "name")); [discriminate|].
  cbn [childNodes] in H.
  match type of H with
  | context [eachTemplateChild ?a1 ?a2 ?a3 ?a4 ?a5 ?a6 ?a7 ?a8] =>
      destruct (eachTemplateChild a1 a2 a3 a4 a5 a6 a7 a8) as [rr st1] eqn:Hloop
  end.
  destruct rr as [[[dict1 chb1] chs1]|e]; [|discriminate].
  pose proof (eachTemplateChild_located IH Hloop (List.Forall_nil _)) as Hchs.
  match type of H with
  | (match ?x with Ok _ => _ | Raise _ => _ end) = _ => destruct x as [[vn dict2]|e]
  end; [|discriminate].
  match type of H with
  | (let (_, _) := ?x in _) = _ => destruct x as [rr2 st2]
  end.
  destruct rr2 as [[]|e]; [|discriminate]. injection H as <- <-.
  split.
  - apply wf_locations_intro. simpl.
    eapply List.Forall_impl; [|exact Hchs]. intros c Hc.
    rewrite (located_ownName Hc). destruct Hc as [[Hwf _] Hl]. split; assumption.
  - intros p c Hp Hat. destruct p as [|i p]; [congruence|]. simpl in Hat.
    destruct (chs1 !! i) as [ch|] eqn:Hi; [|discriminate].
    rewrite Forall_forall in Hchs.
    assert (Hch : located loc ch).
    { apply Hchs. eapply list_elem_of_lookup_2. exact Hi. }
    destruct p as [|j p].
    + injection Hat as <-. apply (located_getId Hch).
    + destruct Hch as [[_ Hn] _]. apply (Hn (j :: p)); [discriminate|exact Hat].
Qed.

(** X21. A node that [Node.__init__] returns has the location it was given,
    and below it every node has the location of its parent extended by its
    own name, which is the name of its schema element: the location of a
    node is that of the root followed by the names on the way down. *)
Theorem Node_init_locations (customdatatypes : list (string * DataType dt))
    (t : Xml) (valuenode : option DomId) (loc : list string)
    (st st' : InitState) (node : Node) :
  Node_init customdatatypes t valuenode loc st = (Ok node, st') ->
  location node = loc /\ wf_locations node /\
  forall p c, node_at node p = Some c ->
    location c = loc ++ names_along node p /\
    (p <> [] -> getId c = Ok (getAttribute (templatenode c) "name")).
Proof.
  intros H. destruct (Node_init_located H) as ([Hwf Hn] & Hloc & _).
  split_and!; [exact Hloc|exact Hwf|].
  intros p c Hat. split.
  - rewrite <- Hloc. apply (location_along Hwf Hat).
  - intros Hp. apply (Hn p c Hp Hat).
Qed.

End InitLocations.

(** ** The batch of dependants *)

Section DependantFacts.

Context (dt : datatypes) (ut : util).
Implicit Types st s : TypedStore dt.












End DependantFacts.

(** ** Writing a value *)

Section WriteFacts.

Context (dt : datatypes) (ut : util).
Implicit Types st s : TypedStore dt.

Ltac structure :=
  first [ apply same_structure_refl | apply same_structure_trans
        | intros [] *; repeat split; simpl;
          first [ apply length_insert
                | apply skeleton_update; intros []; reflexivity ] ].

Lemma create_valueroots_same_structure parents found :
  preserves same_structure (create_valueroots (dt:=dt) parents found).
Proof. apply create_valueroots_kept'; structure. Qed.

Lemma createValueNode_same_structure self :
  preserves same_structure (createValueNode (dt:=dt) self).
Proof. apply createValueNode_kept'; structure. Qed.

Lemma same_skeleton_node (t t' : Node) p x :
  skeleton t' = skeleton t -> node_at t p = Some x ->
  exists x', node_at t' p = Some x' /\ location x' = location x /\
             templatenode x' = templatenode x /\ controller x' = controller x.
Proof.
  intros Hsk Hx. pose proof (skeleton_node_at p Hsk) as Hp. rewrite Hx in Hp.
  destruct (node_at t' p) as [x'|]; [|discriminate].
  simpl in Hp. injection Hp as Hp. exists x'. split; [reflexivity|].
  destruct x, x'. simpl in *. injection Hp as -> -> -> _ _. auto.
Qed.

(** *** The value element is made *)

Lemma first_valueroot_parents (t : Node) : forall chain acc found parents,
  first_valueroot t chain acc = Ok (found, parents) -> exists ps, parents = ps ++ acc.
Proof.
  induction chain as [|r up IH]; intros acc found parents H; simpl in H; [discriminate|].
  destruct (node_at t r) as [nd|]; [|discriminate].
  destruct (valueroot nd).
  - injection H as _ <-. exists []. reflexivity.
  - destruct (IH _ _ _ H) as [ps ->]. exists (ps ++ [r]). now rewrite <- app_assoc.
Qed.

Lemma first_valueroot_self (t : Node) self up found parents nd :
  node_at t self = Some nd ->
  first_valueroot t (self :: up) [] = Ok (found, parents) ->
  match valueroot nd with
  | Some v => found = v /\ parents = []
  | None => exists ps, parents = ps ++ [self]
  end.
Proof.
  intros Hnd H. simpl in H. rewrite Hnd in H. destruct (valueroot nd).
  - injection H as <- <-. auto.
  - apply (first_valueroot_parents H).
Qed.

Lemma create_valueroots_returns parents : forall found st,
  List.Forall (fun p => exists x, node_at (root st) p = Some x /\ location x <> []) parents ->
  exists last st',
    create_valueroots parents found st = (Ok last, st') /\
    forall ps self, parents = ps ++ [self] ->
      exists x, node_at (root st') self = Some x /\ valueroot x = Some last.
Proof.
  induction parents as [|par rest IH]; intros found st Hall.
  - exists found, st. split; [reflexivity|]. intros ps self H. destruct ps; discriminate.
  - inversion Hall as [|? ? (x & Hx & Hloc) Hrest]; subst.
    cbn [create_valueroots]. unfold bind, the_node, lift, deref. rewrite Hx.
    rewrite (getId_ownName Hloc). unfold createElementNS.
    match goal with
    | |- context [create_valueroots rest ?f ?s] =>
        assert (Hsk : skeleton (root s) = skeleton (root st))
          by (destruct st; simpl; apply skeleton_update; intros []; reflexivity);
        assert (Hpar : exists x', node_at (root s) par = Some x' /\ valueroot x' = Some f);
        [|destruct (IH f s) as (last & st' & Hrun & Hlast)]
    end.
    + pose proof (@node_at_update (with_valueroot (Some (length (xmldocument st))))
                    (fun n => eq_refl) par par (root st)) as Hupd.
      rewrite Hx in Hupd. destruct Hupd as (x' & Hx' & Hs).
      rewrite bool_decide_eq_true_2 in Hs by reflexivity.
      exists x'. split; [destruct st; exact Hx'|]. unfold scalars in Hs. now injection Hs.
    + apply List.Forall_forall. intros p Hp.
      rewrite List.Forall_forall in Hrest. destruct (Hrest p Hp) as (y & Hy & Hly).
      destruct (same_skeleton_node Hsk Hy) as (y' & Hy' & Hl' & _).
      exists y'. split; [exact Hy'|congruence].
    + exists last, st'. split; [exact Hrun|]. intros ps self Hps.
      destruct rest as [|r2 rest'].
      * destruct ps as [|p0 [|p1 ps]]; try discriminate. injection Hps as <-.
        simpl in Hrun. injection Hrun as <- <-. exact Hpar.
      * destruct ps as [|p0 ps]; [discriminate|]. injection Hps as <- Hps.
        apply (Hlast ps self Hps).
Qed.

Lemma createValueNode_returns self st nd :
  node_at (root st) self = Some nd -> valuenode nd = None -> canHaveValue nd = true ->
  storable st self nd ->
  exists st', createValueNode self st = (Ok tt, st').
Proof.
  intros Hnd Hvn Hcan Hst. unfold storable in Hst. rewrite Hvn in Hst.
  destruct Hst as (Hloc & found & parents & doc & Hfirst & Htop & Hdoc & Hall).
  pose proof (first_valueroot_self Hnd Hfirst) as Hself.
  unfold createValueNode, bind, the_node, lift, deref, gets.
  rewrite Hnd, Hvn, Hcan. cbn [negb]. cbv iota.
  rewrite Hfirst, Htop, Hdoc. cbn [negb]. cbv iota.
  destruct (create_valueroots_returns found Hall) as (last & st1 & Hrun & Hlast).
  rewrite Hrun.
  destruct (create_valueroots_same_structure Hrun) as (Hsk & _).
  destruct (same_skeleton_node Hsk Hnd) as (x & Hx & Hlx & _).
  rewrite Hx.
  assert (Hroot : exists v, valueroot x = Some v).
  { destruct (valueroot nd) as [v|] eqn:Hv.
    - destruct Hself as [-> ->]. simpl in Hrun. injection Hrun as <- <-.
      rewrite Hnd in Hx. injection Hx as <-. eauto.
    - destruct Hself as [ps ->]. destruct (Hlast ps self eq_refl) as (x2 & Hx2 & Hv2).
      rewrite Hx in Hx2. injection Hx2 as <-. eauto. }
  destruct Hroot as [ownroot Hown]. rewrite Hown.
  destruct (canHaveValue x && canHaveChildren x).
  - rewrite getId_ownName by congruence. unfold createElementNS. eexists. reflexivity.
  - unfold update_node, modify. eexists. reflexivity.
Qed.

(** *** The change is reported *)

Lemma Interface_onChange_returns i node feature st nd :
  node_at (root st) node = Some nd -> isValid nd = true -> i < length (interfaces st) ->
  exists t, Interface_onChange i node feature st = (Ok tt, with_trace st t).
Proof.
  intros Hnd Hv Hi. destruct (lookup_lt_is_Some_2 _ _ Hi) as [self Hself].
  unfold Interface_onChange, bind, the_interface, the_node, lift, deref, assert_valid, gets.
  rewrite Hself, Hnd, Hv.
  destruct (eventhandlers self !! "afterChange") as [h|].
  - destruct (isHidden st node && blockNotifyOfHiddenNodes self).
    + exists (trace st). destruct st; reflexivity.
    + unfold call_handler. eexists. reflexivity.
  - exists (trace st). destruct st; reflexivity.
Qed.

Lemma notify_onChange_returns node feature nd : forall l st,
  node_at (root st) node = Some nd -> isValid nd = true ->
  List.Forall (fun i => i < length (interfaces st)) l ->
  exists t,
    for_each l (fun i =>
                  bind (gets (fun st => memb i (blockedinterfaces st)))
                       (fun blocked => if blocked then ret tt
                                       else Interface_onChange i node feature)) st
    = (Ok tt, with_trace st t).
Proof.
  induction l as [|i l IH]; intros st Hnd Hv Hall.
  - exists (trace st). destruct st; reflexivity.
  - inversion Hall as [|? ? Hi Hrest]; subst.
    cbn [for_each]. unfold bind at 1. unfold bind at 1. unfold gets at 1.
    assert (Hstep : exists t1,
              (if memb i (blockedinterfaces st) then ret tt
               else Interface_onChange i node feature) st = (Ok tt, with_trace st t1)).
    { destruct (memb i (blockedinterfaces st)).
      - exists (trace st). destruct st; reflexivity.
      - apply Interface_onChange_returns with nd; assumption. }
    destruct Hstep as [t1 Hstep]. rewrite Hstep.
    destruct (IH (with_trace st t1)) as [t2 Hrun].
    + destruct st; exact Hnd.
    + exact Hv.
    + destruct st; exact Hrest.
    + rewrite Hrun. exists t2. destruct st; reflexivity.
Qed.

(** A node without dependants: [onChange] marks the store, notifies the
    interfaces and returns. *)
Lemma onChange_returns fuel node feature st nd :
  0 < fuel -> node_at (root st) node = Some nd -> isValid nd = true ->
  findDescendantNode ut (templatenode nd) ["dependentvariables"] = None ->
  exists st', onChange ut fuel node feature st = (Ok tt, st').
Proof.
  destruct fuel as [|fuel]; [lia|]. intros _ Hnd Hv Hdeps.
  cbn [onChange]. unfold bind at 1. unfold modify at 1.
  unfold bind at 1. unfold each_interface. unfold bind at 1. unfold gets at 1.
  destruct (@notify_onChange_returns node feature nd
              (seq 0 (length (interfaces (with_changed st true)))) (with_changed st true))
    as [t Hrun].
  - destruct st; exact Hnd.
  - exact Hv.
  - apply List.Forall_forall. intros i Hi. apply in_seq in Hi. lia.
  - rewrite Hrun.
    unfold updateDependantNodes_with, bind, the_node, lift, deref.
    replace (node_at (root (with_trace (with_changed st true) t)) node) with (Some nd)
      by (destruct st; symmetry; exact Hnd).
    rewrite Hdeps. eexists. reflexivity.
Qed.

(** *** Set, then get *)

Lemma typed_canHaveValue st nd cls :
  getValueTypeClass st nd = Ok (Some cls) -> canHaveValue nd = true.
Proof.
  unfold getValueTypeClass, valueTypeClass, canHaveValue. intros H.
  apply getAttribute_hasAttribute. intros E. rewrite E in H. discriminate.
Qed.

(** Once the interfaces have allowed it, the value is written, whatever
    comes of reporting the change. *)
Lemma setValue_stores (fuel : nat) st (node : NodeRef) (nd : Node)
    (cls : DataType dt) (v w : Value dt) (cur : option (Value dt)) :
  node_at (root st) node = Some nd ->
  getValueTypeClass st nd = Ok (Some cls) ->
  accepted cls (templatenode nd) v w ->
  (forall i, valueroot nd = Some i \/ valuenode nd = Some i -> i < length (xmldocument st)) ->
  getValue st node false = Ok cur -> differs cur v = true ->
  fst (onBeforeChange node (Some v) st) = Ok true ->
  storable st node nd ->
  exists changed s3 nd3,
    setValue ut fuel node (Some v) st
    = bind (onChange ut fuel node "value") (fun _ => ret changed) s3 /\
    getValue s3 node false = Ok (Some w) /\
    node_at (root s3) node = Some nd3 /\
    templatenode nd3 = templatenode nd /\ controller nd3 = controller nd /\
    customdatatypes s3 = customdatatypes st.
Proof.
  intros Hnd Hcls (Hstored & _ & Hload) Hlive Hcur Hdiff Hallow Hstorable.
  destruct (onBeforeChange node (Some v) st) as [r st1] eqn:Hask.
  simpl in Hallow. subst r.
  pose proof (only_asked_fields (onBeforeChange_asks Hask))
    as (Hroot & Hdoc & _ & _ & _ & Hget & _).
  assert (Hcdt : customdatatypes st1 = customdatatypes st).
  { destruct (onBeforeChange_asks Hask) as [more [-> _]]. destruct st; reflexivity. }
  assert (Hcls1 : getValueTypeClass st1 nd = Ok (Some cls)).
  { unfold getValueTypeClass in *. now rewrite Hcdt. }
  assert (Hnd1 : node_at (root st1) node = Some nd) by (now rewrite Hroot).
  (* the value element, made if need be *)
  assert (Hnode : exists s2 nd2 vn,
            (match valuenode nd with
             | None => createValueNode node
             | Some _ => ret tt
             end) st1 = (Ok tt, s2) /\
            customdatatypes s2 = customdatatypes st /\
            node_at (root s2) node = Some nd2 /\ valuenode nd2 = Some vn /\
            vn < length (xmldocument s2) /\
            templatenode nd2 = templatenode nd /\ controller nd2 = controller nd).
  { destruct (valuenode nd) as [vn|] eqn:Hvn.
    - exists st1, nd, vn. rewrite Hdoc. split_and!; auto.
    - assert (Hst1 : storable st1 node nd).
      { unfold storable in *. rewrite Hvn in *. rewrite Hroot, Hdoc. exact Hstorable. }
      destruct (createValueNode_returns Hnd1 Hvn (typed_canHaveValue Hcls) Hst1)
        as [s2 Hrun].
      assert (Hlive1 : forall i, valueroot nd = Some i -> i < length (xmldocument st1)).
      { intros i Hi. rewrite Hdoc. apply Hlive. now left. }
      destruct (createValueNode_kept Hnd1 Hvn Hlive1 Hrun) as [Hc Hok].
      destruct (Hok eq_refl) as (nd2 & vn & Hnd2 & Hvn2 & Hvalid & Ht2).
      destruct (createValueNode_same_structure Hrun) as (Hsk & _).
      destruct (same_skeleton_node Hsk Hnd1) as (x & Hx & _ & _ & Hctl).
      rewrite Hnd2 in Hx. injection Hx as <-.
      exists s2, nd2, vn. split_and!; auto. congruence. }
  destruct Hnode as (s2 & nd2 & vn & Hrun & Hc2 & Hnd2 & Hvn2 & Hvalid & Ht2 & Hctl2).
  destruct (dt_save dt w (xmldocument s2) vn) as [d3 changed] eqn:Hsave.
  exists changed, (with_xmldocument s2 d3), nd2.
  split_and!.
  - unfold setValue, bind, lift. rewrite Hcur, Hdiff, Hask.
    unfold the_node, lift, deref. rewrite Hnd1, Hcls1.
    assert (Hstore : (if dt_isinstance dt v cls then ret v
                      else (fun st0 : TypedStore dt => (dt_construct dt cls v, st0))) st1
                     = (Ok w, st1)).
    { unfold stored_as in Hstored. destruct (dt_isinstance dt v cls).
      - injection Hstored as <-. reflexivity.
      - rewrite Hstored. reflexivity. }
    rewrite Hstore, Hrun, Hnd2, Hvn2, Hsave. reflexivity.
  - apply getValue_explicit with nd2 vn cls.
    + destruct s2; exact Hnd2.
    + exact Hvn2.
    + unfold getValueTypeClass in *. rewrite Ht2.
      replace (customdatatypes (with_xmldocument s2 d3)) with (customdatatypes st)
        by (destruct s2; symmetry; exact Hc2).
      exact Hcls.
    + replace (xmldocument (with_xmldocument s2 d3)) with d3 by (destruct s2; reflexivity).
      rewrite Ht2. pose proof (Hload (xmldocument s2) vn Hvalid) as Hl.
      rewrite Hsave in Hl. exact Hl.
  - destruct s2; exact Hnd2.
  - exact Ht2.
  - exact Hctl2.
  - destruct s2; exact Hc2.
Qed.

(** A call that returns after the interfaces allowed the change leaves the
    node with the value. *)
Lemma setValue_written (fuel : nat) st st1 (node : NodeRef) (nd : Node)
    (cls : DataType dt) (v w : Value dt) (cur : option (Value dt)) x st' :
  node_at (root st) node = Some nd ->
  getValueTypeClass st nd = Ok (Some cls) ->
  accepted cls (templatenode nd) v w ->
  (forall i, valueroot nd = Some i \/ valuenode nd = Some i -> i < length (xmldocument st)) ->
  getValue st node false = Ok cur -> differs cur v = true ->
  onBeforeChange node (Some v) st = (Ok true, st1) ->
  setValue ut fuel node (Some v) st = (Ok x, st') ->
  getValue st' node false = Ok (Some w).
Proof.
  intros Hnd Hcls (Hstored & _ & Hload) Hlive Hcur Hdiff Hask H.
  unfold setValue, bind, lift in H. rewrite Hcur, Hdiff, Hask in H.
  pose proof (only_asked_fields (onBeforeChange_asks Hask))
    as (Hroot & Hdoc & _ & _ & _ & Hget & _).
  assert (Hcdt : customdatatypes st1 = customdatatypes st).
  { destruct (onBeforeChange_asks Hask) as [more [-> _]]. destruct st; reflexivity. }
  unfold the_node, lift, deref in H. rewrite Hroot, Hnd in H.
  assert (Hcls1 : getValueTypeClass st1 nd = Ok (Some cls)).
  { unfold getValueTypeClass in *. now rewrite Hcdt. }
  rewrite Hcls1 in H.
  assert (Hstore : (if dt_isinstance dt v cls then ret v
                    else (fun st0 : TypedStore dt => (dt_construct dt cls v, st0))) st1
                   = (Ok w, st1)).
  { unfold stored_as in Hstored. destruct (dt_isinstance dt v cls).
    - injection Hstored as <-. reflexivity.
    - rewrite Hstored. reflexivity. }
  rewrite Hstore in H.
  match type of H with
  | match ?m st1 with _ => _ end = _ => destruct (m st1) as [[[]|e] s2] eqn:Hrun
  end; [|discriminate].
  assert (Hnode : customdatatypes s2 = customdatatypes st /\
            exists nd2 vn, node_at (root s2) node = Some nd2 /\ valuenode nd2 = Some vn /\
                           vn < length (xmldocument s2) /\
                           templatenode nd2 = templatenode nd).
  { destruct (valuenode nd) as [vn|] eqn:Hvn.
    - injection Hrun as <-. split; [exact Hcdt|].
      exists nd, vn. rewrite Hroot, Hdoc. split_and!; auto.
    - assert (Hnd1 : node_at (root st1) node = Some nd) by (now rewrite Hroot).
      assert (Hlive1 : forall i, valueroot nd = Some i -> i < length (xmldocument st1)).
      { intros i Hi. rewrite Hdoc. apply Hlive. now left. }
      destruct (createValueNode_kept Hnd1 Hvn Hlive1 Hrun) as [Hc Hok].
      split; [congruence|]. apply Hok. reflexivity. }
  destruct Hnode as (Hc2 & nd2 & vn & Hnd2 & Hvn2 & Hvalid & Ht2).
  rewrite Hnd2, Hvn2 in H.
  destruct (dt_save dt w (xmldocument s2) vn) as [d3 changed] eqn:Hsave.
  match type of H with
  | match onChange ut fuel node "value" ?s3 with _ => _ end = _ =>
      destruct (onChange ut fuel node "value" s3) as [[[]|e] s4] eqn:Hon;
        [|discriminate];
      pose proof (onChange_same_values Hon) as Hsame;
      assert (Hnd3 : node_at (root s3) node = Some nd2) by (destruct s2; exact Hnd2);
      assert (Hdoc3 : xmldocument s3 = d3) by (destruct s2; reflexivity);
      assert (Hc3 : customdatatypes s3 = customdatatypes s2) by (destruct s2; reflexivity)
  end.
  injection H as _ <-.
  destruct (same_values_node Hsame Hnd3) as (nd4 & Hnd4 & Hvn4 & Ht4).
  destruct Hsame as (Hdoc4 & Hc4 & _).
  apply getValue_explicit with nd4 vn cls.
  - exact Hnd4.
  - congruence.
  - unfold getValueTypeClass in *. rewrite Ht4, Ht2, Hc4, Hc3, Hc2. exact Hcls.
  - rewrite Hdoc4, Hdoc3, Ht4, Ht2.
    pose proof (Hload (xmldocument s2) vn Hvalid) as Hl. rewrite Hsave in Hl. exact Hl.
Qed.

(** With the interfaces allowing it and the node without dependants, the
    call returns, and the node has the value. *)
Lemma setValue_returns (fuel : nat) st (node : NodeRef) (nd : Node)
    (cls : DataType dt) (v w : Value dt) (cur : option (Value dt)) :
  node_at (root st) node = Some nd ->
  getValueTypeClass st nd = Ok (Some cls) ->
  accepted cls (templatenode nd) v w ->
  (forall i, valueroot nd = Some i \/ valuenode nd = Some i -> i < length (xmldocument st)) ->
  getValue st node false = Ok cur -> differs cur v = true ->
  fst (onBeforeChange node (Some v) st) = Ok true ->
  storable st node nd ->
  0 < fuel -> isValid nd = true ->
  findDescendantNode ut (templatenode nd) ["dependentvariables"] = None ->
  exists x st', setValue ut fuel node (Some v) st = (Ok x, st') /\
                getValue st' node false = Ok (Some w).
Proof.
  intros Hnd Hcls Hacc Hlive Hcur Hdiff Hallow Hstorable Hfuel Hvalid Hdeps.
  destruct (setValue_stores fuel Hnd Hcls Hacc Hlive Hcur Hdiff Hallow Hstorable)
    as (changed & s3 & nd3 & Hrun & _ & Hnd3 & Ht3 & Hctl3 & _).
  assert (Hvalid3 : isValid nd3 = true) by (unfold isValid in *; now rewrite Hctl3).
  rewrite <- Ht3 in Hdeps.
  destruct (onChange_returns "value" Hfuel Hnd3 Hvalid3 Hdeps) as [st' Hon].
  unfold bind in Hrun. rewrite Hon in Hrun.
  exists changed, st'. split; [exact Hrun|].
  destruct (onBeforeChange node (Some v) st) as [r st1] eqn:Hask. simpl in Hallow. subst r.
  exact (setValue_written Hnd Hcls Hacc Hlive Hcur Hdiff Hask Hrun).
Qed.

(** C1. Let the schema element of a node declare a type, and let [v] be a
    value the type accepts, storing it as [w]: [v] itself, or what the class
    makes of a value that is not an instance of it.  When [setValue(v)]
    returns, either [getValue()] returns a value equal to [v] (what was
    stored, or the current value, which was not different), or the
    interfaces were asked and denied the change, and the node tree and the
    value document, hence the value of the node, are as before.  And when
    the value differs from the current one and the interfaces allow the
    change, the value is written, with a value element made for the node
    where it has none: nothing but the report of the change can fail then,
    and for a node without dependants the call returns and [getValue()] is
    the value stored. *)
Theorem setValue_then_getValue (fuel : nat) st (node : NodeRef)
    (nd : Node) (cls : DataType dt) (v w : Value dt) :
  node_at (root st) node = Some nd ->
  getValueTypeClass st nd = Ok (Some cls) ->
  accepted cls (templatenode nd) v w ->
  (forall i, valueroot nd = Some i \/ valuenode nd = Some i -> i < length (xmldocument st)) ->
  (forall x st',
     setValue ut fuel node (Some v) st = (Ok x, st') ->
     (exists u, getValue st' node false = Ok (Some u) /\ (u = v \/ dt_ne dt u v = false)) \/
     (exists st1, onBeforeChange node (Some v) st = (Ok false, st1) /\
                  root st' = root st /\ xmldocument st' = xmldocument st /\
                  getValue st' node false = getValue st node false)) /\
  (forall cur,
     getValue st node false = Ok cur -> differs cur v = true ->
     fst (onBeforeChange node (Some v) st) = Ok true ->
     storable st node nd ->
     (exists changed st2,
        getValue st2 node false = Ok (Some w) /\
        setValue ut fuel node (Some v) st
        = bind (onChange ut fuel node "value") (fun _ => ret changed) st2) /\
     (0 < fuel -> isValid nd = true ->
      findDescendantNode ut (templatenode nd) ["dependentvariables"] = None ->
      exists x st', setValue ut fuel node (Some v) st = (Ok x, st') /\
                    getValue st' node false = Ok (Some w))).
Proof.
  intros Hnd Hcls Hacc Hlive. split.
  - intros x st' H.
    destruct (getValue st node false) as [cur|e] eqn:Hcur.
    2: { unfold setValue, bind, lift in H. rewrite Hcur in H. discriminate. }
    destruct (differs cur v) eqn:Hdiff.
    + destruct (onBeforeChange node (Some v) st) as [[[|]|e] st1] eqn:Hask.
      * left. exists w. split; [|apply Hacc].
        eapply setValue_written; eauto.
      * right. exists st1. unfold setValue, bind, lift in H.
        rewrite Hcur, Hdiff, Hask in H. injection H as _ <-.
        pose proof (only_asked_fields (onBeforeChange_asks Hask))
          as (Hroot & Hdoc & _ & _ & _ & Hget & _).
        split_and!; auto. rewrite Hget. exact Hcur.
      * unfold setValue, bind, lift in H. rewrite Hcur, Hdiff, Hask in H. discriminate.
    + left. unfold setValue, bind, lift in H. rewrite Hcur, Hdiff in H.
      injection H as _ <-. destruct cur as [c|]; [|discriminate].
      exists c. split; [exact Hcur|]. right. exact Hdiff.
  - intros cur Hcur Hdiff Hallow Hstorable. split.
    + destruct (setValue_stores fuel Hnd Hcls Hacc Hlive Hcur Hdiff Hallow Hstorable)
        as (changed & s3 & nd3 & Hrun & Hval & _).
      exists changed, s3. split; assumption.
    + intros Hfuel Hvalid Hdeps.
      exact (setValue_returns Hnd Hcls Hacc Hlive Hcur Hdiff Hallow Hstorable
               Hfuel Hvalid Hdeps).
Qed.

End WriteFacts.

(** ** A value above its maximum, repaired *)

Section RepairFacts.

Context (dt : datatypes) (ut : util).
Implicit Types st s : TypedStore dt.

Variable performTest :
  Xml -> list NodeRef -> bool -> Z -> list NodeRef -> Report -> M dt Report.

(** The interfaces deny: nothing is written, and [setValue] says so. *)
Lemma setValue_vetoed (fuel : nat) st st1 (node : NodeRef) (v : Value dt)
    (cur : option (Value dt)) :
  getValue st node false = Ok cur -> differs cur v = true ->
  onBeforeChange node (Some v) st = (Ok false, st1) ->
  setValue ut fuel node (Some v) st = (Ok (PyBool false), st1).
Proof.
  intros Hcur Hdiff Hask. unfold setValue, bind, lift. rewrite Hcur, Hdiff, Hask.
  reflexivity.
Qed.

(** With [repair=2] the bound is handed to [setValue], and no error is
    reported, whatever [setValue] returns. *)
Lemma validate_repair_runs (fuel : nat) st st2 (node : NodeRef) (nd : Node)
    (usedefault usehistory : bool) (v lo hi : Value dt) (x : pyval) :
  bounded_above st node nd usedefault v lo hi ->
  setValue ut fuel node (Some hi) st = (Ok x, st2) ->
  exists st',
    validate ut performTest fuel (Some [node]) usedefault 2 usehistory st = (Ok [], st') /\
    root st' = root st2 /\ xmldocument st' = xmldocument st2 /\
    customdatatypes st' = customdatatypes st2 /\ defaultstore st' = defaultstore st2.
Proof.
  intros B Hset.
  destruct (setValue_same_schema Hset) as (Hschema & Hcdt & Hvalid).
  assert (Hrun : _validate ut performTest fuel [node] usedefault 2 usehistory st
                 = (Ok ([], [(node, true)]), st2)).
  { unfold _validate. unfold bind at 1. unfold gets at 1.
    unfold bind at 1. unfold lift at 1. rewrite (buildSubsets_bounded B).
    cbn [emptynodes customnodes selectnodes lboundnodes uboundnodes fold_report].
    unfold bind at 1. unfold ret at 1.
    unfold bind at 1. unfold gets at 1. cbn [List.filter fold_report].
    unfold bind at 1. unfold ret at 1.
    unfold bind at 1. unfold ret at 1.
    unfold bind at 1. unfold bind at 1.
    rewrite (checkBound_lower_ok ut fuel 2 _ B). unfold ret at 1.
    unfold bind at 1. unfold bind at 1.
    unfold checkBound at 1. unfold bind, the_node, lift, deref, gets, repairs, ret.
    rewrite (ba_node B), (ba_value B), (ba_max B), (ba_hi B), (ba_above B).
    change (2 =? 2)%Z with true. cbn [orb]. rewrite Hset.
    unfold applyRules, bind, gets. rewrite Hschema, (ba_no_rules B). reflexivity. }
  unfold validate. unfold bind at 1. unfold ret at 1. unfold bind at 1.
  rewrite Hrun. unfold bind. destruct usehistory.
  - eexists. split; [reflexivity|]. destruct st2; repeat split.
  - eexists. split; [reflexivity|]. repeat split.
Qed.

(** C8. For a node bounded by 0 and 10 whose value lies above 10,
    [validate] of that node with [repair=0] returns the one error that the
    value lies above the maximum and leaves the value as it is.  With
    [repair=2] it hands the maximum to [setValue] and returns no error:
    when an interface denies the change the value stays as it is; when the
    interfaces allow it the stored value is the maximum wherever the call
    returns, and it does return for a node without dependants. *)
Theorem validate_above_maximum (fuel : nat) st (node : NodeRef)
    (nd : Node) (usedefault usehistory : bool) (v lo hi : Value dt) (text : string) :
  bounded_above st node nd usedefault v lo hi ->
  getText st nd 1 = Ok text ->
  (exists st',
     validate ut performTest fuel (Some [node]) usedefault 0 usehistory st
     = (Ok [above_maximum_message text v hi], st') /\
     root st' = root st /\ xmldocument st' = xmldocument st /\
     getValue st' node usedefault = Ok (Some v)) /\
  (forall cur,
     getValue st node false = Ok cur -> differs cur hi = true ->
     (fst (onBeforeChange node (Some hi) st) = Ok false ->
      exists st',
        validate ut performTest fuel (Some [node]) usedefault 2 usehistory st
        = (Ok [], st') /\
        root st' = root st /\ xmldocument st' = xmldocument st /\
        getValue st' node usedefault = Ok (Some v)) /\
     (forall cls w,
        fst (onBeforeChange node (Some hi) st) = Ok true ->
        getValueTypeClass st nd = Ok (Some cls) ->
        accepted cls (templatenode nd) hi w ->
        (forall i, valueroot nd = Some i \/ valuenode nd = Some i ->
                   i < length (xmldocument st)) ->
        (forall x st2,
           setValue ut fuel node (Some hi) st = (Ok x, st2) ->
           exists st',
             validate ut performTest fuel (Some [node]) usedefault 2 usehistory st
             = (Ok [], st') /\
             getValue st' node false = Ok (Some w)) /\
        (storable st node nd -> 0 < fuel -> isValid nd = true ->
         findDescendantNode ut (templatenode nd) ["dependentvariables"] = None ->
         exists st',
           validate ut performTest fuel (Some [node]) usedefault 2 usehistory st
           = (Ok [], st') /\
           getValue st' node false = Ok (Some w)))).
Proof.
  intros B Htext. split; [eapply validate_reports; eauto|].
  intros cur Hcur Hdiff. split.
  - intros Hdeny.
    destruct (onBeforeChange node (Some hi) st) as [r st1] eqn:Hask.
    simpl in Hdeny. subst r.
    pose proof (only_asked_fields (onBeforeChange_asks Hask))
      as (Hroot & Hdoc & _ & _ & _ & Hget & _).
    destruct (validate_repair_runs usehistory B
                (setValue_vetoed fuel Hcur Hdiff Hask))
      as (st' & Hrun & Hr & Hd & Hc & Hdef).
    exists st'. split; [exact Hrun|]. split_and!; try congruence.
    rewrite (getValue_ext node usedefault Hr Hd Hc Hdef), Hget. exact (ba_value B).
  - intros cls w Hallow Hcls Hacc Hlive.
    destruct (onBeforeChange node (Some hi) st) as [r st1] eqn:Hask.
    simpl in Hallow. subst r.
    assert (Hwritten : forall x st2,
              setValue ut fuel node (Some hi) st = (Ok x, st2) ->
              exists st',
                validate ut performTest fuel (Some [node]) usedefault 2 usehistory st
                = (Ok [], st') /\
                getValue st' node false = Ok (Some w)).
    { intros x st2 Hset.
      destruct (validate_repair_runs usehistory B Hset)
        as (st' & Hrun & Hr & Hd & Hc & Hdef).
      exists st'. split; [exact Hrun|].
      rewrite (getValue_ext node false Hr Hd Hc Hdef).
      exact (setValue_written (ba_node B) Hcls Hacc Hlive Hcur Hdiff Hask Hset). }
    split; [exact Hwritten|].
    intros Hstorable Hfuel Hvalid Hdeps.
    assert (Hallow : fst (onBeforeChange node (Some hi) st) = Ok true)
      by (rewrite Hask; reflexivity).
    destruct (setValue_returns (ba_node B) Hcls Hacc Hlive Hcur Hdiff Hallow Hstorable
                Hfuel Hvalid Hdeps) as (x & st2 & Hset & _).
    exact (Hwritten x st2 Hset).
Qed.

End RepairFacts.

(** * The properties on the example store *)

(** A run is its result and the state it ends in. *)
Lemma run_result {A S : Type} (p : A * S) (a : A) : fst p = a -> p = (a, snd p).
Proof. destruct p. simpl. intros ->. reflexivity. Qed.

(** C10 on the example tree, for an interface that hides the hidden nodes
    and omits the groupers. *)
Lemma getChildCount_is_length_getChildren_witness :
  tree_valid ex_root = true /\
  exists l,
    getChildren (TypedStoreInterface_init int_datatypes false true 0 "gui") ex_root [] = Ok l /\
    getChildCount (TypedStoreInterface_init int_datatypes false true 0 "gui") ex_root
    = Ok (length l).
Proof.
  split; [reflexivity|].
  apply (proj2 (getChildCount_is_length_getChildren
                  (TypedStoreInterface_init int_datatypes false true 0 "gui") ex_root [])).
  vm_compute. reflexivity.
Defined.

(** C3 on the example registry: no class converts [1.0] to [1.2]
    directly, and of the two routes the one over [1.1] is the shorter. *)
Lemma getConverter_routes_witness :
  registered ex_registry "1.0" "1.2" = None /\
  getConverter ex_registry "1.0" "1.2" true = None /\
  exists routes,
    findIndirectConversion ex_registry "1.0" "1.2" = Some routes /\
    (forall r, In r routes <-> simple_path ex_registry "1.0" "1.2" r) /\
    match getConverter ex_registry "1.0" "1.2" false with
    | None => routes = []
    | Some c =>
        exists route classes,
          In route routes /\
          (forall r, simple_path ex_registry "1.0" "1.2" r -> length route <= length r) /\
          classesAlong ex_registry route = Some classes /\
          length classes = length route - 1 /\
          c = ConvertorChain (map (fun cls => Some (Instance cls)) classes) /\
          forall data, convert ex_convertWith c data
                       = Some (fold_left (fun d cls => ex_convertWith cls d) classes data)
    end.
Proof.
  split; [reflexivity|].
  apply (proj2 (getConverter_routes ex_convertWith ex_registry "1.0" "1.2")).
  reflexivity.
Defined.

(** C9, as the code has it, for the first [item] of the group. *)
Lemma getitem_of_location_witness :
  node_at ex_root [3; 0] = Some (ex_node [3; 0]) /\
  Node_getitem ex_root ex_document [] (join "/" (location (ex_node [3; 0]))) = Ok (Some [3; 0]).
Proof.
  split; [reflexivity|].
  apply (@getitem_of_location ex_root ex_document [3; 0] (ex_node [3; 0])).
  - reflexivity.
  - vm_compute. repeat split.
  - reflexivity.
  - reflexivity.
  - reflexivity.
Defined.

(** C9 as stated fails for the second [item] of the group: the
    tree is the one [Node.__init__] builds for the example, the node is
    present in it, and the path joined from its location leads to the first
    [item], its elder sibling of the same name. *)
Lemma getitem_of_location_counterexample :
  exists (root : Node) (d : Dom) (p : NodeRef) (nd : Node),
    Node_init (dt:=int_datatypes) [] ex_schema (Some 1) [] (ex_dom, []) = (Ok root, (d, ex_messages)) /\
    node_at root p = Some nd /\
    Node_getitem root d [] (join "/" (location nd)) = Ok (Some [3; 0]) /\
    p <> [3; 0].
Proof.
  exists ex_root0, ex_document, [3; 1], (ex_node [3; 1]).
  split_and!; [vm_compute; reflexivity | reflexivity | vm_compute; reflexivity | discriminate].
Defined.

(** C6 on the group of the example: three entries for an [item] that may
    occur twice. *)
Lemma Node_init_cardinality_witness :
  exists groups,
    children (ex_node [3]) = concat groups /\
    List.Forall2 (group_ok (Some 4) ["group"] (ex_document, ex_messages))
      (matching (entriesNamed ex_dom (Some 4)) (childNodes ex_group)) groups.
Proof.
  apply (@Node_init_cardinality int_datatypes [] ex_group (Some 4) ["group"]
           (ex_dom, []) (ex_document, ex_messages) (ex_node [3])).
  - vm_compute. repeat constructor; simpl; intuition discriminate.
  - vm_compute. reflexivity.
Defined.

(** C2 on the example store: [extra] has no value, and the condition on it
    is met. *)
Lemma checkCondition_target_without_value_witness :
  getValue (ex_store true) [1] true = Ok None /\
  checkCondition (ex_store true) ex_condition (ex_store true) [2] None = Ok true.
Proof.
  split; [reflexivity|].
  apply (@checkCondition_target_without_value int_datatypes
           (ex_store true) (ex_store true) (ex_store true) (ex_store true)
           ex_condition [2] [1] None).
  - left. reflexivity.
  - reflexivity.
  - reflexivity.
  - reflexivity.
  - reflexivity.
Defined.

(** C4 on the example store with an interface that denies every change. *)
Lemma setValue_denied_witness :
  exists r st',
    setValue (dt:=int_datatypes) dom_util 5 [2] (Some 7%Z) (ex_store false) = (Ok r, st') /\
    truthy r = false /\
    root st' = ex_root /\ xmldocument st' = ex_document /\
    changed st' = false /\
    exists more, trace st' = [] ++ more /\ List.Forall is_beforeChange more.
Proof.
  apply (@setValue_denied int_datatypes dom_util 5 (ex_store false)
           (snd (onBeforeChange (dt:=int_datatypes) [2] (Some 7%Z) (ex_store false)))
           [2] (ex_node [2]) (Some 7%Z)).
  - reflexivity.
  - intros v _. exists (Some 50%Z). vm_compute. reflexivity.
  - apply run_result. vm_compute. reflexivity.
Defined.

(** Whatever [setValue(None)] does, what it returns is [None]. *)
Lemma setValue_None_result (dt : datatypes) (ut : util) (fuel : nat) (node : NodeRef)
    (st st' : TypedStore dt) (r : pyval) :
  setValue ut fuel node None st = (Ok r, st') -> r = PyNone.
Proof.
  unfold setValue, bind, ret. destruct (clearValue ut fuel node false st) as [[b|e] st1];
    intros H; inversion H; reflexivity.
Qed.

(** The equal value of C5 on the example store: nothing is asked of the
    interface, which would deny. *)
Lemma setValue_same_witness :
  setValue (dt:=int_datatypes) dom_util 5 [2] (Some 50%Z) (ex_store false) = (Ok (PyBool false), ex_store false).
Proof.
  apply (@setValue_same int_datatypes dom_util 5 (ex_store false) [2] 50%Z 50%Z);
    reflexivity.
Defined.

(** C5. The return value of [setValue] does not always report whether a
    change occurred: on the example store [count] holds 50,
    [setValue(None)] removes its value element from the document, after
    which the node has no value, and what it returns is [None], which is
    not true.  (For a value equal to the current one [setValue] is the
    no-op it is said to be: [setValue_same].) *)
Theorem setValue_None_returns_None :
  getValue (ex_store true) [2] false = Ok (Some 50%Z) /\
  exists st',
    setValue (dt:=int_datatypes) dom_util 5 [2] None (ex_store true) = (Ok PyNone, st') /\
    getValue st' [2] false = Ok None /\
    xmldocument st' <> xmldocument (ex_store true) /\
    truthy PyNone = false.
Proof.
  split; [reflexivity|].
  exists (snd (setValue (dt:=int_datatypes) dom_util 5 [2] None (ex_store true))).
  split_and!.
  - apply run_result. vm_compute. reflexivity.
  - vm_compute. reflexivity.
  - vm_compute. discriminate.
  - reflexivity.
Qed.

(** X1 on the form: the box is a grouper and [h] is hidden. *)
Lemma getChildren_lists_shown_children_witness :
  getChildren ex_flat ex_form [] = Ok [[0]; [1; 0]; [2]] /\
  forall q, q ∈ [[0]; [1; 0]; [2]] <-> exists r, q = [] ++ r /\ listed ex_flat ex_form r = true.
Proof.
  split; [reflexivity|].
  apply (@getChildren_lists_shown_children int_datatypes ex_flat ex_form []
           [[0]; [1; 0]; [2]]).
  reflexivity.
Defined.

(** X2 on the form: the second entry is [b], inside the box. *)
Lemma getChildByIndex_is_entry_of_getChildren_witness :
  getChildren ex_flat ex_form [] = Ok [[0]; [1; 0]; [2]] /\
  getChildByIndex ex_flat ex_form [] 1 false = Ok (FoundChild [1; 0]).
Proof.
  split; [reflexivity|].
  apply (@getChildByIndex_is_entry_of_getChildren int_datatypes ex_flat ex_form []
           [[0]; [1; 0]; [2]] 1).
  reflexivity.
Defined.

(** X3 on the form: [d] is the third entry. *)
Lemma getOwnIndex_of_listed_child_witness :
  getChildren ex_flat ex_form [] = Ok [[0]; [1; 0]; [2]] /\
  getOwnIndex ex_flat ex_form [2] = Ok 2.
Proof.
  split; [reflexivity|].
  apply (@getOwnIndex_of_listed_child int_datatypes ex_flat ex_form ex_form []
           [[0]; [1; 0]; [2]] 2 [2]
           (default ex_form (node_at ex_form [2]))); reflexivity.
Defined.

(** X6 on the form, where no node has a value: the four nodes of a type. *)
Lemma getEmptyNodes_lists_unset_witness :
  getEmptyNodes ex_form_store ex_form [] false = Ok [[0]; [1; 0]; [1; 1]; [2]] /\
  forall q, q ∈ [[0]; [1; 0]; [1; 1]; [2]] <->
    (q = [] /\ is_empty ex_form_store [] false) \/
    (exists r, r <> [] /\ q = [] ++ r /\ is_empty ex_form_store ([] ++ r) false).
Proof.
  split; [reflexivity|].
  apply (@getEmptyNodes_lists_unset int_datatypes ex_form_store ex_form [] false
           [[0]; [1; 0]; [1; 1]; [2]]); reflexivity.
Defined.

(** X7 on the example store: 7 for [count]. *)
Lemma setValue_keeps_the_tree_witness :
  let st' := snd (setValue (dt:=int_datatypes) dom_util 5 [2] (Some 7%Z) (ex_store true)) in
  same_structure (ex_store true) st' /\
  forall p,
    option_map (fun n => (templatenode n, location n, length (children n)))
               (node_at (root st') p)
    = option_map (fun n => (templatenode n, location n, length (children n)))
                 (node_at (root (ex_store true)) p).
Proof.
  apply (@setValue_keeps_the_tree int_datatypes dom_util 5 (ex_store true)
           (snd (setValue (dt:=int_datatypes) dom_util 5 [2] (Some 7%Z) (ex_store true)))
           [2] (Some 7%Z) (Ok (PyBool true))).
  apply run_result. vm_compute. reflexivity.
Defined.

(** X8 on the example store, which is not marked before. *)
Lemma setValue_marks_the_store_witness :
  let st' := snd (setValue (dt:=int_datatypes) dom_util 5 [2] (Some 7%Z) (ex_store true)) in
  changed (ex_store true) = false /\
  (forall x, Ok (PyBool true) = Ok x -> truthy x = true -> changed st' = true) /\
  (changed (ex_store true) = true -> changed st' = true).
Proof.
  split; [reflexivity|].
  apply (@setValue_marks_the_store int_datatypes dom_util 5 (ex_store true)
           (snd (setValue (dt:=int_datatypes) dom_util 5 [2] (Some 7%Z) (ex_store true)))
           [2] (Some 7%Z) (Ok (PyBool true))).
  apply run_result. vm_compute. reflexivity.
Defined.

(** X9 on the example store: [count] is cleared. *)
Lemma clearValue_clears_or_keeps_witness :
  let st' := snd (clearValue (dt:=int_datatypes) dom_util 5 [2] false (ex_store true)) in
  getValue (ex_store true) [2] false = Ok (Some 50%Z) /\
  getValue st' [2] false = Ok None.
Proof.
  split; [reflexivity|].
  apply (@clearValue_clears_or_keeps int_datatypes dom_util 5 (ex_store true)
           (snd (clearValue (dt:=int_datatypes) dom_util 5 [2] false (ex_store true)))
           [2] false true).
  apply run_result. vm_compute. reflexivity.
Defined.

(** X10 on the example store with the interface that denies. *)
Lemma onBeforeChange_asks_until_denied_witness :
  let st := ex_store false in
  let st' := snd (onBeforeChange (dt:=int_datatypes) [2] (Some 7%Z) st) in
  exists more,
    st' = with_trace st (trace st ++ more) /\
    exists i,
      i < length (interfaces st) /\ memb i (blockedinterfaces st) = false /\
      fst (Interface_onBeforeChange (dt:=int_datatypes) i [2] (Some 7%Z) st) = Ok false /\
      (forall j, j < i -> memb j (blockedinterfaces st) = false ->
                 fst (Interface_onBeforeChange (dt:=int_datatypes) j [2] (Some 7%Z) st) = Ok true) /\
      forall k event args, In (Called k event args) more -> k <= i.
Proof.
  apply (@onBeforeChange_asks_until_denied int_datatypes (ex_store false)
           (snd (onBeforeChange (dt:=int_datatypes) [2] (Some 7%Z) (ex_store false)))
           [2] (Some 7%Z) false).
  apply run_result. vm_compute. reflexivity.
Defined.

(** X11 on a history of the first two nodes and a validation that found
    the first invalid and the third valid: the second and the third are in
    the new history. *)
Lemma updateValidationHistory_adds_and_discards_witness :
  updateValidationHistory [([0], false); ([2], true)] [[0]; [1]] = [[1]; [2]] /\
  ([0] ∈ updateValidationHistory [([0], false); ([2], true)] [[0]; [1]] <->
   ([0], true) ∈ [([0], false); ([2], true)] \/
   ([0] ∈ [[0]; [1]] /\ ([0], false) ∉ [([0], false); ([2], true)])).
Proof.
  split; [reflexivity|].
  apply (@updateValidationHistory_adds_and_discards [([0], false); ([2], true)]
           [[0]; [1]] [0]).
  simpl. repeat constructor; simpl; intuition discriminate.
Defined.

Lemma no_rules_reads (dt : datatypes) : reads_only (@no_rules dt).
Proof.
  intros testnode nodes usedefault oldvalids r st res st' H.
  unfold no_rules, ret in H. injection H as _ <-. reflexivity.
Qed.

Lemma no_rules_reports (dt : datatypes) : reports_errors (@no_rules dt).
Proof.
  intros testnode nodes usedefault repair oldvalids r st res st' H.
  unfold no_rules, ret in H. injection H as <- _. reflexivity.
Qed.

(** X12 on the example store, all nodes, the history left alone: the
    error is reported and the store is as before. *)
Lemma validate_without_repair_reads_only_witness :
  validate dom_util (@no_rules int_datatypes) 5 None false 0 false (ex_store true)
  = (Ok [above_maximum_message (dt:=int_datatypes) "count" 50%Z 10%Z], ex_store true).
Proof.
  assert (Hrun : validate dom_util (@no_rules int_datatypes) 5 None false 0 false
                          (ex_store true)
                 = (Ok [above_maximum_message (dt:=int_datatypes) "count" 50%Z 10%Z],
                    snd (validate dom_util (@no_rules int_datatypes) 5 None false 0 false
                                  (ex_store true)))).
  { apply run_result. vm_compute. reflexivity. }
  destruct (@validate_without_repair_reads_only int_datatypes dom_util
              (@no_rules int_datatypes) (@no_rules_reads int_datatypes) 5 (ex_store true)
              _ None false false _ Hrun) as [valid [Hst Hvalid]].
  etransitivity; [exact Hrun|]. apply f_equal.
  etransitivity; [exact Hst|]. rewrite (Hvalid eq_refl). reflexivity.
Defined.

(** X13 on the example store: [mode] is valid, and recorded. *)
Lemma validate_without_errors_records_all_witness :
  let st' := snd (validate dom_util (@no_rules int_datatypes) 5 (Some [[0]]) false 0 true
                           (ex_store true)) in
  [0] ∈ validnodes st'.
Proof.
  apply (@validate_without_errors_records_all int_datatypes dom_util
           (@no_rules int_datatypes) (@no_rules_reports int_datatypes) 5 (ex_store true)
           (snd (validate dom_util (@no_rules int_datatypes) 5 (Some [[0]]) false 0 true
                          (ex_store true)))
           (Some [[0]]) false 0 [0]).
  - apply run_result. vm_compute. reflexivity.
  - apply list_elem_of_singleton. reflexivity.
Defined.

Lemma ex_a_unset : unset ex_form_store [0] (default ex_form (node_at ex_form [0])) false "a".
Proof. constructor; reflexivity. Qed.

Lemma ex_d_unset : unset ex_form_store [2] (default ex_form (node_at ex_form [2])) false "d".
Proof. constructor; reflexivity. Qed.

(** X14 on the form: [a] is shown and has no value. *)
Lemma validate_reports_unset_unless_hidden_witness :
  exists st',
    validate dom_util (@no_rules int_datatypes) 5 (Some [[0]]) false 0 false ex_form_store
    = (Ok [not_set_message "a"], st') /\
    root st' = root ex_form_store /\ xmldocument st' = xmldocument ex_form_store /\
    trace st' = trace ex_form_store.
Proof.
  apply (@validate_reports_unset_unless_hidden int_datatypes dom_util
           (@no_rules int_datatypes) 5 ex_form_store [0]
           (default ex_form (node_at ex_form [0])) false false 0 "a" ex_a_unset).
  reflexivity.
Defined.

(** X15 on the form: [d] is a choice among options and has no value. *)
Lemma validate_raises_for_unset_option_witness :
  validate dom_util (@no_rules int_datatypes) 5 (Some [[2]]) false 0 false ex_form_store
  = (Raise AttributeError, ex_form_store).
Proof.
  apply (@validate_raises_for_unset_option int_datatypes dom_util
           (@no_rules int_datatypes) 5 ex_form_store [2]
           (default ex_form (node_at ex_form [2])) false false 0 "d" ex_d_unset).
  - reflexivity.
  - reflexivity.
Defined.

(** X18 on the example registry: a class from [1.1] to [0.9] is added, and
    [1.2] is still reached from [1.0]. *)
Lemma addConverter_keeps_conversions_witness :
  exists reg',
    addConverter ex_registry (Some "1.1") (Some "0.9") 6 = Ok reg' /\
    hasConverter ex_registry "1.0" "1.2" = true /\
    hasConverter reg' "1.0" "1.2" = true.
Proof.
  eexists. split; [reflexivity|]. split; [reflexivity|].
  eapply (@addConverter_keeps_conversions nat ex_registry (Some "1.1") (Some "0.9") 6 _
            "1.0" "1.2");
    reflexivity.
Defined.

(** X19 on the example store: [mode] is 0 and [count] is not 1, and the
    condition after these two, which has no type, is not looked at. *)
Lemma checkCondition_and_or_witness :
  checkCondition (ex_store true) ex_both (ex_store true) [1] None = Ok false /\
  first_decides (fun ch => checkCondition (ex_store true) ch (ex_store true) [1] None) false
                (List.filter (isElementNamed "condition") (childNodes ex_both)).
Proof.
  split; [reflexivity|].
  apply (proj2 (proj1 (@checkCondition_and_or int_datatypes (ex_store true) (ex_store true)
                         (ex_store true) ex_both [1] None eq_refl) eq_refl)).
  reflexivity.
Defined.

(** X20 on the example store as it is built, [extra] still visible: its
    condition on [mode] does not hold, and it is hidden. *)
Lemma updateVisibility_follows_condition_witness :
  let st := with_root (ex_store true) ex_root0 in
  let st' := snd (updateVisibility dom_util [1] true st) in
  option_map visible (node_at ex_root0 [1]) = Some true /\
  exists shownew,
    checkCondition st (Element "condition" [("type", "eq"); ("variable", "/mode"); ("value", "1")] [])
                   st [1] None = Ok shownew /\
    root st' = update_at (with_visible shownew) [1] (root st) /\
    xmldocument st' = xmldocument st /\ changed st' = changed st /\
    (shownew = visible (default ex_root0 (node_at ex_root0 [1])) \/ true = false ->
     trace st' = trace st).
Proof.
  split; [reflexivity|].
  apply (@updateVisibility_follows_condition int_datatypes dom_util
           (with_root (ex_store true) ex_root0)
           (snd (updateVisibility dom_util [1] true (with_root (ex_store true) ex_root0)))
           [1] (default ex_root0 (node_at ex_root0 [1]))
           (Element "condition" [("type", "eq"); ("variable", "/mode"); ("value", "1")] [])
           true).
  - reflexivity.
  - reflexivity.
  - apply run_result. vm_compute. reflexivity.
Defined.

(** X21 on the example schema and document. *)
Lemma Node_init_locations_witness :
  location ex_root0 = [] /\ wf_locations ex_root0 /\
  forall p c, node_at ex_root0 p = Some c ->
    location c = [] ++ names_along ex_root0 p /\
    (p <> [] -> getId c = Ok (getAttribute (templatenode c) "name")).
Proof.
  apply (@Node_init_locations int_datatypes [] ex_schema (Some 1) [] (ex_dom, [])
           (snd ex_init) ex_root0).
  apply run_result. vm_compute. reflexivity.
Defined.

(** An integer whose decimal text reads back as itself is accepted by the
    integer class, and stored as it is. *)
Lemma int_accepted (t : Xml) (v : Z) :
  py_int (str_of_Z v) = Ok v -> accepted (dt:=int_datatypes) tt t v v.
Proof.
  intros Hpy. split; [reflexivity|]. split; [now left|]. intros d i Hi. simpl.
  destruct (lookup_lt_is_Some_2 d i Hi) as [e He].
  unfold int_save, int_load, dom_update. simpl. rewrite He.
  rewrite list_lookup_insert_eq by exact Hi. simpl. rewrite Hpy. reflexivity.
Qed.

(** A plain integer is accepted too, and stored as the instance the class
    makes of it. *)
Lemma raw_accepted (t : Xml) (z : Z) :
  py_int (str_of_Z z) = Ok z -> accepted (dt:=raw_datatypes) tt t (Raw z) (Int z).
Proof.
  intros Hpy. split; [reflexivity|]. split.
  - right. simpl. now rewrite Z.eqb_refl.
  - intros d i Hi. simpl.
    destruct (lookup_lt_is_Some_2 d i Hi) as [e He].
    unfold raw_load, int_save, int_load, dom_update. simpl. rewrite He.
    rewrite list_lookup_insert_eq by exact Hi. simpl. rewrite Hpy. reflexivity.
Qed.

(** C1 on the example store: the plain integer 5 for [extra], which has no
    value element; the class makes an instance of it, the element is made,
    and the call returns. *)
Lemma setValue_then_getValue_witness :
  getValue ex_raw_store [1] false = Ok None /\
  option_map valuenode (node_at (root ex_raw_store) [1]) = Some None /\
  exists x st',
    setValue (dt:=raw_datatypes) dom_util 5 [1] (Some (Raw 5)) ex_raw_store = (Ok x, st') /\
    getValue st' [1] false = Ok (Some (Int 5)).
Proof.
  split; [reflexivity|]. split; [reflexivity|].
  destruct (@setValue_then_getValue raw_datatypes dom_util 5 ex_raw_store [1] (ex_node [1])
              tt (Raw 5) (Int 5)) as [_ Hwrite].
  - reflexivity.
  - reflexivity.
  - apply raw_accepted. reflexivity.
  - intros i [H|H]; vm_compute in H; discriminate.
  - destruct (Hwrite None) as [_ Hreturns].
    + reflexivity.
    + reflexivity.
    + vm_compute. reflexivity.
    + split; [discriminate|]. exists 1, [[1]], 0.
      split_and!; try reflexivity.
      repeat constructor. exists (ex_node [1]). split; [reflexivity|discriminate].
    + apply Hreturns; [lia|reflexivity|reflexivity].
Defined.


Lemma ex_count_bounded (allow : bool) :
  bounded_above (ex_store allow) [2] (ex_node [2]) false 50%Z 0%Z 10%Z.
Proof. constructor; reflexivity. Qed.

(** C8 on the example store: [count] is bounded by 0 and 10 and holds 50;
    the interface allows the change. *)
Lemma validate_above_maximum_witness :
  (exists st',
     validate dom_util (@no_rules int_datatypes) 5 (Some [[2]]) false 0 false (ex_store true)
     = (Ok [above_maximum_message (dt:=int_datatypes) "count" 50%Z 10%Z], st') /\
     root st' = ex_root /\ xmldocument st' = ex_document /\
     getValue st' [2] false = Ok (Some 50%Z)) /\
  (exists st',
     validate dom_util (@no_rules int_datatypes) 5 (Some [[2]]) false 2 false (ex_store true)
     = (Ok [], st') /\
     getValue st' [2] false = Ok (Some 10%Z)).
Proof.
  destruct (@validate_above_maximum int_datatypes dom_util (@no_rules int_datatypes) 5
              (ex_store true) [2] (ex_node [2]) false false 50%Z 0%Z 10%Z "count"
              (ex_count_bounded true) eq_refl) as [Hreport Hrepair].
  split; [exact Hreport|].
  destruct (Hrepair (Some 50%Z) eq_refl eq_refl) as [_ Hallowed].
  destruct (Hallowed tt 10%Z) as [_ Hreturns].
  - vm_compute. reflexivity.
  - reflexivity.
  - apply int_accepted. reflexivity.
  - intros i [H|H]; vm_compute in H; injection H as <-; vm_compute; lia.
  - apply Hreturns; [exact I|lia|reflexivity|reflexivity].
Defined.

(** C8 as stated fails where an interface denies every change: [count] is
    bounded by 0 and 10 and holds 50, [validate] with [repair=2] returns no
    error, and the stored value is still 50. *)
Lemma validate_above_maximum_counterexample :
  bounded_above (ex_store false) [2] (ex_node [2]) false 50%Z 0%Z 10%Z /\
  exists st',
    validate dom_util (@no_rules int_datatypes) 5 (Some [[2]]) false 2 false (ex_store false)
    = (Ok [], st') /\
    getValue st' [2] false = Ok (Some 50%Z).
Proof.
  split; [constructor; reflexivity|].
  exists (snd (validate dom_util (@no_rules int_datatypes) 5 (Some [[2]]) false 2 false
                        (ex_store false))).
  split; [apply run_result; vm_compute; reflexivity|vm_compute; reflexivity].
Defined.
